(** * go-hocon: the configuration tree, its renderers, path lookup,
      typed getters and fallback merge (config.go)

    A shallow embedding of [config.go].  Go strings are byte strings and are
    modelled by [string]; Go's [int] and [time.Duration] are 64-bit signed
    integers carried as [Z]; a [map[string]Value] is a [gmap string _].

    A [Value] is a Go interface and can be nil.  The values of an
    [Object], the elements of an [Array] and the fragments of a
    [concatenation] are slots of a Go map or slice that any caller of the
    package can fill with nil; they are [option Value] here, and a method
    called on a nil slot is the panic of the Go runtime.  The two fields of
    a [valueWithAlternative] and the root of a [Config] are unexported and
    are set by code of the package only; they are taken to hold a value.

    A panic of the Go runtime is an explicit outcome, see [outcome].

    The code is embedded twice.  On trees ([Value]) an Object is the map it
    holds: the renderers, the lookup and the getters only read, and for them
    a tree is all there is.  On a store ([HValue], [Store]) an Object is a
    reference to a map: [copy], [mergeObjects] and [WithFallback] allocate
    maps and write into them, and what they leave untouched is part of what
    is proved.  The relation [repr] reads a tree out of a store and ties the
    two.

    The file has the definitions first and the facts after them. *)

From stdpp Require Import gmap strings list fin_maps.
From Stdlib Require Import ZArith Ascii DecimalString DecimalZ.

#[local] Set Warnings "-register-all,-clear-no-such-hyp".
#[local] Open Scope Z_scope.

(** ** The Go runtime: panics and errors *)

(** What ends a Go call other than a normal return. *)
Inductive panic : Type :=
| InterfaceConversion   (* an unchecked type assertion [v.(T)] that fails *)
| NilDereference        (* a method called on a nil interface value *)
| PanicMsg (msg : string). (* an explicit [panic(msg)] *)

Inductive outcome (A : Type) : Type :=
| Returns (a : A)
| Panics (p : panic).
Arguments Returns {A} a.
Arguments Panics {A} p.

Definition obind {A B} (m : outcome A) (k : A → outcome B) : outcome B :=
  match m with
  | Returns a => k a
  | Panics p => Panics p
  end.

Notation "x ←! m ;; k" := (obind m (λ x, k))
  (at level 100, m at next level, right associativity).

(** Go's [error]: nil, or a message (all errors here come from [fmt.Errorf]). *)
Definition error : Type := option string.
Definition nil_error : error := None.

(** [fmt.Errorf(format, path)] for the formats of config.go, which all have
    the shape [prefix %s suffix]. *)
Definition fmt_Errorf (pre path post : string) : error :=
  Some (pre +:+ path +:+ post).

(** ** Strings *)

(** [strings.Split(s, sep)] for a separator of one byte. *)
Fixpoint strings_Split (s : string) (sep : ascii) : list string :=
  match s with
  | EmptyString => [EmptyString]
  | String c s' =>
      if decide (c = sep) then EmptyString :: strings_Split s' sep
      else match strings_Split s' sep with
           | x :: xs => String c x :: xs
           | [] => [String c EmptyString]
           end
  end.

(** [strings.Trim(s, cutset)] for a cutset of one ASCII byte: Go trims the
    byte on the right, then on the left. *)
Fixpoint trimLeftByte (s : string) (c : ascii) : string :=
  match s with
  | EmptyString => EmptyString
  | String a s' => if decide (a = c) then trimLeftByte s' c else s
  end.

Fixpoint trimRightByte (s : string) (c : ascii) : string :=
  match s with
  | EmptyString => EmptyString
  | String a s' =>
      match trimRightByte s' c with
      | EmptyString => if decide (a = c) then EmptyString else String a EmptyString
      | r => String a r
      end
  end.

Definition strings_Trim (s : string) (cutset : ascii) : string :=
  trimLeftByte (trimRightByte s cutset) cutset.

(** [strconv.Itoa] and [fmt.Sprintf("%d", _)]: decimal digits, a leading
    minus sign for negative numbers. *)
Definition strconv_Itoa (i : Z) : string := NilZero.string_of_int (Z.to_int i).

(** [strconv.FormatBool]. *)
Definition strconv_FormatBool (b : bool) : string :=
  if b then "true" else "false".

(** [strconv.Atoi] where [int] has 64 bits: an optional sign, then one or
    more decimal digits, and the value must fit; [None] stands for a non-nil
    error. *)
Definition int_min : Z := - 2 ^ 63.
Definition int_max : Z := 2 ^ 63 - 1.

Definition digit_val (c : ascii) : option Z :=
  let n := Z.of_N (N_of_ascii c) - 48 in
  if (0 <=? n) && (n <=? 9) then Some n else None.

Fixpoint parse_digits (s : string) (acc : Z) : option Z :=
  match s with
  | EmptyString => Some acc
  | String c s' =>
      match digit_val c with
      | Some d => parse_digits s' (acc * 10 + d)
      | None => None
      end
  end.

Definition strconv_Atoi (s : string) : option Z :=
  let '(neg, body) :=
    match s with
    | String "-" r => (true, r)
    | String "+" r => (false, r)
    | _ => (false, s)
    end in
  match body with
  | EmptyString => None
  | _ =>
      match parse_digits body 0 with
      | Some n =>
          let v := if neg : bool then - n else n in
          if (int_min <=? v) && (v <=? int_max) then Some v else None
      | None => None
      end
  end.

(** The double-quote byte, and the one-byte string holding it. *)
Definition dquote : ascii := "034"%char.
Definition quoteToken : string := String dquote EmptyString.

(** ** Bytes, UTF-8 and white space

    What [strings.TrimSpace] and the string encoder of [encoding/json] do
    with the bytes of a Go string. *)

Definition byte_val (c : ascii) : Z := Z.of_N (N_of_ascii c).

Definition byte_in (lo hi : Z) (c : ascii) : bool :=
  (lo <=? byte_val c) && (byte_val c <=? hi).

Definition backslash : ascii := "092"%char.
Definition backslashToken : string := String backslash EmptyString.

(** [utf8.DecodeRuneInString]: the rune at the start of the string and its
    width in bytes; [(RuneError, 1)] for an encoding that is not valid,
    [(RuneError, 0)] for the empty string. *)
Definition utf8_RuneError : Z := 65533.

Definition utf8_DecodeRuneInString (s : string) : Z * nat :=
  match s with
  | EmptyString => (utf8_RuneError, O)
  | String s0 r0 =>
      let b0 := byte_val s0 in
      if b0 <? 128 then (b0, 1%nat)
      else
        (* the width the first byte announces and the range its second
           byte must lie in; width 0 for a byte that starts no rune *)
        let '(sz, lo, hi) :=
          if byte_in 194 223 s0 then (2%nat, 128, 191)
          else if byte_in 224 224 s0 then (3%nat, 160, 191)
          else if byte_in 225 236 s0 then (3%nat, 128, 191)
          else if byte_in 237 237 s0 then (3%nat, 128, 159)
          else if byte_in 238 239 s0 then (3%nat, 128, 191)
          else if byte_in 240 240 s0 then (4%nat, 144, 191)
          else if byte_in 241 243 s0 then (4%nat, 128, 191)
          else if byte_in 244 244 s0 then (4%nat, 128, 143)
          else (O, 0, 0) in
        match sz, r0 with
        | 2%nat, String s1 _ =>
            if byte_in lo hi s1
            then (Z.lor (Z.shiftl (Z.land b0 31) 6) (Z.land (byte_val s1) 63),
                  2%nat)
            else (utf8_RuneError, 1%nat)
        | 3%nat, String s1 (String s2 _) =>
            if byte_in lo hi s1 && byte_in 128 191 s2
            then (Z.lor (Z.shiftl (Z.land b0 15) 12)
                    (Z.lor (Z.shiftl (Z.land (byte_val s1) 63) 6)
                       (Z.land (byte_val s2) 63)),
                  3%nat)
            else (utf8_RuneError, 1%nat)
        | 4%nat, String s1 (String s2 (String s3 _)) =>
            if byte_in lo hi s1 && byte_in 128 191 s2 && byte_in 128 191 s3
            then (Z.lor (Z.shiftl (Z.land b0 7) 18)
                    (Z.lor (Z.shiftl (Z.land (byte_val s1) 63) 12)
                       (Z.lor (Z.shiftl (Z.land (byte_val s2) 63) 6)
                          (Z.land (byte_val s3) 63))),
                  4%nat)
            else (utf8_RuneError, 1%nat)
        | _, _ => (utf8_RuneError, 1%nat)
        end
  end.

(** [unicode.IsSpace] *)
Definition unicode_IsSpace (r : Z) : bool :=
  bool_decide (r = 9 ∨ r = 10 ∨ r = 11 ∨ r = 12 ∨ r = 13 ∨ r = 32
               ∨ r = 133 ∨ r = 160 ∨ r = 5760 ∨ 8192 <= r <= 8202
               ∨ r = 8232 ∨ r = 8233 ∨ r = 8239 ∨ r = 8287 ∨ r = 12288).

(** [strings.TrimLeftFunc(s, unicode.IsSpace)].  The recursive calls are on
    the string after the rune, whose width is 1, 2 or 3 for a white-space
    rune. *)
Fixpoint trimSpaceLeft (s : string) : string :=
  match s with
  | EmptyString => EmptyString
  | String _ r0 =>
      let '(r, size) := utf8_DecodeRuneInString s in
      if unicode_IsSpace r then
        match size, r0 with
        | 1%nat, _ => trimSpaceLeft r0
        | 2%nat, String _ r1 => trimSpaceLeft r1
        | 3%nat, String _ (String _ r2) => trimSpaceLeft r2
        | _, _ => s
        end
      else s
  end.

(** [strings.TrimRightFunc(s, unicode.IsSpace)] on the reversed string.
    [utf8.DecodeLastRuneInString] returns a white-space rune exactly when
    the string ends with the encoding of one: the encodings of the
    white-space runes have one, two or three bytes, and the byte before the
    last is the first byte of a two-byte and a continuation byte of a
    three-byte encoding. *)
Fixpoint trimSpaceLeft_reversed (rs : string) : string :=
  match rs with
  | EmptyString => EmptyString
  | String b0 r0 =>
      if byte_val b0 <? 128 then
        if unicode_IsSpace (byte_val b0) then trimSpaceLeft_reversed r0 else rs
      else
        match r0 with
        | String b1 r1 =>
            let two := String b1 (String b0 EmptyString) in
            let '(r, size) := utf8_DecodeRuneInString two in
            if (size =? 2)%nat && unicode_IsSpace r
            then trimSpaceLeft_reversed r1
            else
              match r1 with
              | String b2 r2 =>
                  let '(r, size) := utf8_DecodeRuneInString (String b2 two) in
                  if (size =? 3)%nat && unicode_IsSpace r
                  then trimSpaceLeft_reversed r2
                  else rs
              | EmptyString => rs
              end
        | EmptyString => rs
        end
  end.

(** [strings.TrimSpace] *)
Definition strings_TrimSpace (s : string) : string :=
  String.rev (trimSpaceLeft_reversed (String.rev (trimSpaceLeft s))).

(** ** JSON texts

    The texts that [json.Unmarshal] is given by config.go, as far as the
    statements need them: the body of a string literal, and the texts of
    values nested to a given depth. *)

Definition is_hex (c : ascii) : bool :=
  byte_in 48 57 c || byte_in 97 102 c || byte_in 65 70 c.

(** What may stand between the quotes of a JSON string: any byte from the
    space on other than the quote and the backslash, and the escape
    sequences. *)
Fixpoint json_string_body (s : string) : bool :=
  match s with
  | EmptyString => true
  | String c r =>
      if decide (c = backslash) then
        match r with
        | String e r' =>
            if bool_decide (e = dquote ∨ e = backslash ∨ e = "/"%char
                            ∨ e = "b"%char ∨ e = "f"%char ∨ e = "n"%char
                            ∨ e = "r"%char ∨ e = "t"%char)
            then json_string_body r'
            else if decide (e = "u"%char) then
              match r' with
              | String h1 (String h2 (String h3 (String h4 r''))) =>
                  is_hex h1 && is_hex h2 && is_hex h3 && is_hex h4
                  && json_string_body r''
              | _ => false
              end
            else false
        | EmptyString => false
        end
      else (32 <=? byte_val c) && negb (bool_decide (c = dquote))
           && json_string_body r
  end.

(** One member of an object text. *)
Definition json_member (key text : string) : string :=
  quoteToken +:+ key +:+ quoteToken +:+ ":" +:+ text.

(** [json_text depth t]: [t] is the text of a JSON value whose arrays and
    objects are nested at most [depth] deep, written the way config.go
    writes them: integers of 64 bits in decimal, the members of an object
    separated by a comma and a space, the elements of an array by a
    comma. *)
Inductive json_text : nat → string → Prop :=
| json_text_deeper depth t : json_text depth t → json_text (S depth) t
| json_text_string depth body :
    json_string_body body = true →
    json_text depth (quoteToken +:+ body +:+ quoteToken)
| json_text_int depth i :
    int_min <= i <= int_max → json_text depth (strconv_Itoa i)
| json_text_bool depth b : json_text depth (strconv_FormatBool b)
| json_text_null depth : json_text depth "null"
| json_text_array depth elements :
    Forall (json_text depth) elements →
    json_text (S depth) ("[" +:+ String.concat "," elements +:+ "]")
| json_text_object depth (members : list (string * string)) :
    Forall (λ m, json_string_body m.1 = true ∧ json_text depth m.2) members →
    json_text (S depth)
      ("{" +:+ String.concat ", " (map (λ m, json_member m.1 m.2) members)
           +:+ "}").

(** ** The standard library behind config.go

    What config.go takes from [strconv], [time], [fmt] and [encoding/json]
    and what is not integer or byte arithmetic: float formatting and
    parsing, the text of a duration, what [fmt] writes for an operand whose
    [String] method panics, and the JSON decoder.  A [float32] or [float64]
    is carried as its IEEE bit pattern.  The laws are what the statements
    use of these functions. *)

Definition float32 : Type := Z.
Definition float64 : Type := Z.

(** The bytes that the string encoder of [encoding/json] copies when HTML
    escaping is off (its [safeSet]). *)
Definition json_safe (c : ascii) : bool :=
  byte_in 32 127 c && negb (bool_decide (c = dquote))
  && negb (bool_decide (c = backslash)).

Fixpoint json_plain (s : string) : bool :=
  match s with
  | EmptyString => true
  | String c r => json_safe c && json_plain r
  end.

Class GoLib : Type := {
  (** [strconv.FormatFloat(f, 'e', -1, bitSize)]; it writes digits, a
      point, an exponent and signs, or [NaN], [+Inf], [-Inf] *)
  strconv_FormatFloat : Z → Z → string;
  strconv_FormatFloat_plain :
    ∀ f bitSize, json_plain (strconv_FormatFloat f bitSize) = true;
  (** [strconv.ParseFloat(s, bitSize)], [None] for a non-nil error *)
  strconv_ParseFloat : string → Z → option float64;
  (** the conversions [float32(f)] and [float64(f)] *)
  float32_of_float64 : float64 → float32;
  float64_of_float32 : float32 → float64;
  (** [time.Duration.String] *)
  time_Duration_String : Z → string;
  (** what [fmt.Sprintf] writes for a [%s] operand whose [String] method
      panics: it recovers the panic and writes a text that names it *)
  fmt_recovered : panic → string;
  (** whether the string encoder of [encoding/json] writes a backspace and
      a form feed as [\b] and [\f] (Go 1.22 and later) or as [\u0008] and
      [\u000c] *)
  json_short_escapes : bool;
  (** a decoded [map[string]interface{}] *)
  JsMap : Type;
  (** [json.Unmarshal(data, &js)] for [js] a [map[string]interface{}], on a
      text whose top-level value is an object or [null]: the map, or the
      message of the error *)
  json_decode : string → JsMap + string;
  (** the message of the error [json.Unmarshal] reports for any other text *)
  json_reject : string → string;
  (** the nesting depth up to which the decoder reads a text *)
  json_max_depth : nat;
  (** the decoder reads [null] (into a nil map) and every object text that
      is not nested too deep *)
  json_decode_null : ∃ js, json_decode "null" = inl js;
  json_decode_object :
    ∀ depth members,
      (S depth ≤ json_max_depth)%nat →
      Forall (λ m : string * string,
                json_string_body m.1 = true ∧ json_text depth m.2) members →
      ∃ js,
        json_decode
          ("{" +:+ String.concat ", " (map (λ m, json_member m.1 m.2) members)
               +:+ "}")
        = inl js;
  (** [jsonMarshal] applied to a decoded map *)
  jsonMarshal_map : JsMap → string
}.

(** ** The value model *)

(** [type Type int] and its constants, numbered by [iota]. *)
Inductive Type_ : Type :=
| ObjectType
| StringType
| ArrayType
| NumberType
| BooleanType
| NullType
| SubstitutionType
| ConcatenationType
| valueWithAlternativeType.

Definition Type_iota (t : Type_) : Z :=
  match t with
  | ObjectType => 0
  | StringType => 1
  | ArrayType => 2
  | NumberType => 3
  | BooleanType => 4
  | NullType => 5
  | SubstitutionType => 6
  | ConcatenationType => 7
  | valueWithAlternativeType => 8
  end.

#[global] Instance Type_eq_dec : EqDecision Type_.
Proof. solve_decision. Defined.

(** [type Substitution struct { path string; optional bool }] *)
Record Substitution : Type := mkSubstitution {
  path : string;
  optional : bool
}.

(** The implementations of the [Value] interface.  [Null] is a string type
    whose methods ignore the receiver, so it carries nothing here. *)
Inductive Value : Type :=
| VString (s : string)
| VvalueWithAlternative (value : Value) (alternative : Substitution)
| VObject (o : gmap string (option Value))
| VArray (a : list (option Value))
| VInt (i : Z)
| VFloat32 (f : float32)
| VFloat64 (f : float64)
| VBoolean (b : bool)
| VSubstitution (s : Substitution)
| VNull
| VDuration (d : Z)
| Vconcatenation (c : list (option Value)).

(** [type Object map[string]Value], [type Array []Value] and
    [type concatenation Array]. *)
Abbreviation Object := (gmap string (option Value)).
Abbreviation Array := (list (option Value)).
Abbreviation concatenation := (list (option Value)).

(** [type Config struct { root Value }] *)
Record Config : Type := mkConfig { root : Value }.

(** Modelled from the spec: the token constants ([objectStartToken], ...,
    [dotToken]) are declared in a file of the package that is not among the
    sources; sections 4.1 and 4.2 of the spec give their text. *)
Definition objectStartToken : string := "{".
Definition objectEndToken : string := "}".
Definition arrayStartToken : string := "[".
Definition arrayEndToken : string := "]".
Definition colonToken : string := ":".
Definition commaToken : string := ",".
Definition dotToken : ascii := ".".

(** [const null Null = "null"] *)
Definition null : string := "null".

(** [v.Method()] on a slot that can be nil: the Go runtime panics on a nil
    interface value. *)
Definition method_call {A B} (method : A → outcome B) (v : option A)
    : outcome B :=
  match v with
  | Some v => method v
  | None => Panics NilDereference
  end.

(** [(s *Substitution) String()] *)
Definition Substitution_String (s : Substitution) : string :=
  let builder := "${" in
  let builder := if optional s then builder +:+ "?" else builder in
  let builder := builder +:+ path s in
  builder +:+ "}".

Section Renderers.
Context `{!GoLib}.

(** The string encoder of [encoding/json] with HTML escaping off: the
    escape of a byte below 128 that is not in the safe set. *)
Definition hex_digit (n : Z) : ascii :=
  if n <? 10 then ascii_of_N (Z.to_N (48 + n)) else ascii_of_N (Z.to_N (87 + n)).

Definition json_escape_byte (b : ascii) : string :=
  if bool_decide (b = backslash ∨ b = dquote) then String backslash (String b EmptyString)
  else if bool_decide (b = "008"%char) && json_short_escapes then String backslash "b"
  else if bool_decide (b = "012"%char) && json_short_escapes then String backslash "f"
  else if bool_decide (b = "010"%char) then String backslash "n"
  else if bool_decide (b = "013"%char) then String backslash "r"
  else if bool_decide (b = "009"%char) then String backslash "t"
  else String backslash
         ("u00" +:+ String (hex_digit (Z.shiftr (byte_val b) 4))
                      (String (hex_digit (Z.land (byte_val b) 15)) EmptyString)).

(** What the encoder writes between the quotes.  A safe byte is copied and
    any other byte below 128 escaped; an encoding that is not valid UTF-8
    becomes the escape of U+FFFD and one byte is skipped; the line and paragraph
    separators (U+2028, U+2029) are escaped; any other rune is copied. *)
Fixpoint json_escape (s : string) : string :=
  match s with
  | EmptyString => EmptyString
  | String b0 r0 =>
      if byte_val b0 <? 128 then
        if json_safe b0 then String b0 (json_escape r0)
        else json_escape_byte b0 +:+ json_escape r0
      else
        let '(c, size) := utf8_DecodeRuneInString s in
        if bool_decide (c = utf8_RuneError) && (size =? 1)%nat
        then (String backslash "ufffd") +:+ json_escape r0
        else
          match size, r0 with
          | 2%nat, String b1 r1 => String b0 (String b1 (json_escape r1))
          | 3%nat, String b1 (String b2 r2) =>
              if bool_decide (c = 8232 ∨ c = 8233)
              then (String backslash "u202")
                     +:+ String (hex_digit (Z.land c 15)) (json_escape r2)
              else String b0 (String b1 (String b2 (json_escape r2)))
          | 4%nat, String b1 (String b2 (String b3 r3)) =>
              String b0 (String b1 (String b2 (String b3 (json_escape r3))))
          | _, _ => (String backslash "ufffd") +:+ json_escape r0
          end
  end.

(** What [json.Encoder.Encode] writes for a Go string when HTML escaping is
    off and the indent is empty: the string literal and a line feed. *)
Definition json_Encode (v : string) : string :=
  quoteToken +:+ json_escape v +:+ quoteToken +:+ String "010"%char EmptyString.

(** [jsonMarshal] on a string (a [String], an object key, a rendering). *)
Definition jsonMarshal (v : string) : string :=
  strings_TrimSpace (json_Encode v).

(** [(o Object) Json()], given the [Json] method of the values.  [map_fold]
    applies the loop body to the entries of [map_to_list o] from the last to
    the first: that is the order in which this model's [range] visits the
    map. *)
Definition Object_Json_with (Json : Value → outcome string) (o : Object)
    : outcome string :=
  let itemsSize := Z.of_nat (size o) in
  loop ←! map_fold (λ (key : string) (value : option Value)
                      (st : outcome (string * Z)),
      st ←! st;;
      let '(builder, i) := st in
      let builder := builder +:+ jsonMarshal key in
      let builder := builder +:+ colonToken in
      builder ←! match value with
                 | Some v => text ←! Json v;; Returns (builder +:+ text)
                 | None => Returns (builder +:+ null)
                 end;;
      let builder := if i <? itemsSize then builder +:+ ", " else builder in
      Returns (builder, i + 1))
      (Returns (objectStartToken, 1)) o;;
  Returns (fst loop +:+ objectEndToken).

(** [(a Array) Json()], given the [Json] method of the elements. *)
Definition Array_Json_with (Json : Value → outcome string) (a : Array)
    : outcome string :=
  match a with
  | [] => Returns "[]"
  | a0 :: rest =>
      text ←! method_call Json a0;;
      let builder := arrayStartToken +:+ text in
      builder ←! fold_left (λ (st : outcome string) (value : option Value),
                     builder ←! st;;
                     let builder := builder +:+ commaToken in
                     text ←! method_call Json value;;
                     Returns (builder +:+ text))
                   rest (Returns builder);;
      Returns (builder +:+ arrayEndToken)
  end.

(** [(c concatenation) String()], given the [String] method of the
    fragments. *)
Definition concatenation_String_with (String_ : Value → outcome string)
    (c : concatenation) : outcome string :=
  fold_left (λ (st : outcome string) (value : option Value),
      builder ←! st;;
      match value with
      | Some v =>
          text ←! String_ v;;
          Returns (builder +:+ strings_Trim text dquote)
      | None => Returns builder
      end)
    c (Returns EmptyString).

(** A [%s] operand of [fmt.Sprintf] that is a [Value]: [fmt] calls its
    [String] method and recovers a panic of that call. *)
Definition fmt_operand (text : outcome string) : string :=
  match text with
  | Returns text => text
  | Panics p => fmt_recovered p
  end.

(** The methods [String()] and [Json()] of every implementation of
    [Value]. *)
Fixpoint Value_String (v : Value) : outcome string :=
  match v with
  | VString s => Returns s
  | VvalueWithAlternative value alternative =>
      Returns ("(" +:+ fmt_operand (Value_String value) +:+ " | "
                   +:+ Substitution_String alternative +:+ ")")
  | VObject o => Object_Json_with Value_Json o
  | VArray a => Array_Json_with Value_Json a
  | VInt i => Returns (strconv_Itoa i)
  | VFloat32 f => Returns (strconv_FormatFloat f 32)
  | VFloat64 f => Returns (strconv_FormatFloat f 64)
  | VBoolean b => Returns (strconv_FormatBool b)
  | VSubstitution s => Returns (Substitution_String s)
  | VNull => Returns null
  | VDuration d => Returns (time_Duration_String d)
  | Vconcatenation c => concatenation_String_with Value_String c
  end
with Value_Json (v : Value) : outcome string :=
  match v with
  | VString s => Returns (jsonMarshal s)
  | VvalueWithAlternative value alternative =>
      Returns (jsonMarshal ("(" +:+ fmt_operand (Value_String value) +:+ " | "
                                +:+ Substitution_String alternative +:+ ")"))
  | VObject o => Object_Json_with Value_Json o
  | VArray a => Array_Json_with Value_Json a
  | VInt i => Returns (strconv_Itoa i)
  | VFloat32 f =>
      Returns (quoteToken +:+ strconv_FormatFloat f 32 +:+ quoteToken)
  | VFloat64 f =>
      Returns (quoteToken +:+ strconv_FormatFloat f 64 +:+ quoteToken)
  | VBoolean b => Returns (strconv_FormatBool b)
  | VSubstitution s => Returns (jsonMarshal (Substitution_String s))
  | VNull => Returns null
  | VDuration d => Returns (strconv_Itoa (Z.quot d 1000000))
  | Vconcatenation c =>
      text ←! concatenation_String_with Value_String c;;
      Returns (jsonMarshal text)
  end.

(** [(c *Config) String()] *)
Definition Config_String (c : Config) : outcome string :=
  Value_String (root c).

(** [json.Unmarshal(data, &js)] into a [map[string]interface{}]: a text
    whose first byte after JSON white space is neither an opening brace nor
    the [n] of [null] is rejected (as a syntax error, or because its value
    cannot be stored in a map); the decoder settles the others. *)
Fixpoint json_skip_space (data : string) : string :=
  match data with
  | String c rest =>
      if bool_decide (c = " "%char ∨ c = "009"%char ∨ c = "010"%char
                      ∨ c = "013"%char)
      then json_skip_space rest else data
  | EmptyString => EmptyString
  end.

Definition json_Unmarshal (data : string) : JsMap + string :=
  match json_skip_space data with
  | String "{" _ | String "n" _ => json_decode data
  | _ => inr (json_reject data)
  end.

(** [(c *Config) Json()] *)
Definition Config_Json (c : Config) : outcome string :=
  text ←! Value_Json (root c);;
  match json_Unmarshal text with
  | inr err => Panics (PanicMsg ("Error on parsing json: " +:+ err))
  | inl js => Returns (jsonMarshal_map js)
  end.

End Renderers.

(** [Type()] of every implementation of [Value]. *)
Definition Value_Type (v : Value) : Type_ :=
  match v with
  | VString _ => StringType
  | VvalueWithAlternative _ _ => valueWithAlternativeType
  | VObject _ => ObjectType
  | VArray _ => ArrayType
  | VInt _ => NumberType
  | VFloat32 _ => NumberType
  | VFloat64 _ => NumberType
  | VBoolean _ => BooleanType
  | VSubstitution _ => SubstitutionType
  | VNull => NullType
  | VDuration _ => StringType
  | Vconcatenation _ => ConcatenationType
  end.

(** [isConcatenable()] of every implementation of [Value]. *)
Definition Value_isConcatenable (v : Value) : bool :=
  match v with
  | VString _ | VInt _ | VBoolean _ | VSubstitution _ | VNull
  | Vconcatenation _ => true
  | VvalueWithAlternative _ _ | VObject _ | VArray _ | VFloat32 _
  | VFloat64 _ | VDuration _ => false
  end.

(** [(c concatenation) containsObject()] *)
Fixpoint containsObject (c : concatenation) : bool :=
  match c with
  | [] => false
  | value :: rest =>
      match value with
      | Some v =>
          if decide (Value_Type v = ObjectType) then true
          else containsObject rest
      | None => containsObject rest
      end
  end.

(** [newBooleanFromString] *)
Definition newBooleanFromString (value : string) : bool * error :=
  if bool_decide (value = "true" ∨ value = "yes" ∨ value = "on")
  then (true, nil_error)
  else if bool_decide (value = "false" ∨ value = "no" ∨ value = "off")
  then (false, nil_error)
  else (false, fmt_Errorf "cannot parse value: " value " to Boolean").

(** [(o Object) ToConfig()] *)
Definition ToConfig (o : Object) : Config := mkConfig (VObject o).

(** [(c *Config) GetRoot()] *)
Definition GetRoot (c : Config) : Value := root c.

(** ** Path lookup *)

(** The loop of [find] over [keysWithoutLast], then the final index.
    [object[key]] with the comma-ok form tells a missing key from a key bound
    to nil; the plain index [object[lastKey]] yields nil for both. *)
Fixpoint find_loop (keysWithoutLast : list string) (object : Object)
    (lastKey : string) : outcome (option Value) :=
  match keysWithoutLast with
  | [] => Returns (mjoin (object !! lastKey))
  | key :: keys =>
      match object !! key with
      | None => Returns None
      | Some (Some (VObject o)) => find_loop keys o lastKey
      | Some _ => Panics InterfaceConversion
      end
  end.

(** [(o Object) find(path)] *)
Definition find (o : Object) (path : string) : outcome (option Value) :=
  let keys := strings_Split path dotToken in
  let lastKey := List.last keys EmptyString in
  let keysWithoutLast := removelast keys in
  find_loop keysWithoutLast o lastKey.

(** [(c *Config) Get(path)] *)
Definition Get (c : Config) (path : string) : outcome (option Value) :=
  if decide (Value_Type (root c) ≠ ObjectType) then Returns None
  else match root c with
       | VObject o => find o path
       | _ => Panics InterfaceConversion
       end.

(** ** The typed getters *)

Section Getters.
Context `{!GoLib}.

(** [(c *Config) GetObject(path)]; a nil [Object] is [None]. *)
Definition GetObject (c : Config) (path : string)
    : outcome (option Object * error) :=
  value ←! Get c path;;
  match value with
  | None =>
      Returns (None, fmt_Errorf "config value not found at path: " path EmptyString)
  | Some (VObject val) => Returns (Some val, nil_error)
  | Some _ =>
      Returns (None, fmt_Errorf "config value at path: " path " is not an object")
  end.

(** [(c *Config) GetConfig(path)]; a nil [*Config] is [None].  A nil map
    reads as the empty map. *)
Definition GetConfig (c : Config) (path : string)
    : outcome (option Config * error) :=
  r ←! GetObject c path;;
  let '(value, err) := r in
  match err with
  | Some _ => Returns (None, err)
  | None => Returns (Some (ToConfig (default ∅ value)), nil_error)
  end.

(** [(c *Config) GetStringMap(path)] *)
Definition GetStringMap (c : Config) (path : string)
    : outcome (option Object * error) :=
  GetObject c path.

(** [(c *Config) GetStringMapString(path)]: the loop calls [v.String()] on
    every value of the object, nil or not. *)
Definition GetStringMapString (c : Config) (path : string)
    : outcome (option (gmap string string) * error) :=
  value ←! Get c path;;
  match value with
  | None =>
      Returns (None, fmt_Errorf "config value not found at path: " path EmptyString)
  | Some (VObject object) =>
      m ←! map_fold (λ (k : string) (v : option Value)
                       (acc : outcome (gmap string string)),
             m ←! acc;;
             text ←! method_call Value_String v;;
             Returns (<[k := text]> m))
           (Returns ∅) object;;
      Returns (Some m, nil_error)
  | Some _ =>
      Returns (None, fmt_Errorf "config value at path: " path " is not an object")
  end.

(** [(c *Config) GetArray(path)]; a nil [Array] is [None]. *)
Definition GetArray (c : Config) (path : string)
    : outcome (option Array * error) :=
  value ←! Get c path;;
  match value with
  | None =>
      Returns (None, fmt_Errorf "config value not found at path: " path EmptyString)
  | Some (VArray val) => Returns (Some val, nil_error)
  | Some _ =>
      Returns (None, fmt_Errorf "config value at path: " path " is not an array")
  end.

(** The loop of [GetIntSlice]: [None] when an element is not an [Int]; the
    checked assertion [v.(Int)] fails on a nil element as on any other
    kind. *)
Fixpoint IntSlice_loop (arr : Array) (slice : list Z) : option (list Z) :=
  match arr with
  | [] => Some slice
  | Some (VInt i) :: rest => IntSlice_loop rest (slice ++ [i])
  | _ :: _ => None
  end.

(** [(c *Config) GetIntSlice(path)] *)
Definition GetIntSlice (c : Config) (path : string)
    : outcome (option (list Z) * error) :=
  value ←! Get c path;;
  match value with
  | None =>
      Returns (None, fmt_Errorf "config value not found at path: " path EmptyString)
  | Some (VArray arr) =>
      match IntSlice_loop arr [] with
      | Some slice => Returns (Some slice, nil_error)
      | None =>
          Returns (None, fmt_Errorf "config value at path: " path
                                    " is not an array of integers")
      end
  | Some _ =>
      Returns (None, fmt_Errorf "config value at path: " path
                                " is not an array of integers")
  end.

(** [(c *Config) GetStringSlice(path)]: the loop calls [v.String()] on
    every element of the array, nil or not. *)
Definition GetStringSlice (c : Config) (path : string)
    : outcome (option (list string) * error) :=
  value ←! Get c path;;
  match value with
  | None =>
      Returns (None, fmt_Errorf "config value not found at path: " path EmptyString)
  | Some (VArray arr) =>
      slice ←! fold_left (λ (st : outcome (list string)) (v : option Value),
                   slice ←! st;;
                   text ←! method_call Value_String v;;
                   Returns (slice ++ [text]))
                 arr (Returns []);;
      Returns (Some slice, nil_error)
  | Some _ =>
      Returns (None, fmt_Errorf "config value at path: " path " is not an array")
  end.

(** [(c *Config) GetString(path)] *)
Definition GetString (c : Config) (path : string) : outcome (string * error) :=
  value ←! Get c path;;
  match value with
  | None =>
      Returns (EmptyString,
               fmt_Errorf "config value not found at path: " path EmptyString)
  | Some v => text ←! Value_String v;; Returns (text, nil_error)
  end.

(** [(c *Config) GetInt(path)] *)
Definition GetInt (c : Config) (path : string) : outcome (Z * error) :=
  value ←! Get c path;;
  match value with
  | None =>
      Returns (0, fmt_Errorf "config value not found at path: " path EmptyString)
  | Some (VInt val) => Returns (val, nil_error)
  | Some (VString val) =>
      match strconv_Atoi val with
      | None => Returns (0, fmt_Errorf "cannot parse value: " path " to int")
      | Some i => Returns (i, nil_error)
      end
  | Some _ => Returns (0, fmt_Errorf "cannot parse value: " path " to int")
  end.

(** [(c *Config) GetFloat32(path)]; the bit pattern of [float32(0.0)] is 0. *)
Definition GetFloat32 (c : Config) (path : string)
    : outcome (float32 * error) :=
  value ←! Get c path;;
  match value with
  | None =>
      Returns (0, fmt_Errorf "config value not found at path: " path EmptyString)
  | Some (VFloat32 val) => Returns (val, nil_error)
  | Some (VFloat64 val) => Returns (float32_of_float64 val, nil_error)
  | Some (VString val) =>
      match strconv_ParseFloat val 32 with
      | None => Returns (0, fmt_Errorf "cannot parse value: " path " to float32")
      | Some floatValue => Returns (float32_of_float64 floatValue, nil_error)
      end
  | Some _ => Returns (0, fmt_Errorf "cannot parse value: " path " to float32")
  end.

(** [(c *Config) GetFloat64(path)] *)
Definition GetFloat64 (c : Config) (path : string)
    : outcome (float64 * error) :=
  value ←! Get c path;;
  match value with
  | None =>
      Returns (0, fmt_Errorf "config value not found at path: " path EmptyString)
  | Some (VFloat64 val) => Returns (val, nil_error)
  | Some (VFloat32 val) => Returns (float64_of_float32 val, nil_error)
  | Some (VString val) =>
      match strconv_ParseFloat val 64 with
      | None => Returns (0, fmt_Errorf "cannot parse value: " path " to float64")
      | Some floatValue => Returns (floatValue, nil_error)
      end
  | Some _ => Returns (0, fmt_Errorf "cannot parse value: " path " to float64")
  end.

(** [(c *Config) GetBoolean(path)] *)
Definition GetBoolean (c : Config) (path : string) : outcome (bool * error) :=
  value ←! Get c path;;
  match value with
  | None =>
      Returns (false,
               fmt_Errorf "config value not found at path: " path EmptyString)
  | Some (VBoolean val) => Returns (val, nil_error)
  | Some (VString val) =>
      if bool_decide (val = "true" ∨ val = "yes" ∨ val = "on")
      then Returns (true, nil_error)
      else if bool_decide (val = "false" ∨ val = "no" ∨ val = "off")
      then Returns (false, nil_error)
      else Returns (false, fmt_Errorf "cannot parse value: " path " to boolean")
  | Some _ =>
      Returns (false, fmt_Errorf "cannot parse value: " path " to boolean")
  end.

(** [(c *Config) GetDuration(path)] *)
Definition GetDuration (c : Config) (path : string) : outcome (Z * error) :=
  value ←! Get c path;;
  match value with
  | None =>
      Returns (0, fmt_Errorf "config value not found at path: " path EmptyString)
  | Some (VDuration dur) => Returns (dur, nil_error)
  | Some _ => Returns (0, fmt_Errorf "cannot parse value: " path " to Duration")
  end.

End Getters.

(** ** Copy and fallback merge on trees *)

(** [(o Object) copy()], by recursion on the receiver as a [Value]. *)
Fixpoint Object_copy (self : Value) : Object :=
  match self with
  | VObject o =>
      map_fold (λ (k : string) (v : option Value) (result : Object),
          match v with
          | Some (VObject _ as subObject) =>
              <[k := Some (VObject (Object_copy subObject))]> result
          | _ => <[k := v]> result
          end)
        ∅ o
  | _ => ∅
  end.

Definition copy (o : Object) : Object := Object_copy (VObject o).

(** Modelled from the spec: [mergeObjects(existing, new)] is called by
    [WithFallback] and defined in a file of the package that is not among
    the sources.  Section 4.3 of the spec: for every key of the override,
    if the base also has that key and both values are Objects, merge
    recursively; otherwise the override value replaces the base value; keys
    only in the base are kept.  The function returns the base as updated. *)
Fixpoint Object_merge (new : Value) (existing : Object) : Object :=
  match new with
  | VObject n =>
      map_fold (λ (key : string) (value : option Value) (existing : Object),
          match existing !! key, value with
          | Some (Some (VObject existingObj)), Some (VObject _ as newObj) =>
              <[key := Some (VObject (Object_merge newObj existingObj))]> existing
          | _, _ => <[key := value]> existing
          end)
        existing n
  | _ => existing
  end.

Definition mergeObjects (existing new : Object) : Object :=
  Object_merge (VObject new) existing.

(** [(c *Config) WithFallback(fallback)] on trees. *)
Definition WithFallback (c fallback : Config) : Config :=
  match root c with
  | VObject current =>
      match root fallback with
      | VObject fallbackObject =>
          let resultConfig := copy fallbackObject in
          let resultConfig := mergeObjects resultConfig current in
          ToConfig resultConfig
      | _ => c
      end
  | _ => c
  end.

(** ** Vocabulary of the statements *)

(** The fragments of a concatenation that are not nil, in order. *)
Definition present (c : concatenation) : list Value := omap id c.

(** Whether a byte occurs in a string. *)
Fixpoint has_byte (c : ascii) (s : string) : bool :=
  match s with
  | EmptyString => false
  | String a rest => if decide (a = c) then true else has_byte c rest
  end.

(** The number that the digits of [d] denote after the digits read so far,
    which denote [acc]. *)
Fixpoint decimal_value (d : Decimal.uint) (acc : Z) : Z :=
  match d with
  | Decimal.Nil => acc
  | Decimal.D0 l => decimal_value l (acc * 10 + 0)
  | Decimal.D1 l => decimal_value l (acc * 10 + 1)
  | Decimal.D2 l => decimal_value l (acc * 10 + 2)
  | Decimal.D3 l => decimal_value l (acc * 10 + 3)
  | Decimal.D4 l => decimal_value l (acc * 10 + 4)
  | Decimal.D5 l => decimal_value l (acc * 10 + 5)
  | Decimal.D6 l => decimal_value l (acc * 10 + 6)
  | Decimal.D7 l => decimal_value l (acc * 10 + 7)
  | Decimal.D8 l => decimal_value l (acc * 10 + 8)
  | Decimal.D9 l => decimal_value l (acc * 10 + 9)
  end.

(** A string with every occurrence of a byte removed. *)
Fixpoint remove_byte (c : ascii) (s : string) : string :=
  match s with
  | EmptyString => EmptyString
  | String a rest =>
      if decide (a = c) then remove_byte c rest else String a (remove_byte c rest)
  end.

(** The string of [n] copies of a byte. *)
Fixpoint repeat_byte (c : ascii) (n : nat) : string :=
  match n with
  | O => EmptyString
  | S n => String c (repeat_byte c n)
  end.

(** The first and the last byte of a string. *)
Definition first_byte (s : string) : option ascii :=
  match s with
  | EmptyString => None
  | String a _ => Some a
  end.

Fixpoint last_byte (s : string) : option ascii :=
  match s with
  | EmptyString => None
  | String a EmptyString => Some a
  | String _ rest => last_byte rest
  end.

(** The object reached from [o] by following [keys] through nested
    objects, if every key is bound to an object. *)
Fixpoint walk (keys : list string) (o : Object) : option Object :=
  match keys with
  | [] => Some o
  | key :: rest =>
      match o !! key with
      | Some (Some (VObject sub)) => walk rest sub
      | _ => None
      end
  end.

(** The number of nodes of a tree, the measure of the inductions on
    values and the fuel of the operations on a store. *)
Fixpoint Value_size (v : Value) : nat :=
  match v with
  | VvalueWithAlternative value _ => S (Value_size value)
  | VObject o =>
      S (map_fold (λ (_ : string) (x : option Value) (acc : nat),
           match x with
           | Some y => (Value_size y + acc)%nat
           | None => acc
           end) O o)
  | VArray a =>
      S (fold_right (λ (x : option Value) acc,
           match x with
           | Some y => (Value_size y + acc)%nat
           | None => acc
           end) O a)
  | Vconcatenation c =>
      S (fold_right (λ (x : option Value) acc,
           match x with
           | Some y => (Value_size y + acc)%nat
           | None => acc
           end) O c)
  | _ => 1%nat
  end.

(** Whether a value is an [Object], the test of [v.(Object)]. *)
Definition is_Object (v : Value) : bool :=
  match v with
  | VObject _ => true
  | _ => false
  end.

(** The segments of a path: all but the last, and the last. *)
Definition path_init (path : string) : list string :=
  removelast (strings_Split path dotToken).
Definition path_last (path : string) : string :=
  List.last (strings_Split path dotToken) EmptyString.

(** The error of every getter for an absent value. *)
Definition not_found (path : string) : error :=
  Some ("config value not found at path: " +:+ path).

(** A list of calls that returns the list of the results, or panics with
    the first panic. *)
Fixpoint outcome_mapM {A B} (f : A → outcome B) (l : list A)
    : outcome (list B) :=
  match l with
  | [] => Returns []
  | x :: l => y ←! f x;; ys ←! outcome_mapM f l;; Returns (y :: ys)
  end.

(** Whether rendering a value calls a method on a nil element of an Array:
    [Object.Json] and [concatenation.String] guard against nil, [Array.Json]
    does not, and [fmt] recovers what the value of a [valueWithAlternative]
    does. *)
Fixpoint hits_nil (v : Value) : bool :=
  match v with
  | VObject o =>
      map_fold (λ (_ : string) (x : option Value) (acc : bool),
          match x with
          | Some y => hits_nil y || acc
          | None => acc
          end) false o
  | VArray a =>
      existsb (λ x : option Value,
          match x with
          | Some y => hits_nil y
          | None => true
          end) a
  | Vconcatenation c =>
      existsb (λ x : option Value,
          match x with
          | Some y => hits_nil y
          | None => false
          end) c
  | _ => false
  end.

(** How deep the Objects and Arrays of a value are nested in its JSON
    text; a [valueWithAlternative] and a [concatenation] are written as
    strings. *)
Fixpoint Value_depth (v : Value) : nat :=
  match v with
  | VObject o =>
      S (map_fold (λ (_ : string) (x : option Value) (acc : nat),
           match x with
           | Some y => Nat.max (Value_depth y) acc
           | None => acc
           end) O o)
  | VArray a =>
      S (fold_right (λ (x : option Value) acc,
           match x with
           | Some y => Nat.max (Value_depth y) acc
           | None => acc
           end) O a)
  | _ => O
  end.

(** Whether the [Int] and [Duration] values that the JSON text of a value
    writes as numbers are integers of 64 bits, as Go's [int] and
    [time.Duration] are. *)
Definition is_int64 (i : Z) : bool := (int_min <=? i) && (i <=? int_max).

Fixpoint Value_int64 (v : Value) : bool :=
  match v with
  | VInt i => is_int64 i
  | VDuration d => is_int64 d
  | VObject o =>
      map_fold (λ (_ : string) (x : option Value) (acc : bool),
          match x with
          | Some y => Value_int64 y && acc
          | None => acc
          end) true o
  | VArray a =>
      forallb (λ x : option Value,
          match x with
          | Some y => Value_int64 y
          | None => true
          end) a
  | _ => true
  end.

Section RenderVocabulary.
Context `{!GoLib}.

(** The entries of an object in the order in which [Object_Json_with]
    visits them. *)
Definition range_order (o : Object) : list (string * option Value) :=
  rev (map_to_list o).

(** One rendered entry of an object: the encoded key, a colon, and the
    value's [Json()] or [null] for a nil value. *)
Definition Object_pair (kv : string * option Value) : outcome string :=
  match kv.2 with
  | Some v =>
      text ←! Value_Json v;;
      Returns (jsonMarshal kv.1 +:+ colonToken +:+ text)
  | None => Returns (jsonMarshal kv.1 +:+ colonToken +:+ null)
  end.

(** The loop of [Object.Json] when [range] visits the entries in the order
    of the list [l]: Go leaves the order of a map iteration open, and every
    enumeration of the entries is a possible run. *)
Definition Object_Json_visiting (l : list (string * option Value))
    : outcome string :=
  let itemsSize := Z.of_nat (length l) in
  loop ←! fold_left (λ (st : outcome (string * Z))
                       (kv : string * option Value),
        st ←! st;;
        let '(builder, i) := st in
        let builder := builder +:+ jsonMarshal kv.1 in
        let builder := builder +:+ colonToken in
        builder ←! match kv.2 with
                   | Some v => text ←! Value_Json v;; Returns (builder +:+ text)
                   | None => Returns (builder +:+ null)
                   end;;
        let builder := if i <? itemsSize then builder +:+ ", " else builder in
        Returns (builder, i + 1))
      l (Returns (objectStartToken, 1));;
  Returns (fst loop +:+ objectEndToken).

End RenderVocabulary.

(** ** A library instance for running the definitions

    Floats and durations do not occur in the examples that use this
    instance; the decoder is the identity on the texts it is given, and the
    encoder writes the short escapes of Go 1.22. *)

#[refine] Instance exampleLib : GoLib := {|
  strconv_FormatFloat := λ _ _, EmptyString;
  strconv_ParseFloat := λ _ _, None;
  float32_of_float64 := λ f, f;
  float64_of_float32 := λ f, f;
  time_Duration_String := λ _, EmptyString;
  fmt_recovered := λ _, "%!s(PANIC=String method: runtime error: invalid memory address or nil pointer dereference)";
  json_short_escapes := true;
  JsMap := string;
  json_decode := λ data, inl data;
  json_reject := λ _, "invalid";
  json_max_depth := 10000;
  jsonMarshal_map := λ js, js
|}.
Proof.
  - reflexivity.
  - by eexists.
  - intros. by eexists.
Defined.

(** The Config of TestGetInt. *)
Definition test_GetInt_config : Config :=
  mkConfig (VObject (list_to_map
    [("a", Some (VString "aa")); ("b", Some (VString "3"));
     ("c", Some (VInt 2)); ("d", Some (VArray [Some (VInt 5)]))])).


(** ** Objects as references: the store

    A Go map is a reference: two values can denote the same [Object], and a
    write through one is seen through the other.  [copy], [mergeObjects]
    and [WithFallback] allocate maps and write into them, so they are also
    modelled on a store of maps, in which an [Object] value is a location.
    Slices are never written by config.go and stay lists. *)

Definition loc : Type := positive.

Inductive HValue : Type :=
| HString (s : string)
| HvalueWithAlternative (value : HValue) (alternative : Substitution)
| HObject (l : loc)
| HArray (a : list (option HValue))
| HInt (i : Z)
| HFloat32 (f : float32)
| HFloat64 (f : float64)
| HBoolean (b : bool)
| HSubstitution (s : Substitution)
| HNull
| HDuration (d : Z)
| Hconcatenation (c : list (option HValue)).

(** The contents of a map, and the store of all maps. *)
Abbreviation cells := (gmap string (option HValue)).
Abbreviation store := (gmap loc (gmap string (option HValue))).

Record HConfig : Type := mkHConfig { hroot : HValue }.

(** Whether a value is an [Object], the test of [v.(Object)]. *)
Definition is_HObject (v : HValue) : bool :=
  match v with
  | HObject _ => true
  | _ => false
  end.

Module Store.

(** [Object{}]: the location of a new map. *)
Definition new_Object (σ : store) : loc := fresh (dom σ).

(** [object[key] = value] *)
Definition assign (σ : store) (object : loc) (key : string)
    (value : option HValue) : store :=
  alter (insert key value) object σ.

(** [(o Object) copy()].  The recursion follows the references of the
    store, so it is bounded by [fuel]; [None] stands for a run that needs
    more fuel or reads a location that holds no map. *)
Fixpoint copy (fuel : nat) (σ : store) (o : loc) : option (store * loc) :=
  match fuel with
  | O => None
  | S fuel =>
      match σ !! o with
      | None => None
      | Some entries =>
          let result := new_Object σ in
          let σ := <[result := ∅]> σ in
          let loop :=
            map_fold (λ (k : string) (v : option HValue) (st : option store),
                match st with
                | None => None
                | Some σ =>
                    match v with
                    | Some (HObject subObject) =>
                        match copy fuel σ subObject with
                        | Some (σ, subCopy) =>
                            Some (assign σ result k (Some (HObject subCopy)))
                        | None => None
                        end
                    | _ => Some (assign σ result k v)
                    end
                end)
              (Some σ) entries in
          match loop with
          | Some σ => Some (σ, result)
          | None => None
          end
      end
  end.

(** Modelled from the spec: [mergeObjects(existing, new)], see the
    definition on trees.  [WithFallback] calls it for its effect on
    [existing], so it writes into that map; the nested merge writes into the
    map that [existing] holds under the key. *)
Fixpoint mergeObjects (fuel : nat) (σ : store) (existing new : loc)
    : option store :=
  match fuel with
  | O => None
  | S fuel =>
      match σ !! new with
      | None => None
      | Some entries =>
          map_fold (λ (key : string) (value : option HValue) (st : option store),
              match st with
              | None => None
              | Some σ =>
                  match σ !! existing with
                  | None => None
                  | Some existingEntries =>
                      match existingEntries !! key, value with
                      | Some (Some (HObject existingObj)), Some (HObject newObj) =>
                          match mergeObjects fuel σ existingObj newObj with
                          | Some σ =>
                              Some (assign σ existing key (Some (HObject existingObj)))
                          | None => None
                          end
                      | _, _ => Some (assign σ existing key value)
                      end
                  end
              end)
            (Some σ) entries
      end
  end.

(** [(c *Config) WithFallback(fallback)] *)
Definition WithFallback (fuel : nat) (σ : store) (c fallback : HConfig)
    : option (store * HConfig) :=
  match hroot c with
  | HObject current =>
      match hroot fallback with
      | HObject fallbackObject =>
          match copy fuel σ fallbackObject with
          | Some (σ, resultConfig) =>
              match mergeObjects fuel σ resultConfig current with
              | Some σ => Some (σ, mkHConfig (HObject resultConfig))
              | None => None
              end
          | None => None
          end
      | _ => Some (σ, c)
      end
  | _ => Some (σ, c)
  end.

End Store.

(** *** Trees in the store *)

(** [repr S σ h v]: in the store [σ], reading maps at locations of [S]
    only, the value [h] denotes the tree [v]. *)
Inductive repr (S : gset loc) (σ : store) : HValue → Value → Prop :=
| repr_String s : repr S σ (HString s) (VString s)
| repr_valueWithAlternative h v alt :
    repr S σ h v →
    repr S σ (HvalueWithAlternative h alt) (VvalueWithAlternative v alt)
| repr_Object l (m : cells) (o : Object) :
    l ∈ S →
    σ !! l = Some m →
    (∀ k, option_Forall2 (option_Forall2 (repr S σ)) (m !! k) (o !! k)) →
    repr S σ (HObject l) (VObject o)
| repr_Array hs vs :
    Forall2 (option_Forall2 (repr S σ)) hs vs →
    repr S σ (HArray hs) (VArray vs)
| repr_Int i : repr S σ (HInt i) (VInt i)
| repr_Float32 f : repr S σ (HFloat32 f) (VFloat32 f)
| repr_Float64 f : repr S σ (HFloat64 f) (VFloat64 f)
| repr_Boolean b : repr S σ (HBoolean b) (VBoolean b)
| repr_Substitution s : repr S σ (HSubstitution s) (VSubstitution s)
| repr_Null : repr S σ HNull VNull
| repr_Duration d : repr S σ (HDuration d) (VDuration d)
| repr_concatenation hs vs :
    Forall2 (option_Forall2 (repr S σ)) hs vs →
    repr S σ (Hconcatenation hs) (Vconcatenation vs).

(** [owned_entries σ0 σ D m o]: the cells [m] denote the object [o], where
    every nested Object is a map of [σ] outside the store [σ0] that no other
    cell refers to, and every other value is one of [σ0]; [D] is the set of
    the locations of the nested maps. *)
Inductive owned_entries (σ0 σ : store) : gset loc → cells → Object → Prop :=
| owned_empty : owned_entries σ0 σ ∅ ∅ ∅
| owned_nil D m o k :
    owned_entries σ0 σ D m o →
    m !! k = None → o !! k = None →
    owned_entries σ0 σ D (<[k := None]> m) (<[k := None]> o)
| owned_shared D m o k h v :
    owned_entries σ0 σ D m o →
    m !! k = None → o !! k = None →
    is_HObject h = false →
    repr (dom σ0) σ0 h v →
    owned_entries σ0 σ D (<[k := Some h]> m) (<[k := Some v]> o)
| owned_child D1 D2 m o k l (m' : cells) (o' : Object) :
    owned_entries σ0 σ D1 m o →
    m !! k = None → o !! k = None →
    σ !! l = Some m' →
    l ∉ dom σ0 → l ∉ D2 →
    owned_entries σ0 σ D2 m' o' →
    D1 ## {[l]} ∪ D2 →
    owned_entries σ0 σ (D1 ∪ ({[l]} ∪ D2))
      (<[k := Some (HObject l)]> m) (<[k := Some (VObject o')]> o).

(** [owned σ0 σ D l o]: the map at [l] is such a map, and [D] holds [l] and
    the locations below it. *)
Definition owned (σ0 σ : store) (D : gset loc) (l : loc) (o : Object) : Prop :=
  ∃ (m : cells) (D' : gset loc),
    σ !! l = Some m ∧ (l ∉ dom σ0) ∧ (l ∉ D')
    ∧ owned_entries σ0 σ D' m o ∧ D = {[l]} ∪ D'.

(** The cells [m] denote the object [o], entry by entry. *)
Definition entries_rel (S : gset loc) (σ : store) (m : cells) (o : Object)
    : Prop :=
  ∀ k, option_Forall2 (option_Forall2 (repr S σ)) (m !! k) (o !! k).

(** One entry of a map of [owned_entries], with the locations it owns. *)
Inductive owned_entry (σ0 σ : store)
    : gset loc → option (option HValue) → option (option Value) → Prop :=
| entry_absent : owned_entry σ0 σ ∅ None None
| entry_nil : owned_entry σ0 σ ∅ (Some None) (Some None)
| entry_shared h v :
    is_HObject h = false → repr (dom σ0) σ0 h v →
    owned_entry σ0 σ ∅ (Some (Some h)) (Some (Some v))
| entry_child l o D :
    owned σ0 σ D l o →
    owned_entry σ0 σ D (Some (Some (HObject l))) (Some (Some (VObject o))).

(** What a run of [Store.copy] from the store [σ] gives for an object that
    denotes [o] in the part [σ0] of [σ]: a store that extends [σ] by the
    locations [D], and the location of an owned map that denotes [o]. *)
Definition copy_post (σ0 σ : store) (o : Object)
    (res : option (store * loc)) : Prop :=
  ∃ (σ' : store) (r : loc) (D : gset loc),
    res = Some (σ', r)
    ∧ owned σ0 σ' D r o
    ∧ D ## dom σ
    ∧ dom σ' = dom σ ∪ D
    ∧ (∀ l, l ∈ dom σ → σ' !! l = σ !! l).

(** What a run of [Store.mergeObjects] from [σ] gives for an owned map
    [existing] with the locations [D] that denotes [te] and a map of [σ0]
    that denotes [tn]: a store that differs from [σ] inside [D] only, in
    which [existing] denotes the merge of the two trees. *)
Definition merge_post (σ0 σ : store) (D : gset loc) (existing : loc)
    (te tn : Object) (res : option store) : Prop :=
  ∃ σ' : store,
    res = Some σ'
    ∧ (∀ l, l ∉ D → σ' !! l = σ !! l)
    ∧ dom σ' = dom σ
    ∧ repr (dom σ0 ∪ D) σ' (HObject existing) (VObject (mergeObjects te tn)).

(** The state of the loop of [Store.copy] after the entries [md]. *)
Definition copy_inv (σ0 σ : store) (r : loc) (o : Object) (md : cells)
    (st : option store) : Prop :=
  ∃ (σc : store) (D : gset loc) (mr : cells) (oc : Object),
    st = Some σc
    ∧ σc !! r = Some mr
    ∧ owned_entries σ0 σc D mr oc
    ∧ (r ∉ D)
    ∧ D ## dom σ
    ∧ dom σc = dom σ ∪ {[r]} ∪ D
    ∧ (∀ l, l ∈ dom σ → σc !! l = σ !! l)
    ∧ (∀ k, oc !! k = match md !! k with Some _ => o !! k | None => None end)
    ∧ (∀ k, md !! k = None → mr !! k = None).

(** The test of [mergeObjects]: the base has the key, and both values are
    Objects. *)
Definition both_Objects (existingValue : option (option HValue))
    (value : option HValue) : bool :=
  match existingValue, value with
  | Some (Some (HObject _)), Some (HObject _) => true
  | _, _ => false
  end.

(** The state of the loop of [Store.mergeObjects] after the entries [md] of
    the override: the entries of [existing] not visited yet are owned, the
    visited ones denote the merged values and read the locations [DP] and
    those of [σ0] only. *)
Definition merge_inv (σ0 σ : store) (D : gset loc) (existing : loc)
    (te tn : Object) (md : cells) (st : option store) : Prop :=
  ∃ (σc : store) (mc mU : cells) (oU : Object) (DU DP : gset loc),
    st = Some σc
    ∧ (∀ l, l ∉ D → σc !! l = σ !! l)
    ∧ dom σc = dom σ
    ∧ σc !! existing = Some mc
    ∧ owned_entries σ0 σc DU mU oU
    ∧ DU ## DP
    ∧ DU ∪ DP ⊆ D
    ∧ (existing ∉ DU ∪ DP)
    ∧ (∀ k, md !! k = None → mc !! k = mU !! k ∧ te !! k = oU !! k)
    ∧ (∀ k, is_Some (md !! k) →
         option_Forall2 (option_Forall2 (repr (dom σ0 ∪ DP) σc))
           (mc !! k) (mergeObjects te tn !! k)).

(** A store for the examples: the override at location 1 and the fallback
    at location 2, each with a nested Object. *)
Definition example_store : store :=
  <[1%positive := <["a" := Some (HString "aa")]>
                  (<["n" := Some (HObject 3%positive)]> ∅)]>
  (<[2%positive := <["a" := Some (HString "aaa")]>
                   (<["c" := Some (HString "cc")]>
                   (<["n" := Some (HObject 4%positive)]> ∅))]>
  (<[3%positive := <["x" := Some (HInt 1)]> ∅]>
  (<[4%positive := <["y" := Some (HInt 2)]> ∅]> ∅))).

Definition example_override : Object :=
  <["a" := Some (VString "aa")]>
  (<["n" := Some (VObject (<["x" := Some (VInt 1)]> ∅))]> ∅).

Definition example_fallback : Object :=
  <["a" := Some (VString "aaa")]>
  (<["c" := Some (VString "cc")]>
  (<["n" := Some (VObject (<["y" := Some (VInt 2)]> ∅))]> ∅)).

(** The state of the loop of [Store.copy] after the entries [md], seen from
    the map [r] under construction: the maps of [σ] are as they were, a
    value that is not an Object is stored as it is, and an Object is stored
    as a location that [σ] does not have. *)
Definition copy_share_inv (σ : store) (r : loc) (md : cells)
    (st : option store) : Prop :=
  ∃ (σc : store) (mr : cells),
    st = Some σc
    ∧ σc !! r = Some mr
    ∧ (∀ l, l ∈ dom σ → σc !! l = σ !! l)
    ∧ (∀ k, md !! k = None → mr !! k = None)
    ∧ (∀ k x, md !! k = Some x → from_option is_HObject false x = false →
              mr !! k = Some x)
    ∧ (∀ k sub, md !! k = Some (Some (HObject sub)) →
                ∃ sub', mr !! k = Some (Some (HObject sub'))
                        ∧ (sub' ∉ dom σ) ∧ sub' ≠ r).

(** * Facts

    ** Strings *)

Lemma string_app_nil_l (a : string) : EmptyString +:+ a = a.
Proof. reflexivity. Qed.

Lemma string_app_cons (x : ascii) (a b : string) :
  String x a +:+ b = String x (a +:+ b).
Proof. reflexivity. Qed.

Lemma string_app_assoc (a b c : string) : (a +:+ b) +:+ c = a +:+ (b +:+ c).
Proof.
  induction a as [|x a IH]; [done|].
  rewrite !string_app_cons. by rewrite IH.
Qed.

Lemma string_app_nil_r (a : string) : a +:+ EmptyString = a.
Proof.
  induction a as [|x a IH]; [done|].
  rewrite string_app_cons. by rewrite IH.
Qed.


Example Atoi_3 : strconv_Atoi "3" = Some 3.
Proof. reflexivity. Qed.
Example Atoi_aa : strconv_Atoi "aa" = None.
Proof. reflexivity. Qed.
Example Atoi_neg : strconv_Atoi "-007" = Some (-7).
Proof. reflexivity. Qed.
Example Atoi_range : strconv_Atoi "9223372036854775808" = None.
Proof. reflexivity. Qed.
Example Itoa_neg : strconv_Itoa (-120) = "-120".
Proof. reflexivity. Qed.
Example Split_ab : strings_Split "a.b" "." = ["a"; "b"].
Proof. reflexivity. Qed.
Example Split_empty : strings_Split EmptyString "." = [EmptyString].
Proof. reflexivity. Qed.

Example Trim_quotes :
  strings_Trim (quoteToken +:+ "a" +:+ quoteToken +:+ "b" +:+ quoteToken) dquote
  = "a" +:+ quoteToken +:+ "b".
Proof. reflexivity. Qed.


(** *** [strconv.Atoi] reads what [strconv.Itoa] writes *)

Lemma parse_digits_decimal (d : Decimal.uint) (acc : Z) :
  parse_digits (NilEmpty.string_of_uint d) acc = Some (decimal_value d acc).
Proof.
  revert acc. induction d as [|d IH|d IH|d IH|d IH|d IH|d IH|d IH|d IH|d IH|d IH];
    intros acc; [done|..];
    cbn [NilEmpty.string_of_uint parse_digits decimal_value];
    match goal with |- context [digit_val ?c] =>
      let v := eval vm_compute in (digit_val c) in
      change (digit_val c) with v
    end; apply IH.
Qed.

Lemma decimal_value_pos (d : Decimal.uint) (p : positive) :
  decimal_value d (Z.pos p) = Z.pos (Pos.of_uint_acc d p).
Proof.
  revert p. induction d; intros p; cbn [decimal_value Pos.of_uint_acc];
    [done|..];
    match goal with |- decimal_value _ ?a = Z.pos (Pos.of_uint_acc _ ?q) =>
      replace a with (Z.pos q) by lia end; auto.
Qed.

Lemma decimal_value_of_uint (d : Decimal.uint) :
  decimal_value d 0 = Z.of_uint d.
Proof.
  unfold Z.of_uint. induction d; cbn [decimal_value Pos.of_uint]; [done|..];
    try (rewrite Z.mul_0_l, Z.add_0_l; by rewrite decimal_value_pos).
  by rewrite Z.mul_0_l, Z.add_0_l, IHd.
Qed.

Lemma Atoi_unsigned (d : Decimal.uint) :
  int_min <= Z.of_uint d <= int_max →
  strconv_Atoi (NilZero.string_of_uint d) = Some (Z.of_uint d).
Proof.
  intros Hrange.
  assert (Hcheck : (int_min <=? Z.of_uint d) && (Z.of_uint d <=? int_max) = true).
  { apply andb_true_intro. split; apply Z.leb_le; lia. }
  pose proof (parse_digits_decimal d 0) as Hp.
  rewrite decimal_value_of_uint in Hp.
  destruct d; unfold strconv_Atoi; cbn in *;
    try (rewrite Hp); try (rewrite Hcheck); reflexivity.
Qed.

Lemma Atoi_negated (d : Decimal.uint) :
  int_min <= - Z.of_uint d <= int_max →
  strconv_Atoi (String "-" (NilZero.string_of_uint d)) = Some (- Z.of_uint d).
Proof.
  intros Hrange.
  assert (Hcheck : (int_min <=? - Z.of_uint d) && (- Z.of_uint d <=? int_max)
                   = true).
  { apply andb_true_intro. split; apply Z.leb_le; lia. }
  pose proof (parse_digits_decimal d 0) as Hp.
  rewrite decimal_value_of_uint in Hp.
  destruct d; unfold strconv_Atoi; cbn in *;
    try (rewrite Hp); try (rewrite Hcheck); reflexivity.
Qed.

(** Every [int] written by [strconv.Itoa] is read back by [strconv.Atoi]. *)
Lemma Atoi_Itoa (i : Z) :
  int_min <= i <= int_max → strconv_Atoi (strconv_Itoa i) = Some i.
Proof.
  intros Hrange. unfold strconv_Itoa.
  pose proof (DecimalZ.of_to i) as Hi.
  destruct (Z.to_int i) as [d|d]; cbn [Z.of_int] in Hi; subst i; cbn.
  - by apply Atoi_unsigned.
  - by apply Atoi_negated.
Qed.

(** ** The JSON string encoder and [strings.TrimSpace] *)

Lemma String_rev_app_spec (a b : string) :
  String.rev_app a b = String.rev a +:+ b.
Proof.
  revert b. induction a as [|x a IH]; intros b; [done|].
  unfold String.rev. cbn [String.rev_app]. rewrite IH, (IH (String x EmptyString)).
  by rewrite string_app_assoc.
Qed.

Lemma String_rev_cons (x : ascii) (a : string) :
  String.rev (String x a) = String.rev a +:+ String x EmptyString.
Proof. unfold String.rev at 1. cbn [String.rev_app]. apply String_rev_app_spec. Qed.

Lemma String_rev_snoc (x : ascii) (a : string) :
  String.rev (a +:+ String x EmptyString) = String x (String.rev a).
Proof.
  induction a as [|y a IH]; [done|].
  rewrite string_app_cons, !String_rev_cons, IH. by rewrite string_app_cons.
Qed.

Lemma String_rev_involutive (a : string) : String.rev (String.rev a) = a.
Proof.
  induction a as [|x a IH]; [done|].
  by rewrite String_rev_cons, String_rev_snoc, IH.
Qed.

(** [strings.TrimSpace] takes the line feed off a quoted text and leaves
    the rest, whatever stands between the quotes. *)
Lemma strings_TrimSpace_quoted (body : string) :
  strings_TrimSpace
    (quoteToken +:+ body +:+ quoteToken +:+ String "010"%char EmptyString)
  = quoteToken +:+ body +:+ quoteToken.
Proof.
  change (quoteToken +:+ body +:+ quoteToken +:+ String "010"%char EmptyString)
    with (String dquote
            (body +:+ String dquote (String "010"%char EmptyString))).
  change (quoteToken +:+ body +:+ quoteToken)
    with (String dquote (body +:+ String dquote EmptyString)).
  unfold strings_TrimSpace.
  change (trimSpaceLeft (String dquote ?r)) with (String dquote r).
  assert (Hrev : String.rev
            (String dquote (body +:+ String dquote (String "010"%char EmptyString)))
          = String "010"%char (String dquote (String.rev (String dquote body)))).
  { change (String dquote (String "010"%char EmptyString))
      with (String dquote EmptyString +:+ String "010"%char EmptyString).
    rewrite <- string_app_assoc, <- string_app_cons.
    rewrite String_rev_snoc. f_equal.
    rewrite <- string_app_cons. by rewrite String_rev_snoc. }
  rewrite Hrev.
  change (trimSpaceLeft_reversed (String "010"%char (String dquote ?r)))
    with (String dquote r).
  by rewrite String_rev_cons, String_rev_involutive, string_app_cons.
Qed.

Lemma json_safe_byte (c : ascii) :
  json_safe c = true →
  (byte_val c <? 128) = true ∧ c ≠ backslash ∧ c ≠ dquote
  ∧ (32 <=? byte_val c) = true.
Proof.
  unfold json_safe, byte_in. intros Hs.
  repeat (apply andb_prop in Hs as [Hs ?]).
  repeat case_bool_decide; try done. repeat split; try done; lia.
Qed.

Lemma json_string_body_byte (c : ascii) (r : string) :
  c ≠ backslash → c ≠ dquote → (32 <=? byte_val c) = true →
  json_string_body (String c r) = json_string_body r.
Proof.
  intros Hb Hq Hc. cbn [json_string_body].
  destruct (decide (c = backslash)); [done|].
  rewrite Hc. by rewrite bool_decide_eq_false_2.
Qed.

Lemma json_string_body_high (c : ascii) (r : string) :
  (byte_val c <? 128) = false →
  json_string_body (String c r) = json_string_body r.
Proof.
  intros Hc. apply json_string_body_byte.
  - intros ->. done.
  - intros ->. done.
  - lia.
Qed.

(** A text of safe bytes is the body of a JSON string. *)
Lemma json_plain_body (s : string) :
  json_plain s = true → json_string_body s = true.
Proof.
  induction s as [|c s IH]; [done|]. cbn [json_plain].
  intros [Hc Hs]%andb_prop.
  apply json_safe_byte in Hc as (_ & Hb & Hq & Hlo).
  rewrite json_string_body_byte by done. by apply IH.
Qed.

Lemma byte_in_high (lo hi : Z) (c : ascii) :
  128 <= lo → byte_in lo hi c = true → (byte_val c <? 128) = false.
Proof. unfold byte_in. intros Hlo [H1 H2]%andb_prop. lia. Qed.

(** The bytes of a rune of more than one byte are all 128 or more. *)
Lemma utf8_DecodeRuneInString_wide (b0 : ascii) (r0 : string) (c : Z)
    (size : nat) :
  (byte_val b0 <? 128) = false →
  utf8_DecodeRuneInString (String b0 r0) = (c, size) →
  (c = utf8_RuneError ∧ size = 1%nat)
  ∨ (size = 2%nat
     ∧ ∃ b1 r1, r0 = String b1 r1 ∧ (byte_val b1 <? 128) = false)
  ∨ (size = 3%nat
     ∧ ∃ b1 b2 r2, r0 = String b1 (String b2 r2)
         ∧ (byte_val b1 <? 128) = false ∧ (byte_val b2 <? 128) = false)
  ∨ (size = 4%nat
     ∧ ∃ b1 b2 b3 r3, r0 = String b1 (String b2 (String b3 r3))
         ∧ (byte_val b1 <? 128) = false ∧ (byte_val b2 <? 128) = false
         ∧ (byte_val b3 <? 128) = false).
Proof.
  intros Hb. unfold utf8_DecodeRuneInString. rewrite Hb.
  repeat match goal with
         | |- context [if byte_in ?lo ?hi b0 then _ else _] =>
             destruct (byte_in lo hi b0)
         end;
    destruct r0 as [|b1 [|b2 [|b3 r3]]]; cbn beta iota;
    repeat match goal with
           | |- context [byte_in ?lo ?hi ?b] =>
               let H := fresh "Hin" in
               destruct (byte_in lo hi b) eqn:H;
               [apply byte_in_high in H; [|lia]|]
           end;
    cbn [andb]; intros [= <- <-]; eauto 12.
Qed.

Section JsonEncoder.
Context `{!GoLib}.

Lemma json_string_body_escape_byte (b : ascii) (r : string) :
  json_string_body (json_escape_byte b +:+ r) = json_string_body r.
Proof.
  unfold json_escape_byte. destruct json_short_escapes;
    destruct b as [[] [] [] [] [] [] [] []]; reflexivity.
Qed.

(** The encoder copies a text of safe bytes. *)
Lemma json_escape_plain (s : string) :
  json_plain s = true → json_escape s = s.
Proof.
  induction s as [|c s IH]; [done|]. cbn [json_plain json_escape].
  intros [Hc Hs]%andb_prop. rewrite Hc.
  apply json_safe_byte in Hc as (-> & _). by rewrite IH.
Qed.

Lemma json_escape_body_bounded (n : nat) (s : string) :
  (String.length s ≤ n)%nat → json_string_body (json_escape s) = true.
Proof.
  revert s. induction n as [|n IH]; intros [|b0 r0] Hlen; try done.
  { cbn in Hlen. lia. }
  cbn [String.length] in Hlen. cbn [json_escape].
  destruct (byte_val b0 <? 128) eqn:Hb.
  - destruct (json_safe b0) eqn:Hs.
    + apply json_safe_byte in Hs as (_ & Hbs & Hq & Hlo).
      rewrite json_string_body_byte by done. apply IH. lia.
    + rewrite json_string_body_escape_byte. apply IH. lia.
  - destruct (utf8_DecodeRuneInString (String b0 r0)) as [c size] eqn:Hdec.
    assert (Hbad : json_string_body (String backslash "ufffd" +:+ json_escape r0)
                   = true).
    { change (json_string_body (json_escape r0) = true). apply IH. lia. }
    destruct (utf8_DecodeRuneInString_wide b0 r0 c size Hb Hdec)
      as [[-> ->]|[(-> & b1 & r1 & -> & H1)
         |[(-> & b1 & b2 & r2 & -> & H1 & H2)
          |(-> & b1 & b2 & b3 & r3 & -> & H1 & H2 & H3)]]].
    + done.
    + rewrite andb_false_r. rewrite !json_string_body_high by done.
      apply IH. cbn [String.length] in Hlen. lia.
    + rewrite andb_false_r. case_bool_decide as Hc.
      * assert (Hhex : json_string_body
                  (String backslash "u202"
                     +:+ String (hex_digit (Z.land c 15)) (json_escape r2))
                = json_string_body (json_escape r2)).
        { by destruct Hc as [-> | ->]. }
        rewrite Hhex. apply IH. cbn [String.length] in Hlen. lia.
      * rewrite !json_string_body_high by done.
        apply IH. cbn [String.length] in Hlen. lia.
    + rewrite andb_false_r. rewrite !json_string_body_high by done.
      apply IH. cbn [String.length] in Hlen. lia.
Qed.

(** What the encoder writes between the quotes is the body of a JSON
    string. *)
Lemma json_escape_body (s : string) : json_string_body (json_escape s) = true.
Proof. by apply (json_escape_body_bounded (String.length s)). Qed.

(** [jsonMarshal] of a string is the encoded string between quotes. *)
Lemma jsonMarshal_quoted (v : string) :
  jsonMarshal v = quoteToken +:+ json_escape v +:+ quoteToken.
Proof. unfold jsonMarshal, json_Encode. apply strings_TrimSpace_quoted. Qed.

Lemma jsonMarshal_plain (v : string) :
  json_plain v = true → jsonMarshal v = quoteToken +:+ v +:+ quoteToken.
Proof. intros Hv. by rewrite jsonMarshal_quoted, json_escape_plain. Qed.

End JsonEncoder.

(** ** The cases of config_test.go that need no float, run on the model *)

Section RepositoryTests.
#[local] Existing Instance exampleLib.

(** TestObject_String *)
Example test_Object_String_empty : Value_String (VObject ∅) = Returns "{}".
Proof. vm_compute. reflexivity. Qed.

Example test_Object_String_empty_string :
  Value_String (VObject {[ "a" := Some (VString EmptyString) ]})
  = Returns ("{" +:+ quoteToken +:+ "a" +:+ quoteToken +:+ ":" +:+ quoteToken
                 +:+ quoteToken +:+ "}").
Proof. vm_compute. reflexivity. Qed.

Example test_Object_String_single :
  Value_String (VObject {[ "a" := Some (VInt 1) ]})
  = Returns ("{" +:+ quoteToken +:+ "a" +:+ quoteToken +:+ ":1}").
Proof. vm_compute. reflexivity. Qed.

Example test_Object_String_multiple :
  let got := Value_String (VObject (<[ "a" := Some (VInt 1) ]>
                                     {[ "b" := Some (VInt 2) ]})) in
  got = Returns ("{" +:+ quoteToken +:+ "a" +:+ quoteToken +:+ ":1, "
                     +:+ quoteToken +:+ "b" +:+ quoteToken +:+ ":2}")
  ∨ got = Returns ("{" +:+ quoteToken +:+ "b" +:+ quoteToken +:+ ":2, "
                       +:+ quoteToken +:+ "a" +:+ quoteToken +:+ ":1}").
Proof. vm_compute. auto. Qed.

Example test_Object_String_forbidden :
  Value_String (VObject {[ "a" :=
      Some (VString ("!@#$%^&*()_+{}[];:',./<>?" +:+ quoteToken +:+ backslashToken)) ]})
  = Returns ("{" +:+ quoteToken +:+ "a" +:+ quoteToken +:+ ":" +:+ quoteToken
                 +:+ "!@#$%^&*()_+{}[];:',./<>?"
                 +:+ backslashToken +:+ quoteToken +:+ backslashToken
                 +:+ backslashToken +:+ quoteToken +:+ "}").
Proof. vm_compute. reflexivity. Qed.

(** TestArray_String *)
Example test_Array_String_empty : Value_String (VArray []) = Returns "[]".
Proof. vm_compute. reflexivity. Qed.

Example test_Array_String_single :
  Value_String (VArray [Some (VInt 1)]) = Returns "[1]".
Proof. vm_compute. reflexivity. Qed.

Example test_Array_String_multiple :
  Value_String (VArray [Some (VInt 1); Some (VInt 2)]) = Returns "[1,2]".
Proof. vm_compute. reflexivity. Qed.

Example test_Array_String_strings :
  Value_String
    (VArray [Some (VString "!@#$%^&*()_+");
             Some (VString ("{}[]|;':" +:+ quoteToken +:+ ",./<>?"
                                       +:+ backslashToken))])
  = Returns ("[" +:+ quoteToken +:+ "!@#$%^&*()_+" +:+ quoteToken +:+ ","
                 +:+ quoteToken +:+ "{}[]|;':" +:+ backslashToken
                 +:+ quoteToken +:+ ",./<>?" +:+ backslashToken
                 +:+ backslashToken +:+ quoteToken +:+ "]").
Proof. vm_compute. reflexivity. Qed.

(** TestFind *)
Example test_find_missing :
  find {[ "a" := Some (VInt 1) ]} "b" = Returns None.
Proof. vm_compute. reflexivity. Qed.

Example test_find_plain :
  find {[ "a" := Some (VInt 1) ]} "a" = Returns (Some (VInt 1)).
Proof. vm_compute. reflexivity. Qed.

Example test_find_missing_sub_path :
  find {[ "a" := Some (VObject {[ "b" := Some (VInt 1) ]}) ]} "c.b"
  = Returns None.
Proof. vm_compute. reflexivity. Qed.

Example test_find_dotted :
  find {[ "a" := Some (VObject {[ "b" := Some (VInt 1) ]}) ]} "a.b"
  = Returns (Some (VInt 1)).
Proof. vm_compute. reflexivity. Qed.

(** TestGet *)
Example test_Get_non_object_root :
  Get (mkConfig (VArray [Some (VInt 1)])) "a" = Returns None.
Proof. vm_compute. reflexivity. Qed.

(** TestGetInt *)
Example test_GetInt :
  GetInt test_GetInt_config "c" = Returns (2, None)
  ∧ GetInt test_GetInt_config "e"
    = Returns (0, Some "config value not found at path: e")
  ∧ GetInt test_GetInt_config "b" = Returns (3, None)
  ∧ GetInt test_GetInt_config "a" = Returns (0, Some "cannot parse value: a to int")
  ∧ GetInt test_GetInt_config "d" = Returns (0, Some "cannot parse value: d to int").
Proof. vm_compute. repeat split; reflexivity. Qed.

(** TestWithFallback *)
Example test_WithFallback_merge :
  WithFallback
    (mkConfig (VObject (list_to_map
       [("a", Some (VString "aa")); ("b", Some (VString "bb"))])))
    (mkConfig (VObject (list_to_map
       [("a", Some (VString "aaa")); ("c", Some (VString "cc"))])))
  = mkConfig (VObject (list_to_map
       [("a", Some (VString "aa")); ("b", Some (VString "bb"));
        ("c", Some (VString "cc"))])).
Proof. vm_compute. reflexivity. Qed.

(** TestSubstitution_String, TestValueWithAlternative_String *)
Example test_Substitution_String :
  Substitution_String (mkSubstitution "a" false) = "${a}"
  ∧ Substitution_String (mkSubstitution "a" true) = "${?a}".
Proof. split; reflexivity. Qed.

Example test_valueWithAlternative_String :
  Value_String (VvalueWithAlternative (VString "value") (mkSubstitution "a" false))
  = Returns "(value | ${a})".
Proof. vm_compute. reflexivity. Qed.

(** TestContainsObject *)
Example test_containsObject :
  containsObject [Some (VString "a"); Some (VString "b")] = false
  ∧ containsObject [Some (VObject {[ "a" := Some (VString "aa") ]});
                    Some (VString "b")] = true.
Proof. split; reflexivity. Qed.

End RepositoryTests.

(** ** Induction on values *)

Lemma Value_size_lookup (o : Object) (k : string) (v : Value) :
  o !! k = Some (Some v) → (Value_size v < Value_size (VObject o))%nat.
Proof.
  intros Hk. cbn [Value_size]. rewrite map_fold_foldr.
  apply elem_of_map_to_list in Hk. revert Hk.
  generalize (map_to_list o). intros l.
  induction l as [|[k' x] l IH]; intros Hin.
  { by apply elem_of_nil in Hin. }
  apply elem_of_cons in Hin as [Heq|Hin].
  - inversion Heq; subst. cbn. lia.
  - specialize (IH Hin). cbn in *. destruct x; lia.
Qed.

Lemma Value_size_Array (a : Array) (v : Value) :
  Some v ∈ a → (Value_size v < Value_size (VArray a))%nat.
Proof.
  intros Hin. cbn [Value_size].
  induction a as [|y a IH]; [by apply elem_of_nil in Hin|].
  apply elem_of_cons in Hin as [<-|Hin]; cbn; [lia|].
  specialize (IH Hin). destruct y; lia.
Qed.

Lemma Value_size_concatenation (c : concatenation) (v : Value) :
  Some v ∈ c → (Value_size v < Value_size (Vconcatenation c))%nat.
Proof.
  intros Hin. cbn [Value_size].
  induction c as [|y c IH]; [by apply elem_of_nil in Hin|].
  apply elem_of_cons in Hin as [<-|Hin]; cbn; [lia|].
  specialize (IH Hin). destruct y; lia.
Qed.

(** Induction on a value with the hypothesis for every value it holds. *)
Lemma Value_induction (P : Value → Prop) :
  (∀ s, P (VString s)) →
  (∀ value alternative, P value → P (VvalueWithAlternative value alternative)) →
  (∀ o : Object, (∀ k v, o !! k = Some (Some v) → P v) → P (VObject o)) →
  (∀ a : Array, (∀ v, Some v ∈ a → P v) → P (VArray a)) →
  (∀ i, P (VInt i)) →
  (∀ f, P (VFloat32 f)) →
  (∀ f, P (VFloat64 f)) →
  (∀ b, P (VBoolean b)) →
  (∀ s, P (VSubstitution s)) →
  P VNull →
  (∀ d, P (VDuration d)) →
  (∀ c : concatenation, (∀ v, Some v ∈ c → P v) → P (Vconcatenation c)) →
  ∀ v, P v.
Proof.
  intros HS HA HO HAr HI HF32 HF64 HB HSub HN HD HC v.
  remember (Value_size v) as n eqn:Hn.
  revert v Hn. induction n as [n IH] using lt_wf_ind. intros v ->.
  destruct v; auto.
  - apply HA. eapply IH; [|reflexivity]. cbn. lia.
  - apply HO. intros k v Hk. eapply IH; [|reflexivity].
    by eapply Value_size_lookup.
  - apply HAr. intros v Hv. eapply IH; [|reflexivity].
    by apply Value_size_Array.
  - apply HC. intros v Hv. eapply IH; [|reflexivity].
    by apply Value_size_concatenation.
Qed.


(** ** What the values of a tree say about the tree *)

Lemma hits_nil_Object (o : Object) :
  hits_nil (VObject o) = true
  ↔ ∃ k v, o !! k = Some (Some v) ∧ hits_nil v = true.
Proof.
  cbn [hits_nil].
  apply (map_fold_weak_ind (λ r (m : Object),
    r = true ↔ ∃ k v, m !! k = Some (Some v) ∧ hits_nil v = true)).
  - split; [done|]. by intros (k & v & Hk & _).
  - intros i x m r Hi IH. split.
    + destruct x as [y|].
      * intros [Hy|Hr]%orb_prop.
        -- exists i, y. by rewrite lookup_insert_eq.
        -- apply IH in Hr as (k & v & Hk & Hv). exists k, v.
           rewrite lookup_insert_ne; [done|]. intros ->. by rewrite Hi in Hk.
      * intros Hr. apply IH in Hr as (k & v & Hk & Hv). exists k, v.
        rewrite lookup_insert_ne; [done|]. intros ->. by rewrite Hi in Hk.
    + intros (k & v & Hk & Hv). destruct (decide (i = k)) as [->|Hne].
      * rewrite lookup_insert_eq in Hk. injection Hk as ->.
        by rewrite Hv.
      * rewrite lookup_insert_ne in Hk by done.
        assert (Hr : r = true) by (apply IH; eauto).
        rewrite Hr. destruct x; [apply orb_true_r|done].
Qed.

Lemma hits_nil_Array (a : Array) :
  hits_nil (VArray a) = true
  ↔ None ∈ a ∨ ∃ v, Some v ∈ a ∧ hits_nil v = true.
Proof.
  cbn [hits_nil]. rewrite existsb_exists. split.
  - intros ([v|] & Hin%list_elem_of_In & Hx); [right; eauto|by left].
  - intros [Hin|(v & Hin & Hv)].
    + exists None. by rewrite <- list_elem_of_In.
    + exists (Some v). by rewrite <- list_elem_of_In.
Qed.

Lemma hits_nil_concatenation (c : concatenation) :
  hits_nil (Vconcatenation c) = true
  ↔ ∃ v, Some v ∈ c ∧ hits_nil v = true.
Proof.
  cbn [hits_nil]. rewrite existsb_exists. split.
  - intros ([v|] & Hin%list_elem_of_In & Hx); [eauto|done].
  - intros (v & Hin & Hv). exists (Some v). by rewrite <- list_elem_of_In.
Qed.

Lemma Value_int64_Object (o : Object) :
  Value_int64 (VObject o) = true
  ↔ ∀ k v, o !! k = Some (Some v) → Value_int64 v = true.
Proof.
  cbn [Value_int64].
  apply (map_fold_weak_ind (λ r (m : Object),
    r = true ↔ ∀ k v, m !! k = Some (Some v) → Value_int64 v = true)).
  - split; [|done]. intros _ k v Hk. by rewrite lookup_empty in Hk.
  - intros i x m r Hi IH. split.
    + intros Hr k v Hk. destruct (decide (i = k)) as [->|Hne].
      * rewrite lookup_insert_eq in Hk. injection Hk as ->.
        by apply andb_prop in Hr as [? _].
      * rewrite lookup_insert_ne in Hk by done.
        assert (Hr' : r = true).
        { destruct x; [by apply andb_prop in Hr as [_ ?]|done]. }
        by apply (proj1 IH Hr' k).
    + intros Hall.
      assert (Hr : r = true).
      { apply IH. intros k v Hk. apply (Hall k).
        rewrite lookup_insert_ne; [done|]. intros ->. by rewrite Hi in Hk. }
      rewrite Hr. destruct x as [y|]; [|done].
      rewrite (Hall i y); [done|]. by rewrite lookup_insert_eq.
Qed.

Lemma Value_int64_Array (a : Array) :
  Value_int64 (VArray a) = true
  ↔ ∀ v, Some v ∈ a → Value_int64 v = true.
Proof.
  cbn [Value_int64]. rewrite forallb_forall. split.
  - intros Hall v Hin. apply list_elem_of_In in Hin. by apply (Hall (Some v)).
  - intros Hall [v|] Hin; [|done]. apply Hall. by apply list_elem_of_In.
Qed.

Lemma Value_depth_Object (o : Object) (k : string) (v : Value) :
  o !! k = Some (Some v) → (Value_depth v < Value_depth (VObject o))%nat.
Proof.
  intros Hk. cbn [Value_depth]. rewrite map_fold_foldr.
  apply elem_of_map_to_list in Hk. revert Hk.
  generalize (map_to_list o). intros l.
  induction l as [|[k' x] l IH]; intros Hin.
  { by apply elem_of_nil in Hin. }
  apply elem_of_cons in Hin as [Heq|Hin].
  - inversion Heq; subst. cbn. lia.
  - specialize (IH Hin). cbn in *. destruct x; lia.
Qed.

Lemma Value_depth_Array (a : Array) (v : Value) :
  Some v ∈ a → (Value_depth v < Value_depth (VArray a))%nat.
Proof.
  intros Hin. cbn [Value_depth].
  induction a as [|y a IH]; [by apply elem_of_nil in Hin|].
  apply elem_of_cons in Hin as [<-|Hin]; cbn; [lia|].
  specialize (IH Hin). destruct y; lia.
Qed.

(** ** Rendering lemmas *)

Lemma fold_left_pointwise {A B : Type} (f g : A → B → A) (l : list B) (a : A) :
  (∀ a b, f a b = g a b) → fold_left f l a = fold_left g l a.
Proof.
  intros Hfg. revert a. induction l as [|b l IH]; intros a; [done|].
  cbn [fold_left]. by rewrite Hfg, IH.
Qed.

(** A loop whose body passes a panic on ends with the panic it starts
    with. *)
Lemma fold_left_Panics {A B : Type} (f : outcome A → B → outcome A)
    (l : list B) (p : panic) :
  (∀ b, f (Panics p) b = Panics p) → fold_left f l (Panics p) = Panics p.
Proof.
  intros Hf. induction l as [|b l IH]; [done|].
  cbn [fold_left]. by rewrite Hf.
Qed.

Lemma concat_cons_cons (sep x y : string) (l : list string) :
  String.concat sep (x :: y :: l) = x +:+ sep +:+ String.concat sep (y :: l).
Proof. reflexivity. Qed.

Lemma outcome_mapM_Returns {A B} (f : A → outcome B) (l : list A)
    (ys : list B) :
  outcome_mapM f l = Returns ys ↔ Forall2 (λ x y, f x = Returns y) l ys.
Proof.
  revert ys. induction l as [|x l IH]; intros ys; cbn [outcome_mapM].
  - split.
    + intros [= <-]. constructor.
    + intros Hf. by inversion Hf.
  - split.
    + destruct (f x) as [y|p] eqn:Hx; cbn [obind]; [|done].
      destruct (outcome_mapM f l) as [ys'|p] eqn:Hl; cbn [obind]; [|done].
      intros [= <-]. constructor; [done|]. by apply IH.
    + intros Hf. inversion Hf as [|x' y l' ys' Hx Hl]; subst.
      rewrite Hx. cbn [obind]. apply IH in Hl. by rewrite Hl.
Qed.

Lemma outcome_mapM_Panics {A B} (f : A → outcome B) (l : list A) (p : panic) :
  outcome_mapM f l = Panics p → ∃ x, x ∈ l ∧ f x = Panics p.
Proof.
  induction l as [|x l IH]; cbn [outcome_mapM]; [done|].
  destruct (f x) as [y|p'] eqn:Hx; cbn [obind].
  - destruct (outcome_mapM f l) as [ys'|p'] eqn:Hl; cbn [obind]; [done|].
    intros [= ->]. destruct (IH eq_refl) as (x' & Hin & Hx').
    exists x'. split; [by right|done].
  - intros [= ->]. exists x. split; [by left|done].
Qed.

Lemma outcome_mapM_length {A B} (f : A → outcome B) (l : list A)
    (ys : list B) :
  outcome_mapM f l = Returns ys → length ys = length l.
Proof.
  intros Hl. apply outcome_mapM_Returns in Hl.
  symmetry. by eapply Forall2_length.
Qed.

Section RenderFacts.
Context `{!GoLib}.

Lemma Value_Json_Object (o : Object) :
  Value_Json (VObject o) = Object_Json_with Value_Json o.
Proof. reflexivity. Qed.

Lemma Value_String_Object (o : Object) :
  Value_String (VObject o) = Object_Json_with Value_Json o.
Proof. reflexivity. Qed.

Lemma Value_Json_Array (a : Array) :
  Value_Json (VArray a) = Array_Json_with Value_Json a.
Proof. reflexivity. Qed.

Lemma Value_String_Array (a : Array) :
  Value_String (VArray a) = Array_Json_with Value_Json a.
Proof. reflexivity. Qed.

Lemma Value_String_concatenation (c : concatenation) :
  Value_String (Vconcatenation c) = concatenation_String_with Value_String c.
Proof. reflexivity. Qed.

Lemma Value_Json_concatenation (c : concatenation) :
  Value_Json (Vconcatenation c)
  = (text ←! concatenation_String_with Value_String c;;
     Returns (jsonMarshal text)).
Proof. reflexivity. Qed.

(** The loop of [Object.Json] over a list of entries: when [i] counts the
    entries visited so far plus one and [n] is the number of entries, the
    builder grows by the entries joined with a comma and a space; the loop
    panics when the [Json()] of a value does. *)
Lemma Object_Json_loop (n : Z) (l : list (string * option Value))
    (builder : string) (i : Z) :
  i + Z.of_nat (length l) = n + 1 →
  fold_left (λ (st : outcome (string * Z)) (kv : string * option Value),
      st ←! st;;
      let '(builder, i) := st in
      let builder := builder +:+ jsonMarshal kv.1 in
      let builder := builder +:+ colonToken in
      builder ←! match kv.2 with
                 | Some v => text ←! Value_Json v;; Returns (builder +:+ text)
                 | None => Returns (builder +:+ null)
                 end;;
      let builder := if i <? n then builder +:+ ", " else builder in
      Returns (builder, i + 1)) l (Returns (builder, i))
  = (pairs ←! outcome_mapM Object_pair l;;
     Returns (builder +:+ String.concat ", " pairs, n + 1)).
Proof.
  revert builder i.
  set (body := λ (st : outcome (string * Z)) (kv : string * option Value), _).
  assert (Hbody : ∀ builder i kv,
    body (Returns (builder, i)) kv
    = (pair ←! Object_pair kv;;
       Returns (if i <? n then builder +:+ pair +:+ ", " else builder +:+ pair,
                i + 1))).
  { intros builder i [k v]. unfold body, Object_pair. cbn [obind fst snd].
    destruct v as [v|]; [destruct (Value_Json v) as [text|p]|];
      cbn [obind]; try done;
      destruct (i <? n); by rewrite !string_app_assoc. }
  assert (Hpanic : ∀ p kv, body (Panics p) kv = Panics p) by done.
  clearbody body.
  induction l as [|kv l IH]; intros builder i Hlen.
  { cbn in *. rewrite string_app_nil_r. do 2 f_equal. lia. }
  cbn [fold_left outcome_mapM]. cbn [length] in Hlen. rewrite Hbody.
  destruct (Object_pair kv) as [pair|p]; cbn [obind];
    [|by apply fold_left_Panics].
  destruct l as [|kv' l].
  - cbn [fold_left outcome_mapM obind String.concat length] in *.
    assert (Hi : (i <? n) = false) by lia. rewrite Hi.
    do 2 f_equal. lia.
  - assert (Hi : (i <? n) = true) by (cbn [length] in *; lia). rewrite Hi.
    rewrite IH by (cbn [length] in *; lia).
    destruct (outcome_mapM Object_pair (kv' :: l)) as [ys|p] eqn:Hys;
      cbn [obind]; [|done].
    destruct ys as [|y ys].
    { apply outcome_mapM_length in Hys. done. }
    rewrite concat_cons_cons. by rewrite !string_app_assoc.
Qed.

Lemma Object_Json_join (o : Object) :
  Value_Json (VObject o)
  = (pairs ←! outcome_mapM Object_pair (range_order o);;
     Returns (objectStartToken +:+ String.concat ", " pairs
                +:+ objectEndToken)).
Proof.
  rewrite Value_Json_Object. unfold Object_Json_with.
  rewrite map_fold_foldr.
  rewrite <- (rev_involutive (map_to_list o)) at 1.
  rewrite fold_left_rev_right. fold (range_order o).
  rewrite (fold_left_pointwise _
    (λ (st : outcome (string * Z)) (kv : string * option Value),
      st ←! st;;
      let '(builder, i) := st in
      let builder := builder +:+ jsonMarshal kv.1 in
      let builder := builder +:+ colonToken in
      builder ←! match kv.2 with
                 | Some v => text ←! Value_Json v;; Returns (builder +:+ text)
                 | None => Returns (builder +:+ null)
                 end;;
      let builder := if i <? Z.of_nat (size o) then builder +:+ ", "
                     else builder in
      Returns (builder, i + 1))).
  2: { by intros [[b i]|p] [k v]. }
  rewrite (Object_Json_loop (Z.of_nat (size o))).
  - destruct (outcome_mapM Object_pair (range_order o)); cbn [obind fst];
      [by rewrite string_app_assoc|done].
  - unfold range_order. rewrite length_rev, length_map_to_list. lia.
Qed.

(** Whatever the order of the visit, the loop joins the rendered entries. *)
Lemma Object_Json_visiting_join (l : list (string * option Value)) :
  Object_Json_visiting l
  = (pairs ←! outcome_mapM Object_pair l;;
     Returns (objectStartToken +:+ String.concat ", " pairs
                +:+ objectEndToken)).
Proof.
  unfold Object_Json_visiting.
  rewrite (Object_Json_loop (Z.of_nat (length l))) by lia.
  destruct (outcome_mapM Object_pair l); cbn [obind fst];
    [by rewrite string_app_assoc|done].
Qed.

(** The model's [Object.Json] is the run that visits [range_order]. *)
Lemma Object_Json_range_order (o : Object) :
  Value_Json (VObject o) = Object_Json_visiting (range_order o).
Proof. by rewrite Object_Json_join, Object_Json_visiting_join. Qed.

Lemma concat_comma_cons (x : string) (l : list string) :
  String.concat commaToken (x :: l)
  = x +:+ String.concat EmptyString (map (λ y, commaToken +:+ y) l).
Proof.
  revert x. induction l as [|y l IH]; intros x.
  { simpl. by rewrite string_app_nil_r. }
  rewrite concat_cons_cons, IH. destruct l as [|z l].
  - simpl. by rewrite string_app_nil_r.
  - cbn [map]. by rewrite (concat_cons_cons EmptyString), string_app_nil_l.
Qed.

(** The loop of [Array.Json] over the elements after the first. *)
Lemma Array_Json_loop (rest : Array) (builder : string) :
  fold_left (λ (st : outcome string) (value : option Value),
      builder ←! st;;
      let builder := builder +:+ commaToken in
      text ←! method_call Value_Json value;;
      Returns (builder +:+ text)) rest (Returns builder)
  = (texts ←! outcome_mapM (method_call Value_Json) rest;;
     Returns (builder +:+
              String.concat EmptyString (map (λ t, commaToken +:+ t) texts))).
Proof.
  revert builder. induction rest as [|v rest IH]; intros builder.
  { cbn. by rewrite string_app_nil_r. }
  cbn [fold_left outcome_mapM obind].
  destruct (method_call Value_Json v) as [text|p]; cbn [obind].
  - rewrite IH.
    destruct (outcome_mapM (method_call Value_Json) rest) as [texts|p];
      cbn [obind]; [|done].
    f_equal. cbn [map]. destruct texts as [|t texts].
    + cbn [map String.concat]. by rewrite string_app_nil_r, string_app_assoc.
    + cbn [map]. rewrite concat_cons_cons.
      by rewrite string_app_nil_l, !string_app_assoc.
  - by apply fold_left_Panics.
Qed.

Lemma Array_Json_join (a : Array) :
  Value_Json (VArray a)
  = (texts ←! outcome_mapM (method_call Value_Json) a;;
     Returns (arrayStartToken +:+ String.concat commaToken texts
                +:+ arrayEndToken)).
Proof.
  rewrite Value_Json_Array. destruct a as [|a0 rest]; [done|].
  unfold Array_Json_with. cbn [outcome_mapM].
  destruct (method_call Value_Json a0) as [text|p]; cbn [obind]; [|done].
  rewrite Array_Json_loop.
  destruct (outcome_mapM (method_call Value_Json) rest) as [texts|p];
    cbn [obind]; [|done].
  rewrite concat_comma_cons. by rewrite !string_app_assoc.
Qed.

Lemma present_cons_Some (v : Value) (c : concatenation) :
  present (Some v :: c) = v :: present c.
Proof. reflexivity. Qed.

Lemma present_cons_None (c : concatenation) : present (None :: c) = present c.
Proof. reflexivity. Qed.

(** The loop of [concatenation.String]. *)
Lemma concatenation_String_loop (c : concatenation) (builder : string) :
  fold_left (λ (st : outcome string) (value : option Value),
      builder ←! st;;
      match value with
      | Some v =>
          text ←! Value_String v;;
          Returns (builder +:+ strings_Trim text dquote)
      | None => Returns builder
      end) c (Returns builder)
  = (texts ←! outcome_mapM Value_String (present c);;
     Returns (builder +:+
              String.concat EmptyString
                (map (λ text, strings_Trim text dquote) texts))).
Proof.
  revert builder. induction c as [|[v|] c IH]; intros builder.
  - cbn. by rewrite string_app_nil_r.
  - cbn [fold_left obind]. rewrite present_cons_Some. cbn [outcome_mapM].
    destruct (Value_String v) as [text|p]; cbn [obind].
    + rewrite IH.
      destruct (outcome_mapM Value_String (present c)) as [texts|p];
        cbn [obind]; [|done].
      f_equal. cbn [map]. destruct texts as [|w ws].
      * cbn [map String.concat]. by rewrite string_app_nil_r.
      * cbn [map]. rewrite (concat_cons_cons EmptyString).
        by rewrite string_app_nil_l, string_app_assoc.
    + by apply fold_left_Panics.
  - cbn [fold_left obind]. by rewrite IH, present_cons_None.
Qed.

Lemma concatenation_String_join (c : concatenation) :
  Value_String (Vconcatenation c)
  = (texts ←! outcome_mapM Value_String (present c);;
     Returns (String.concat EmptyString
                (map (λ text, strings_Trim text dquote) texts))).
Proof.
  rewrite Value_String_concatenation. unfold concatenation_String_with.
  rewrite concatenation_String_loop.
  by destruct (outcome_mapM Value_String (present c)).
Qed.

End RenderFacts.

(** ** When the renderers return, and what they write *)

Lemma outcome_mapM_all_return {A B} (f : A → outcome B) (l : list A) :
  (∀ x, x ∈ l → ∃ y, f x = Returns y) → ∃ ys, outcome_mapM f l = Returns ys.
Proof.
  induction l as [|x l IH]; intros Hall; [by eexists|].
  destruct (Hall x) as [y Hy]; [by left|].
  destruct IH as [ys Hys]; [intros x' Hx'; apply Hall; by right|].
  exists (y :: ys). cbn [outcome_mapM]. by rewrite Hy, Hys.
Qed.

Lemma outcome_mapM_one_panics {A B} (f : A → outcome B) (l : list A)
    (p0 : panic) (x0 : A) :
  (∀ x p, x ∈ l → f x = Panics p → p = p0) →
  x0 ∈ l → f x0 = Panics p0 →
  outcome_mapM f l = Panics p0.
Proof.
  intros Hall Hin Hx0.
  destruct (outcome_mapM f l) as [ys|p] eqn:Hl.
  - apply outcome_mapM_Returns in Hl.
    apply list_elem_of_lookup in Hin as [i Hi].
    destruct (Forall2_lookup_l _ _ _ _ _ Hl Hi) as (y & _ & Hy).
    by rewrite Hx0 in Hy.
  - apply outcome_mapM_Panics in Hl as (x & Hx & Hp).
    by rewrite (Hall x p Hx Hp).
Qed.

Lemma json_text_le (d d' : nat) (t : string) :
  (d ≤ d')%nat → json_text d t → json_text d' t.
Proof.
  intros Hle Ht. induction Hle as [|d' _ IH]; [done|].
  by apply json_text_deeper.
Qed.

Lemma is_int64_quot (d : Z) :
  is_int64 d = true → int_min <= Z.quot d 1000000 <= int_max.
Proof.
  unfold is_int64, int_min, int_max. intros [H1 H2]%andb_prop.
  Z.quot_rem_to_equations. lia.
Qed.

Lemma elem_of_present (c : concatenation) (v : Value) :
  v ∈ present c ↔ Some v ∈ c.
Proof.
  unfold present. rewrite list_elem_of_omap. split.
  - by intros ([w|] & Hin & [= ->]).
  - intros Hin. by exists (Some v).
Qed.

Lemma elem_of_range_order (o : Object) (k : string) (x : option Value) :
  (k, x) ∈ range_order o ↔ o !! k = Some x.
Proof.
  unfold range_order. rewrite list_elem_of_In, <- in_rev, <- list_elem_of_In.
  apply elem_of_map_to_list.
Qed.

Section RenderReturns.
Context `{!GoLib}.

(** The renderers return exactly when they call no method on a nil element
    of an Array, and panic with the nil dereference of the Go runtime
    otherwise. *)
Lemma Value_renders (v : Value) :
  if hits_nil v
  then Value_String v = Panics NilDereference
       ∧ Value_Json v = Panics NilDereference
  else (∃ text, Value_String v = Returns text)
       ∧ (∃ text, Value_Json v = Returns text).
Proof.
  induction v as [s|value alt IH|o IH|a IH|i|f|f|b|s| |d|c IH]
    using Value_induction; try (cbn; split; by eexists).
  - (* Object *)
    rewrite Value_String_Object, <- Value_Json_Object, Object_Json_join.
    assert (Hp : ∀ kv p, kv ∈ range_order o → Object_pair kv = Panics p →
                         p = NilDereference).
    { intros [k [v|]] p Hin; unfold Object_pair; cbn [fst snd obind]; [|done].
      apply elem_of_range_order in Hin. specialize (IH k v Hin).
      destruct (hits_nil v); [destruct IH as [_ ->]|destruct IH as [_ [t ->]]];
        cbn [obind]; congruence. }
    destruct (hits_nil (VObject o)) eqn:Hnil.
    + apply hits_nil_Object in Hnil as (k & v & Hk & Hv).
      assert (Hpanic : outcome_mapM Object_pair (range_order o)
                       = Panics NilDereference).
      { apply (outcome_mapM_one_panics _ _ _ (k, Some v)); [done| |].
        - by apply elem_of_range_order.
        - unfold Object_pair. cbn [fst snd]. specialize (IH k v Hk).
          rewrite Hv in IH. by destruct IH as [_ ->]. }
      by rewrite Hpanic.
    + destruct (outcome_mapM_all_return Object_pair (range_order o))
        as [pairs Hpairs].
      { intros [k [v|]] Hin; unfold Object_pair; cbn [fst snd];
          [|by eexists].
        apply elem_of_range_order in Hin. specialize (IH k v Hin).
        destruct (hits_nil v) eqn:Hv.
        - assert (Hc : hits_nil (VObject o) = true)
            by (apply hits_nil_Object; eauto). congruence.
        - destruct IH as [_ [t ->]]. by eexists. }
      rewrite Hpairs. split; by eexists.
  - (* Array *)
    rewrite Value_String_Array, <- Value_Json_Array, Array_Json_join.
    assert (Hp : ∀ x p, x ∈ a → method_call Value_Json x = Panics p →
                        p = NilDereference).
    { intros [v|] p Hin; cbn [method_call]; [|congruence].
      specialize (IH v Hin).
      destruct (hits_nil v); [destruct IH as [_ ->]|destruct IH as [_ [t ->]]];
        congruence. }
    destruct (hits_nil (VArray a)) eqn:Hnil.
    + assert (Hpanic : outcome_mapM (method_call Value_Json) a
                       = Panics NilDereference).
      { apply hits_nil_Array in Hnil as [Hin|(v & Hin & Hv)].
        - by apply (outcome_mapM_one_panics _ _ _ None).
        - apply (outcome_mapM_one_panics _ _ _ (Some v)); [done|done|].
          cbn [method_call]. specialize (IH v Hin). rewrite Hv in IH.
          by destruct IH as [_ ->]. }
      by rewrite Hpanic.
    + destruct (outcome_mapM_all_return (method_call Value_Json) a)
        as [texts Htexts].
      { intros [v|] Hin; cbn [method_call].
        - specialize (IH v Hin). destruct (hits_nil v) eqn:Hv.
          + assert (Hc : hits_nil (VArray a) = true)
              by (apply hits_nil_Array; eauto). congruence.
          + destruct IH as [_ [t ->]]. by eexists.
        - assert (Hc : hits_nil (VArray a) = true)
            by (apply hits_nil_Array; eauto). congruence. }
      rewrite Htexts. split; by eexists.
  - (* concatenation *)
    rewrite Value_Json_concatenation, <- Value_String_concatenation,
      concatenation_String_join.
    assert (Hp : ∀ x p, x ∈ present c → Value_String x = Panics p →
                        p = NilDereference).
    { intros v p Hin%elem_of_present. specialize (IH v Hin).
      destruct (hits_nil v); [destruct IH as [-> _]|destruct IH as [[t ->] _]];
        congruence. }
    destruct (hits_nil (Vconcatenation c)) eqn:Hnil.
    + apply hits_nil_concatenation in Hnil as (v & Hin & Hv).
      assert (Hpanic : outcome_mapM Value_String (present c)
                       = Panics NilDereference).
      { apply (outcome_mapM_one_panics _ _ _ v); [done| |].
        - by apply elem_of_present.
        - specialize (IH v Hin). rewrite Hv in IH. by destruct IH as [-> _]. }
      by rewrite Hpanic.
    + destruct (outcome_mapM_all_return Value_String (present c))
        as [texts Htexts].
      { intros v Hin%elem_of_present. specialize (IH v Hin).
        destruct (hits_nil v) eqn:Hv.
        - assert (Hc : hits_nil (Vconcatenation c) = true)
            by (apply hits_nil_concatenation; eauto). congruence.
        - destruct IH as [[t ->] _]. by eexists. }
      rewrite Htexts. split; by eexists.
Qed.

Lemma Value_String_returns (v : Value) :
  hits_nil v = false → ∃ text, Value_String v = Returns text.
Proof. intros Hv. pose proof (Value_renders v) as Hr. rewrite Hv in Hr. apply Hr. Qed.

Lemma Value_Json_returns (v : Value) :
  hits_nil v = false → ∃ text, Value_Json v = Returns text.
Proof. intros Hv. pose proof (Value_renders v) as Hr. rewrite Hv in Hr. apply Hr. Qed.

Lemma Value_String_panics (v : Value) :
  hits_nil v = true → Value_String v = Panics NilDereference.
Proof. intros Hv. pose proof (Value_renders v) as Hr. rewrite Hv in Hr. apply Hr. Qed.

Lemma Value_Json_panics (v : Value) :
  hits_nil v = true → Value_Json v = Panics NilDereference.
Proof. intros Hv. pose proof (Value_renders v) as Hr. rewrite Hv in Hr. apply Hr. Qed.

Lemma Value_String_panic_is_nil (v : Value) (p : panic) :
  Value_String v = Panics p → p = NilDereference ∧ hits_nil v = true.
Proof.
  intros Hp. pose proof (Value_renders v) as Hr.
  destruct (hits_nil v); [|destruct Hr as [[t Ht] _]; congruence].
  destruct Hr as [Hr _]. split; congruence.
Qed.

Lemma Value_Json_panic_is_nil (v : Value) (p : panic) :
  Value_Json v = Panics p → p = NilDereference ∧ hits_nil v = true.
Proof.
  intros Hp. pose proof (Value_renders v) as Hr.
  destruct (hits_nil v); [|destruct Hr as [_ [t Ht]]; congruence].
  destruct Hr as [_ Hr]. split; congruence.
Qed.

End RenderReturns.

(** ** The JSON text of a value is a JSON text *)

Section JsonTexts.
Context `{!GoLib}.

Lemma json_text_jsonMarshal (depth : nat) (v : string) :
  json_text depth (jsonMarshal v).
Proof.
  rewrite jsonMarshal_quoted. apply json_text_string, json_escape_body.
Qed.

(** The entries of an object text, from the rendered entries. *)
Lemma Object_pairs_members (depth : nat) (l : list (string * option Value))
    (pairs : list string) :
  (∀ k v text, (k, Some v) ∈ l → Value_Json v = Returns text →
               json_text depth text) →
  Forall2 (λ kv pair, Object_pair kv = Returns pair) l pairs →
  ∃ members : list (string * string),
    pairs = map (λ m, json_member m.1 m.2) members
    ∧ Forall (λ m, json_string_body m.1 = true ∧ json_text depth m.2) members.
Proof.
  intros Hval Hl. induction Hl as [|[k x] pair l pairs Hpair Hl IH].
  { by exists []. }
  destruct IH as (members & -> & Hmem).
  { intros k' v text Hin. apply (Hval k'). by right. }
  unfold Object_pair in Hpair. cbn [fst snd] in Hpair.
  rewrite jsonMarshal_quoted in Hpair. destruct x as [v|].
  - destruct (Value_Json v) as [text|] eqn:Hv; [|done].
    injection Hpair as <-. exists ((json_escape k, text) :: members). split.
    + cbn [map fst snd]. unfold json_member, colonToken.
      by rewrite !string_app_assoc.
    + constructor; [|done]. split; [apply json_escape_body|].
      apply (Hval k v); [by left|done].
  - injection Hpair as <-. exists ((json_escape k, null) :: members). split.
    + cbn [map fst snd]. unfold json_member, colonToken.
      by rewrite !string_app_assoc.
    + constructor; [|done]. split; [apply json_escape_body|].
      apply json_text_null.
Qed.

(** The JSON text of a value whose integers have 64 bits is a JSON text,
    nested as deep as the value is. *)
Lemma Value_Json_text (v : Value) (text : string) :
  Value_int64 v = true →
  Value_Json v = Returns text →
  json_text (Value_depth v) text.
Proof.
  revert text.
  induction v as [s|value alt IH|o IH|a IH|i|f|f|b|s| |d|c IH]
    using Value_induction; intros text Hint Hjson.
  - injection Hjson as <-. apply json_text_jsonMarshal.
  - injection Hjson as <-. apply json_text_jsonMarshal.
  - (* Object *)
    rewrite Object_Json_join in Hjson.
    destruct (outcome_mapM Object_pair (range_order o)) as [pairs|] eqn:Hpairs;
      [|done].
    injection Hjson as <-. apply outcome_mapM_Returns in Hpairs.
    destruct (Object_pairs_members (pred (Value_depth (VObject o)))
                (range_order o) pairs) as (members & -> & Hmem); [|done|].
    { intros k v text Hin%elem_of_range_order Hv.
      apply (json_text_le (Value_depth v)).
      - pose proof (Value_depth_Object o k v Hin). lia.
      - apply (IH k v Hin); [|done].
        by apply (proj1 (Value_int64_Object o) Hint k). }
    change (Value_depth (VObject o))
      with (S (pred (Value_depth (VObject o)))).
    by apply json_text_object.
  - (* Array *)
    rewrite Array_Json_join in Hjson.
    destruct (outcome_mapM (method_call Value_Json) a) as [texts|] eqn:Htexts;
      [|done].
    injection Hjson as <-. apply outcome_mapM_Returns in Htexts.
    change (Value_depth (VArray a)) with (S (pred (Value_depth (VArray a)))).
    apply json_text_array. apply Forall_forall. intros t Ht.
    apply list_elem_of_lookup in Ht as [j Hj].
    destruct (Forall2_lookup_r _ _ _ _ _ Htexts Hj) as ([v|] & Hx & Hv);
      [|done].
    apply list_elem_of_lookup_2 in Hx. cbn [method_call] in Hv.
    apply (json_text_le (Value_depth v)).
    + pose proof (Value_depth_Array a v Hx). lia.
    + apply (IH v Hx); [|done]. by apply (proj1 (Value_int64_Array a) Hint).
  - injection Hjson as <-. apply json_text_int.
    cbn [Value_int64] in Hint. unfold is_int64 in Hint.
    apply andb_prop in Hint as [? ?]. lia.
  - injection Hjson as <-. apply json_text_string, json_plain_body.
    apply strconv_FormatFloat_plain.
  - injection Hjson as <-. apply json_text_string, json_plain_body.
    apply strconv_FormatFloat_plain.
  - injection Hjson as <-. apply json_text_bool.
  - injection Hjson as <-. apply json_text_jsonMarshal.
  - injection Hjson as <-. apply json_text_null.
  - injection Hjson as <-. apply json_text_int. by apply is_int64_quot.
  - rewrite Value_Json_concatenation in Hjson.
    destruct (concatenation_String_with Value_String c); [|done].
    injection Hjson as <-. apply json_text_jsonMarshal.
Qed.

(** The JSON text of an Object is an object text. *)
Lemma Object_Json_members (o : Object) (text : string) :
  Value_int64 (VObject o) = true →
  Value_Json (VObject o) = Returns text →
  ∃ members : list (string * string),
    text = "{" +:+ String.concat ", " (map (λ m, json_member m.1 m.2) members)
               +:+ "}"
    ∧ Forall (λ m, json_string_body m.1 = true
                   ∧ json_text (pred (Value_depth (VObject o))) m.2) members.
Proof.
  intros Hint Hjson. rewrite Object_Json_join in Hjson.
  destruct (outcome_mapM Object_pair (range_order o)) as [pairs|] eqn:Hpairs;
    [|done].
  injection Hjson as <-. apply outcome_mapM_Returns in Hpairs.
  destruct (Object_pairs_members (pred (Value_depth (VObject o)))
              (range_order o) pairs) as (members & -> & Hmem); [|done|].
  { intros k v text Hin%elem_of_range_order Hv.
    apply (json_text_le (Value_depth v)).
    - pose proof (Value_depth_Object o k v Hin). lia.
    - apply Value_Json_text; [|done].
      by apply (proj1 (Value_int64_Object o) Hint k). }
  by exists members.
Qed.

End JsonTexts.

(** ** Path lookup *)

Lemma Split_no_sep (s : string) (c : ascii) :
  has_byte c s = false → strings_Split s c = [s].
Proof.
  induction s as [|a s IH]; intros Hs; [done|].
  cbn [has_byte strings_Split] in *. destruct (decide (a = c)); [done|].
  by rewrite (IH Hs).
Qed.

Lemma find_unfold (o : Object) (path : string) :
  find o path = find_loop (path_init path) o (path_last path).
Proof. reflexivity. Qed.

(** A lookup that crosses objects only ends with the plain index of the
    last segment in the object it reached. *)
Lemma find_loop_walk (keys : list string) (o obj : Object) (lastKey : string) :
  walk keys o = Some obj →
  find_loop keys o lastKey = Returns (mjoin (obj !! lastKey)).
Proof.
  revert o. induction keys as [|key keys IH]; intros o Hwalk.
  { cbn in Hwalk. by simplify_eq. }
  cbn [walk find_loop] in *.
  destruct (o !! key) as [[[]|]|]; try done. by apply IH.
Qed.

(** A lookup that meets a key bound to something that is not an object,
    before the last segment, panics at the type assertion. *)
Lemma find_loop_panics (pre : list string) (key : string) (rest : list string)
    (o obj : Object) (x : option Value) (lastKey : string) :
  walk pre o = Some obj →
  obj !! key = Some x →
  from_option is_Object false x = false →
  find_loop (pre ++ key :: rest) o lastKey = Panics InterfaceConversion.
Proof.
  revert o. induction pre as [|k pre IH]; intros o Hwalk Hkey Hx.
  { cbn in Hwalk. simplify_eq. cbn [app find_loop]. rewrite Hkey.
    by destruct x as [[]|]. }
  cbn [walk app find_loop] in *.
  destruct (o !! k) as [[[]|]|]; try done. by apply IH.
Qed.

(** A missing key before the last segment gives an absent value. *)
Lemma find_loop_missing (pre : list string) (key : string) (rest : list string)
    (o obj : Object) (lastKey : string) :
  walk pre o = Some obj →
  obj !! key = None →
  find_loop (pre ++ key :: rest) o lastKey = Returns None.
Proof.
  revert o. induction pre as [|k pre IH]; intros o Hwalk Hkey.
  { cbn in Hwalk. simplify_eq. cbn [app find_loop]. by rewrite Hkey. }
  cbn [walk app find_loop] in *.
  destruct (o !! k) as [[[]|]|]; try done. by apply IH.
Qed.

Lemma Get_Object (o : Object) (path : string) :
  Get (mkConfig (VObject o)) path = find o path.
Proof. reflexivity. Qed.

Lemma Get_non_Object (c : Config) (path : string) :
  is_Object (root c) = false → Get c path = Returns None.
Proof. destruct c as [[]]; done. Qed.

(** [Get] never fails at its own type assertion. *)
Lemma Get_cases (c : Config) (path : string) :
  (is_Object (root c) = false ∧ Get c path = Returns None)
  ∨ (∃ o, root c = VObject o ∧ Get c path = find o path).
Proof. destruct c as [[]]; cbn; eauto. Qed.

(** C1.  The lookup of a path whose intermediate segment is bound to a value
    that is not an Object does not return a typed error: [find] panics at
    its unchecked type assertion, and so do [Get] and the typed getters.
    Evaluated at [Object{"a": Int(1)}] and the path [a.b]. *)
Theorem find_through_non_object_panics `{!GoLib} :
  let o : Object := {[ "a" := Some (VInt 1) ]} in
  let c := mkConfig (VObject o) in
  find o "a.b" = Panics InterfaceConversion
  ∧ Get c "a.b" = Panics InterfaceConversion
  ∧ GetString c "a.b" = Panics InterfaceConversion
  ∧ GetInt c "a.b" = Panics InterfaceConversion
  ∧ GetBoolean c "a.b" = Panics InterfaceConversion
  ∧ GetObject c "a.b" = Panics InterfaceConversion
  ∧ find {[ "a" := None ]} "a.b" = Panics InterfaceConversion
  ∧ find (∅ : Object) "a.b" = Returns None.
Proof. vm_compute. repeat split; reflexivity. Qed.

(** ** The typed getters *)

Section GetterFacts.
Context `{!GoLib}.

(** Every getter answers an absent value with the not-found error. *)
Lemma getters_not_found (c : Config) (path : string) :
  Get c path = Returns None →
  GetObject c path = Returns (None, not_found path)
  ∧ GetConfig c path = Returns (None, not_found path)
  ∧ GetStringMap c path = Returns (None, not_found path)
  ∧ GetStringMapString c path = Returns (None, not_found path)
  ∧ GetArray c path = Returns (None, not_found path)
  ∧ GetIntSlice c path = Returns (None, not_found path)
  ∧ GetStringSlice c path = Returns (None, not_found path)
  ∧ GetString c path = Returns (EmptyString, not_found path)
  ∧ GetInt c path = Returns (0, not_found path)
  ∧ GetFloat32 c path = Returns (0, not_found path)
  ∧ GetFloat64 c path = Returns (0, not_found path)
  ∧ GetBoolean c path = Returns (false, not_found path)
  ∧ GetDuration c path = Returns (0, not_found path).
Proof.
  intros HGet.
  unfold GetConfig, GetStringMap, GetObject, GetStringMapString, GetArray,
    GetIntSlice, GetStringSlice, GetString, GetInt, GetFloat32, GetFloat64,
    GetBoolean, GetDuration.
  rewrite HGet. cbn [obind]. unfold not_found, fmt_Errorf.
  rewrite string_app_nil_r. repeat split; reflexivity.
Qed.

(** C6.  [GetBoolean] on a value that the lookup found: a Boolean is
    returned as it is; a String gives true exactly for [true], [yes], [on]
    and false exactly for [false], [no], [off]; every other String and every
    other kind of value gives the error [cannot parse value: <path> to
    boolean]. *)
Theorem GetBoolean_spec (c : Config) (path : string) (v : Value) :
  Get c path = Returns (Some v) →
  let parse_error : error :=
    Some ("cannot parse value: " +:+ path +:+ " to boolean") in
  (∀ b, v = VBoolean b → GetBoolean c path = Returns (b, None))
  ∧ (∀ s, v = VString s →
       (GetBoolean c path = Returns (true, None)
          ↔ s = "true" ∨ s = "yes" ∨ s = "on")
       ∧ (GetBoolean c path = Returns (false, None)
          ↔ s = "false" ∨ s = "no" ∨ s = "off")
       ∧ (GetBoolean c path = Returns (false, parse_error)
          ↔ ¬ (s = "true" ∨ s = "yes" ∨ s = "on"
               ∨ s = "false" ∨ s = "no" ∨ s = "off")))
  ∧ ((∀ b, v ≠ VBoolean b) → (∀ s, v ≠ VString s) →
       GetBoolean c path = Returns (false, parse_error)).
Proof.
  intros HGet perr. unfold GetBoolean. rewrite HGet. cbn [obind].
  split; [|split].
  - by intros b ->.
  - intros s ->. subst perr. unfold fmt_Errorf.
    repeat case_bool_decide;
      (repeat split; intros; destruct_or?; simplify_eq; try done; tauto).
  - intros Hb Hs. destruct v; try done; [by destruct (Hs s)|by destruct (Hb b)].
Qed.

(** C7.  [GetInt]: an Int is returned as it is; a String is parsed by
    [strconv.Atoi] and the number returned when the parse succeeds; a String
    that does not parse and every other kind of value give the error
    [cannot parse value: <path> to int]; an absent value gives
    [config value not found at path: <path>]. *)
Theorem GetInt_spec (c : Config) (path : string) (value : option Value) :
  Get c path = Returns value →
  let parse_error : error :=
    Some ("cannot parse value: " +:+ path +:+ " to int") in
  (∀ i, value = Some (VInt i) → GetInt c path = Returns (i, None))
  ∧ (∀ s i, value = Some (VString s) → strconv_Atoi s = Some i →
       GetInt c path = Returns (i, None))
  ∧ (∀ s, value = Some (VString s) → strconv_Atoi s = None →
       GetInt c path = Returns (0, parse_error))
  ∧ (∀ v, value = Some v → (∀ i, v ≠ VInt i) → (∀ s, v ≠ VString s) →
       GetInt c path = Returns (0, parse_error))
  ∧ (value = None →
       GetInt c path
       = Returns (0, Some ("config value not found at path: " +:+ path))).
Proof.
  intros HGet perr. unfold GetInt. rewrite HGet. cbn [obind].
  repeat split.
  - by intros i ->.
  - by intros s i -> ->.
  - by intros s -> ->.
  - intros v -> Hi Hs. destruct v; try done; [by destruct (Hs s)|by destruct (Hi i)].
  - intros ->. unfold fmt_Errorf. by rewrite string_app_nil_r.
Qed.

(** C9.  The kind tag does not tell all kinds apart: a Duration has the tag
    of a String, and Int, Float32 and Float64 share the Number tag; the
    getters tell them apart all the same, by the type of the value:
    [GetDuration] takes a Duration and refuses a String, [GetInt] takes an
    Int and refuses the floats, [GetFloat32] and [GetFloat64] take the floats
    and refuse an Int. *)
Theorem kind_tag_coarser_than_value_type (c : Config) (path : string) (v : Value) :
  Get c path = Returns (Some v) →
  (∀ d s, Value_Type (VDuration d) = StringType
          ∧ Value_Type (VDuration d) = Value_Type (VString s))
  ∧ (∀ i f g, Value_Type (VInt i) = NumberType
              ∧ Value_Type (VFloat32 f) = NumberType
              ∧ Value_Type (VFloat64 g) = NumberType)
  ∧ (∀ d, v = VDuration d → GetDuration c path = Returns (d, None))
  ∧ (∀ s, v = VString s →
       GetDuration c path
       = Returns (0, Some ("cannot parse value: " +:+ path +:+ " to Duration")))
  ∧ (∀ i, v = VInt i → GetInt c path = Returns (i, None))
  ∧ (∀ f, v = VFloat32 f ∨ v = VFloat64 f →
       GetInt c path
       = Returns (0, Some ("cannot parse value: " +:+ path +:+ " to int")))
  ∧ (∀ f, v = VFloat32 f →
       GetFloat32 c path = Returns (f, None)
       ∧ GetFloat64 c path = Returns (float64_of_float32 f, None))
  ∧ (∀ f, v = VFloat64 f →
       GetFloat64 c path = Returns (f, None)
       ∧ GetFloat32 c path = Returns (float32_of_float64 f, None))
  ∧ (∀ i, v = VInt i →
       GetFloat32 c path
       = Returns (0, Some ("cannot parse value: " +:+ path +:+ " to float32"))
       ∧ GetFloat64 c path
         = Returns (0, Some ("cannot parse value: " +:+ path +:+ " to float64"))).
Proof.
  intros HGet.
  unfold GetDuration, GetInt, GetFloat32, GetFloat64. rewrite HGet.
  cbn [obind].
  repeat match goal with |- _ ∧ _ => split end;
    try (intros; subst; repeat split; reflexivity).
  intros f [-> | ->]; reflexivity.
Qed.

End GetterFacts.

Lemma GetBoolean_spec_witness :
  let c := mkConfig (VObject {[ "d" := Some (VString "yes") ]}) in
  Get c "d" = Returns (Some (VString "yes"))
  ∧ GetBoolean c "d" = Returns (true, None).
Proof.
  intros c. split; [reflexivity|].
  pose proof (GetBoolean_spec c "d" (VString "yes") eq_refl) as (_ & Hs & _).
  apply (Hs "yes" eq_refl). right; by left.
Defined.

Lemma GetInt_spec_witness :
  let c := mkConfig (VObject {[ "b" := Some (VString "3") ]}) in
  Get c "b" = Returns (Some (VString "3"))
  ∧ GetInt c "b" = Returns (3, None).
Proof.
  intros c. split; [reflexivity|].
  pose proof (GetInt_spec c "b" (Some (VString "3")) eq_refl) as (_ & Hs & _).
  by apply (Hs "3" 3).
Defined.

Lemma kind_tag_coarser_than_value_type_witness :
  let c := mkConfig (VObject {[ "a" := Some (VDuration 5000000000) ]}) in
  Get c "a" = Returns (Some (VDuration 5000000000))
  ∧ GetDuration c "a" = Returns (5000000000, None).
Proof.
  intros c. split; [reflexivity|].
  pose proof (@kind_tag_coarser_than_value_type exampleLib c "a"
                (VDuration 5000000000) eq_refl) as (_ & _ & Hd & _).
  by apply Hd.
Defined.

(** ** Trimming *)

Lemma trimLeftByte_spec (s : string) (c : ascii) :
  ∃ n, s = repeat_byte c n +:+ trimLeftByte s c
       ∧ first_byte (trimLeftByte s c) ≠ Some c.
Proof.
  induction s as [|a s (n & Hs & Hf)].
  { by exists O. }
  cbn [trimLeftByte]. destruct (decide (a = c)) as [->|Hne].
  - exists (S n). split; [|done]. cbn [repeat_byte].
    by rewrite string_app_cons, <- Hs.
  - exists O. split; [done|]. cbn. congruence.
Qed.

Lemma trimLeftByte_last (s : string) (c : ascii) :
  last_byte s ≠ Some c → last_byte (trimLeftByte s c) ≠ Some c.
Proof.
  induction s as [|a s IH]; [done|]. intros Hl.
  cbn [trimLeftByte]. destruct (decide (a = c)) as [->|Hne]; [|done].
  apply IH. destruct s; [done|]. exact Hl.
Qed.

Lemma last_byte_cons (a : ascii) (s : string) :
  s ≠ EmptyString → last_byte (String a s) = last_byte s.
Proof. by destruct s. Qed.

Lemma trimRightByte_spec (s : string) (c : ascii) :
  ∃ m, s = trimRightByte s c +:+ repeat_byte c m
       ∧ last_byte (trimRightByte s c) ≠ Some c.
Proof.
  induction s as [|a s (m & Hs & Hl)].
  { by exists O. }
  cbn [trimRightByte]. destruct (trimRightByte s c) as [|b r] eqn:E.
  - destruct (decide (a = c)) as [->|Hne].
    + exists (S m). split; [|done]. rewrite string_app_nil_l in *.
      cbn [repeat_byte]. by rewrite <- Hs.
    + exists m. split; [|cbn; congruence].
      rewrite string_app_cons, string_app_nil_l in *. by rewrite <- Hs.
  - exists m. split.
    + rewrite string_app_cons. by rewrite <- Hs.
    + by rewrite last_byte_cons.
Qed.

(** [strings.Trim] with a one-byte cutset removes a run of that byte at
    each end and nothing else. *)
Lemma strings_Trim_spec (s : string) (c : ascii) :
  ∃ n m, s = repeat_byte c n +:+ strings_Trim s c +:+ repeat_byte c m
         ∧ first_byte (strings_Trim s c) ≠ Some c
         ∧ last_byte (strings_Trim s c) ≠ Some c.
Proof.
  unfold strings_Trim.
  destruct (trimRightByte_spec s c) as (m & Hs & Hl).
  destruct (trimLeftByte_spec (trimRightByte s c) c) as (n & Hs' & Hf).
  exists n, m. split; [|split; [done|by apply trimLeftByte_last]].
  rewrite <- string_app_assoc, <- Hs'. exact Hs.
Qed.

(** ** The renderers *)

Section RenderClaims.
Context `{!GoLib}.




End RenderClaims.

(** ** Nil values and [Config.Json] *)

Lemma Itoa_first_byte (i : Z) :
  ∃ ch rest, strconv_Itoa i = String ch rest
    ∧ ch ∈ ["-"; "0"; "1"; "2"; "3"; "4"; "5"; "6"; "7"; "8"; "9"]%char.
Proof.
  unfold strconv_Itoa. destruct (Z.to_int i) as [u|u]; cbn.
  - destruct u; cbn; do 2 eexists; (split; [reflexivity|set_solver]).
  - do 2 eexists. split; [reflexivity|set_solver].
Qed.

Section ConfigClaims.
Context `{!GoLib}.

(** A text that starts with a byte other than JSON white space, an opening
    brace and [n] is rejected by [json.Unmarshal] into a map. *)
Lemma json_Unmarshal_rejects (ch : ascii) (rest : string) :
  ch ∈ ["["; dquote; "t"; "f"; "-"; "0"; "1"; "2"; "3"; "4"; "5"; "6"; "7";
        "8"; "9"]%char →
  json_Unmarshal (String ch rest) = inr (json_reject (String ch rest)).
Proof.
  intros Hch. unfold json_Unmarshal.
  repeat (apply elem_of_cons in Hch as [->|Hch]; [reflexivity|]).
  by apply elem_of_nil in Hch.
Qed.

Lemma Config_Json_rejected (c : Config) (ch : ascii) (rest : string) :
  Value_Json (root c) = Returns (String ch rest) →
  ch ∈ ["["; dquote; "t"; "f"; "-"; "0"; "1"; "2"; "3"; "4"; "5"; "6"; "7";
        "8"; "9"]%char →
  Config_Json c
  = Panics (PanicMsg ("Error on parsing json: "
                      +:+ json_reject (String ch rest))).
Proof.
  intros HJ Hch. unfold Config_Json. rewrite HJ. cbn [obind].
  by rewrite json_Unmarshal_rejects.
Qed.

(** The first byte of the JSON text of a value: an opening brace for an
    Object, the [n] of [null] for Null, and a byte at which the decoder
    into a map gives up for every other kind. *)
Lemma Value_Json_first_byte (v : Value) (text : string) :
  Value_Json v = Returns text →
  ∃ ch rest,
    text = String ch rest
    ∧ match v with
      | VObject _ => ch = "{"%char
      | VNull => text = "null"
      | _ => ch ∈ ["["; dquote; "t"; "f"; "-"; "0"; "1"; "2"; "3"; "4"; "5";
                   "6"; "7"; "8"; "9"]%char
      end.
Proof.
  intros Hjson. destruct v.
  - injection Hjson as <-. rewrite jsonMarshal_quoted.
    do 2 eexists. split; [reflexivity|set_solver].
  - injection Hjson as <-. rewrite jsonMarshal_quoted.
    do 2 eexists. split; [reflexivity|set_solver].
  - rewrite Object_Json_join in Hjson.
    destruct (outcome_mapM Object_pair (range_order o)); [|done].
    injection Hjson as <-. by do 2 eexists.
  - rewrite Array_Json_join in Hjson.
    destruct (outcome_mapM (method_call Value_Json) a); [|done].
    injection Hjson as <-. do 2 eexists. split; [reflexivity|set_solver].
  - injection Hjson as <-.
    destruct (Itoa_first_byte i) as (ch & rest & -> & Hch).
    do 2 eexists. split; [reflexivity|set_solver].
  - injection Hjson as <-. do 2 eexists. split; [reflexivity|set_solver].
  - injection Hjson as <-. do 2 eexists. split; [reflexivity|set_solver].
  - injection Hjson as <-. destruct b;
      do 2 eexists; (split; [reflexivity|set_solver]).
  - injection Hjson as <-. rewrite jsonMarshal_quoted.
    do 2 eexists. split; [reflexivity|set_solver].
  - injection Hjson as <-. by do 2 eexists.
  - injection Hjson as <-.
    destruct (Itoa_first_byte (Z.quot d 1000000)) as (ch & rest & -> & Hch).
    do 2 eexists. split; [reflexivity|set_solver].
  - rewrite Value_Json_concatenation in Hjson.
    destruct (concatenation_String_with Value_String c); [|done].
    injection Hjson as <-. rewrite jsonMarshal_quoted.
    do 2 eexists. split; [reflexivity|set_solver].
Qed.

(** [Config.Json] panics in [Array.Json] when rendering the root meets a
    nil element of an Array. *)
Lemma Config_Json_nil (c : Config) :
  hits_nil (root c) = true → Config_Json c = Panics NilDereference.
Proof.
  intros Hnil. unfold Config_Json. by rewrite Value_Json_panics.
Qed.

(** [Config.Json] on a root that renders and is neither an Object nor Null
    panics with the error of the decoder. *)
Lemma Config_Json_panics (c : Config) :
  hits_nil (root c) = false →
  Value_Type (root c) ≠ ObjectType →
  root c ≠ VNull →
  ∃ text, Value_Json (root c) = Returns text
          ∧ Config_Json c
            = Panics (PanicMsg ("Error on parsing json: " +:+ json_reject text)).
Proof.
  intros Hnil Hobj Hnull.
  destruct (Value_Json_returns _ Hnil) as [text Htext].
  exists text. split; [done|].
  destruct (Value_Json_first_byte _ _ Htext) as (ch & rest & -> & Hch).
  apply Config_Json_rejected; [done|]. by destruct (root c).
Qed.

(** [Config.Json] on a Null root returns. *)
Lemma Config_Json_Null (c : Config) :
  root c = VNull → ∃ text, Config_Json c = Returns text.
Proof.
  intros Hroot. unfold Config_Json. rewrite Hroot. cbn [Value_Json obind].
  change (json_Unmarshal null) with (json_decode "null").
  destruct json_decode_null as [js ->]. by eexists.
Qed.

(** [Config.Json] on an Object root returns when rendering meets no nil
    element of an Array, the integers have 64 bits and the nesting is within
    what the decoder reads. *)
Lemma Config_Json_Object (c : Config) :
  Value_Type (root c) = ObjectType →
  hits_nil (root c) = false →
  Value_int64 (root c) = true →
  (Value_depth (root c) ≤ json_max_depth)%nat →
  ∃ text js, Value_Json (root c) = Returns text
             ∧ json_Unmarshal text = inl js
             ∧ Config_Json c = Returns (jsonMarshal_map js).
Proof.
  intros Hobj Hnil Hint Hdepth.
  destruct (root c) as [| |o| | | | | | | | |] eqn:Hroot; try done.
  destruct (Value_Json_returns _ Hnil) as [text Htext].
  destruct (Object_Json_members o text Hint Htext) as (members & -> & Hmem).
  destruct (json_decode_object (pred (Value_depth (VObject o))) members)
    as [js Hjs]; [cbn [Value_depth] in *; lia|done|].
  eexists. exists js. split; [exact Htext|].
  assert (Hun : json_Unmarshal
            ("{" +:+ String.concat ", "
                       (map (λ m, json_member m.1 m.2) members) +:+ "}")
          = inl js) by exact Hjs.
  split; [done|]. unfold Config_Json. rewrite Hroot, Htext. cbn [obind].
  by rewrite Hun.
Qed.


End ConfigClaims.


(** ** The getters that render: [GetString], [GetStringSlice],
       [GetStringMapString] *)

Section StringGetters.
Context `{!GoLib}.

(** [v.String()] on a slot: it returns for a value that renders, and panics
    with a nil dereference for nil and for a value whose rendering meets a
    nil element of an Array. *)
Lemma method_call_String_outcome (x : option Value) :
  if from_option hits_nil true x
  then method_call Value_String x = Panics NilDereference
  else ∃ v text, x = Some v ∧ Value_String v = Returns text.
Proof.
  destruct x as [v|]; cbn [from_option method_call]; [|done].
  destruct (hits_nil v) eqn:Hv.
  - by apply Value_String_panics.
  - destruct (Value_String_returns v Hv) as [text Ht]. by exists v, text.
Qed.

(** The loop of [GetStringSlice]. *)
Lemma StringSlice_loop (arr : Array) (slice : list string) :
  fold_left (λ (st : outcome (list string)) (v : option Value),
      slice ←! st;;
      text ←! method_call Value_String v;;
      Returns (slice ++ [text])) arr (Returns slice)
  = (texts ←! outcome_mapM (method_call Value_String) arr;;
     Returns (slice ++ texts)).
Proof.
  revert slice. induction arr as [|v arr IH]; intros slice.
  { cbn. by rewrite app_nil_r. }
  cbn [fold_left outcome_mapM obind].
  destruct (method_call Value_String v) as [text|p]; cbn [obind].
  - rewrite IH.
    destruct (outcome_mapM (method_call Value_String) arr); cbn [obind];
      [|done].
    by rewrite <- app_assoc.
  - by apply fold_left_Panics.
Qed.

Lemma GetStringSlice_Array (c : Config) (path : string) (arr : Array) :
  Get c path = Returns (Some (VArray arr)) →
  GetStringSlice c path
  = (texts ←! outcome_mapM (method_call Value_String) arr;;
     Returns (Some texts, nil_error)).
Proof.
  intros HGet. unfold GetStringSlice. rewrite HGet. cbn [obind].
  rewrite StringSlice_loop.
  by destruct (outcome_mapM (method_call Value_String) arr).
Qed.

(** The String() forms of the elements of an Array. *)
Lemma StringSlice_texts (arr : Array) :
  if hits_nil (VArray arr)
  then outcome_mapM (method_call Value_String) arr = Panics NilDereference
  else ∃ texts,
         outcome_mapM (method_call Value_String) arr = Returns texts
         ∧ Forall2 (λ x text, ∃ v, x = Some v ∧ Value_String v = Returns text)
             arr texts.
Proof.
  assert (Hp : ∀ x p, x ∈ arr → method_call Value_String x = Panics p →
                      p = NilDereference).
  { intros x p _ Hx. pose proof (method_call_String_outcome x) as Ho.
    destruct (from_option hits_nil true x); [congruence|].
    destruct Ho as (v & text & -> & Ht). cbn in Hx. congruence. }
  destruct (hits_nil (VArray arr)) eqn:Hnil.
  - apply hits_nil_Array in Hnil as [Hin|(v & Hin & Hv)].
    + by apply (outcome_mapM_one_panics _ _ _ None).
    + apply (outcome_mapM_one_panics _ _ _ (Some v)); [done|done|].
      by apply Value_String_panics.
  - destruct (outcome_mapM_all_return (method_call Value_String) arr)
      as [texts Htexts].
    { intros x Hin. pose proof (method_call_String_outcome x) as Ho.
      destruct x as [v|]; cbn [from_option] in Ho.
      - destruct (hits_nil v) eqn:Hv.
        + assert (Hc : hits_nil (VArray arr) = true)
            by (apply hits_nil_Array; eauto). congruence.
        + destruct Ho as (v' & text & [= <-] & Ht). by exists text.
      - assert (Hc : hits_nil (VArray arr) = true)
          by (apply hits_nil_Array; eauto). congruence. }
    exists texts. split; [done|].
    apply outcome_mapM_Returns in Htexts.
    eapply Forall2_impl; [exact Htexts|].
    intros [v|] t Hx; [by exists v|done].
Qed.

(** The loop of [GetStringMapString]: it panics with a nil dereference when
    the Object holds a nil value or a value whose rendering meets a nil
    element of an Array, whatever the order of the visit, and returns the
    String() forms of the values otherwise. *)
Lemma StringMapString_loop (object : Object) :
  let loop :=
    map_fold (λ (k : string) (v : option Value)
                (acc : outcome (gmap string string)),
        m ←! acc;;
        text ←! method_call Value_String v;;
        Returns (<[k := text]> m))
      (Returns ∅) object in
  (loop = Panics NilDereference
   ∧ ∃ k x, object !! k = Some x ∧ from_option hits_nil true x = true)
  ∨ (∃ m : gmap string string,
       loop = Returns m
       ∧ (∀ k x, object !! k = Some x → from_option hits_nil true x = false)
       ∧ dom m = dom object
       ∧ ∀ k v, object !! k = Some (Some v) →
                ∃ text, Value_String v = Returns text ∧ m !! k = Some text).
Proof.
  cbn zeta.
  apply (map_fold_weak_ind (λ r (object : Object),
    (r = Panics NilDereference
     ∧ ∃ k x, object !! k = Some x ∧ from_option hits_nil true x = true)
    ∨ (∃ m : gmap string string,
         r = Returns m
         ∧ (∀ k x, object !! k = Some x → from_option hits_nil true x = false)
         ∧ dom m = dom object
         ∧ ∀ k v, object !! k = Some (Some v) →
                  ∃ text, Value_String v = Returns text ∧ m !! k = Some text))).
  { right. exists ∅. split; [done|]. split; [|split; [set_solver|]];
      intros k ? Hk; by rewrite lookup_empty in Hk. }
  clear object.
  intros i x object r Hi [[-> (k & y & Hk & Hy)]|(m & -> & Hok & Hdom & Hm)].
  - left. split; [done|]. exists k, y. split; [|done].
    rewrite lookup_insert_ne; [done|]. intros ->. by rewrite Hi in Hk.
  - cbn [obind]. pose proof (method_call_String_outcome x) as Hx.
    destruct (from_option hits_nil true x) eqn:Hnil.
    + left. rewrite Hx. split; [done|]. exists i, x.
      by rewrite lookup_insert_eq.
    + right. destruct Hx as (v & text & -> & Ht). cbn [method_call].
      rewrite Ht. cbn [obind]. exists (<[i := text]> m).
      split; [done|]. split; [|split].
      * intros k y Hk. destruct (decide (i = k)) as [->|Hne].
        -- rewrite lookup_insert_eq in Hk. by injection Hk as <-.
        -- rewrite lookup_insert_ne in Hk by done. by apply (Hok k).
      * rewrite !dom_insert_L. by rewrite Hdom.
      * intros k w Hk. destruct (decide (i = k)) as [->|Hne].
        -- rewrite lookup_insert_eq in Hk. injection Hk as <-.
           exists text. by rewrite lookup_insert_eq.
        -- rewrite lookup_insert_ne in Hk by done.
           rewrite lookup_insert_ne by done. by apply Hm.
Qed.

End StringGetters.

(** ** Copy and merge on trees *)

Lemma map_fold_pointwise {A B : Type} (f g : string → A → B → B) (b : B)
    (m : gmap string A) :
  (∀ k x acc, f k x acc = g k x acc) → map_fold f b m = map_fold g b m.
Proof.
  intros Hfg. rewrite !map_fold_foldr.
  induction (map_to_list m) as [|[k x] l IH]; [done|].
  cbn. by rewrite IH, Hfg.
Qed.

Lemma copy_unfold (o : Object) :
  copy o
  = map_fold (λ (k : string) (v : option Value) (result : Object),
        match v with
        | Some (VObject subObject) =>
            <[k := Some (VObject (copy subObject))]> result
        | _ => <[k := v]> result
        end)
      ∅ o.
Proof.
  unfold copy at 1. cbn [Object_copy]. apply map_fold_pointwise.
  by intros k [[]|] acc.
Qed.

Lemma mergeObjects_unfold (existing new : Object) :
  mergeObjects existing new
  = map_fold (λ (key : string) (value : option Value) (existing : Object),
        match existing !! key, value with
        | Some (Some (VObject existingObj)), Some (VObject newObj) =>
            <[key := Some (VObject (mergeObjects existingObj newObj))]> existing
        | _, _ => <[key := value]> existing
        end)
      existing new.
Proof.
  unfold mergeObjects at 1. cbn [Object_merge]. apply map_fold_pointwise.
  by intros k [[]|] acc.
Qed.

(** The value under a key after [copy]: a deep copy of a nested Object,
    the value itself otherwise. *)
Lemma copy_lookup (o : Object) (k : string) :
  copy o !! k
  = match o !! k with
    | Some (Some (VObject subObject)) => Some (Some (VObject (copy subObject)))
    | x => x
    end.
Proof.
  rewrite copy_unfold.
  apply (map_fold_weak_ind (λ (r : Object) (m : Object),
    r !! k = match m !! k with
             | Some (Some (VObject sub)) => Some (Some (VObject (copy sub)))
             | x => x
             end)).
  { by rewrite !lookup_empty. }
  intros i x m r Hi IH.
  destruct (decide (i = k)) as [->|Hne].
  - rewrite lookup_insert_eq.
    destruct x as [[]|]; by rewrite lookup_insert_eq.
  - rewrite (lookup_insert_ne m) by done. rewrite <- IH.
    destruct x as [[]|]; by rewrite lookup_insert_ne.
Qed.

(** A deep copy is the same tree. *)
Lemma copy_id (o : Object) : copy o = o.
Proof.
  change (copy o = o) with ((λ v, match v with
                                 | VObject o => copy o = o
                                 | _ => True
                                 end) (VObject o)).
  apply Value_induction; try done.
  clear o. intros o IH. apply map_eq. intros k. rewrite copy_lookup.
  destruct (o !! k) as [[v|]|] eqn:Hk; try done.
  specialize (IH k v Hk). destruct v; try done. by rewrite IH.
Qed.

(** The value under a key after [mergeObjects]. *)
Lemma mergeObjects_lookup (existing new : Object) (k : string) :
  mergeObjects existing new !! k
  = match new !! k with
    | Some value =>
        match existing !! k, value with
        | Some (Some (VObject existingObj)), Some (VObject newObj) =>
            Some (Some (VObject (mergeObjects existingObj newObj)))
        | _, _ => Some value
        end
    | None => existing !! k
    end.
Proof.
  rewrite mergeObjects_unfold.
  apply (map_fold_weak_ind (λ (r : Object) (m : Object),
    r !! k = match m !! k with
             | Some value =>
                 match existing !! k, value with
                 | Some (Some (VObject existingObj)), Some (VObject newObj) =>
                     Some (Some (VObject (mergeObjects existingObj newObj)))
                 | _, _ => Some value
                 end
             | None => existing !! k
             end)).
  { by rewrite lookup_empty. }
  intros i x m r Hi IH.
  destruct (decide (i = k)) as [->|Hne].
  - rewrite lookup_insert_eq. rewrite Hi in IH. rewrite IH.
    destruct (existing !! k) as [[[]|]|], x as [[]|];
      by rewrite lookup_insert_eq.
  - rewrite (lookup_insert_ne m) by done. rewrite <- IH.
    destruct (r !! i) as [[[]|]|], x as [[]|]; by rewrite lookup_insert_ne.
Qed.

(** ** Trees in the store *)

Lemma repr_is_Object (S : gset loc) (σ : store) (h : HValue) (v : Value) :
  repr S σ h v → is_HObject h = is_Object v.
Proof. by destruct 1. Qed.

(** A tree read in a store is read in every store that agrees with it on
    the locations that may be read. *)
Lemma repr_mono (S S' : gset loc) (σ σ' : store) (h : HValue) (v : Value) :
  S ⊆ S' →
  (∀ l, l ∈ S → σ' !! l = σ !! l) →
  repr S σ h v → repr S' σ' h v.
Proof.
  intros HS Hσ. revert h.
  induction v as [s|value alt IH|o IH|a IH|i|f|f|b|s| |d|c IH]
    using Value_induction; intros h Hr; inversion Hr; subst;
    try by constructor.
  - constructor. by apply IH.
  - match goal with Hl : _ ∈ S, Hm : σ !! _ = Some _ |- _ =>
      apply (repr_Object S' σ' _ m o); [set_solver|by rewrite (Hσ _ Hl)|]
    end.
    intros k.
    match goal with Hrel : ∀ k, option_Forall2 _ _ _ |- _ =>
      specialize (Hrel k) end.
    destruct (o !! k) as [[vk|]|] eqn:Eo;
      match goal with Hrel : option_Forall2 _ _ _ |- _ =>
        inversion Hrel as [x y Hxy|]; subst end; constructor;
      inversion Hxy; subst; constructor.
    by eapply IH.
  - constructor.
    match goal with HF : Forall2 _ _ _ |- _ =>
      induction HF as [|x y xs ys Hxy HF IHF] end; constructor.
    + destruct Hxy as [hk vk Hk|]; constructor.
      apply IH; [set_solver|done].
    + apply IHF; [|by constructor]. intros v Hv. apply IH. set_solver.
  - constructor.
    match goal with HF : Forall2 _ _ _ |- _ =>
      induction HF as [|x y xs ys Hxy HF IHF] end; constructor.
    + destruct Hxy as [hk vk Hk|]; constructor.
      apply IH; [set_solver|done].
    + apply IHF; [|by constructor]. intros v Hv. apply IH. set_solver.
Qed.

Lemma entries_rel_mono (S S' : gset loc) (σ σ' : store) (m : cells) (o : Object) :
  S ⊆ S' →
  (∀ l, l ∈ S → σ' !! l = σ !! l) →
  entries_rel S σ m o → entries_rel S' σ' m o.
Proof.
  intros HS Hσ Hrel k. destruct (Hrel k) as [x y Hxy|]; constructor.
  destruct Hxy as [hk vk Hk|]; constructor. by eapply repr_mono.
Qed.

Lemma entries_rel_insert (S : gset loc) (σ : store) (m : cells) (o : Object)
    (k : string) (x : option HValue) (y : option Value) :
  entries_rel S σ m o →
  option_Forall2 (repr S σ) x y →
  entries_rel S σ (<[k := x]> m) (<[k := y]> o).
Proof.
  intros Hrel Hxy k'. destruct (decide (k = k')) as [->|Hne].
  - rewrite !lookup_insert_eq. by constructor.
  - rewrite !lookup_insert_ne by done. apply Hrel.
Qed.

Lemma entries_rel_empty (S : gset loc) (σ : store) : entries_rel S σ ∅ ∅.
Proof. intros k. rewrite !lookup_empty. constructor. Qed.

(** *** Owned maps *)

Lemma owned_entries_stable (σ0 σ σ' : store) (D : gset loc) (m : cells)
    (o : Object) :
  (∀ l, l ∈ D → σ' !! l = σ !! l) →
  owned_entries σ0 σ D m o → owned_entries σ0 σ' D m o.
Proof.
  intros Hσ Hown. induction Hown as
    [|D m o k Hown IH Hm Ho|D m o k h v Hown IH Hm Ho Hh Hr
     |D1 D2 m o k l m' o' Hown1 IH1 Hm Ho Hl Hfresh HlD Hown2 IH2 Hdisj].
  - constructor.
  - constructor; auto.
  - constructor; auto.
  - apply owned_child with (m' := m'); try done.
    + apply IH1. intros l' Hl'. apply Hσ. set_solver.
    + rewrite Hσ; [done|set_solver].
    + apply IH2. intros l' Hl'. apply Hσ. set_solver.
Qed.

Lemma owned_stable (σ0 σ σ' : store) (D : gset loc) (l : loc) (o : Object) :
  (∀ l, l ∈ D → σ' !! l = σ !! l) →
  owned σ0 σ D l o → owned σ0 σ' D l o.
Proof.
  intros Hσ (m & D' & Hl & Hfresh & HlD & Hown & ->).
  exists m, D'. split; [rewrite Hσ; [done|set_solver]|].
  repeat split; try done.
  eapply owned_entries_stable; [|done]. intros l' Hl'. apply Hσ. set_solver.
Qed.

Lemma owned_entries_fresh (σ0 σ : store) (D : gset loc) (m : cells) (o : Object) :
  owned_entries σ0 σ D m o → D ## dom σ0.
Proof. induction 1; set_solver. Qed.

Lemma owned_fresh (σ0 σ : store) (D : gset loc) (l : loc) (o : Object) :
  owned σ0 σ D l o → D ## dom σ0.
Proof.
  intros (m & D' & Hl & Hfresh & HlD & Hown & ->).
  apply owned_entries_fresh in Hown. set_solver.
Qed.

Lemma owned_root (σ0 σ : store) (D : gset loc) (l : loc) (o : Object) :
  owned σ0 σ D l o → l ∈ D.
Proof. intros (m & D' & Hl & Hfresh & HlD & Hown & ->). set_solver. Qed.

(** The entry under a key of an owned map, and the map without it. *)
Lemma owned_entries_extract (σ0 σ : store) (D : gset loc) (m : cells)
    (o : Object) (k : string) :
  owned_entries σ0 σ D m o →
  ∃ D1 D2 : gset loc,
    D1 ## D2 ∧ D1 ∪ D2 ⊆ D
    ∧ owned_entries σ0 σ D1 (delete k m) (delete k o)
    ∧ owned_entry σ0 σ D2 (m !! k) (o !! k).
Proof.
  induction 1 as
    [|D m o k' Hown IH Hm Ho|D m o k' h v Hown IH Hm Ho Hh Hr
     |D1 D2 m o k' l m' o' Hown1 IH1 Hm Ho Hl Hfresh HlD Hown2 _ Hdisj].
  - exists ∅, ∅. rewrite !delete_empty, !lookup_empty.
    repeat split; [set_solver|set_solver|constructor|constructor].
  - destruct (decide (k' = k)) as [->|Hne].
    + exists D, ∅. rewrite !lookup_insert_eq, !delete_insert_eq.
      rewrite !delete_id by done.
      repeat split; [set_solver|set_solver|done|constructor].
    + destruct IH as (E1 & E2 & Hd & Hsub & Hrest & Hentry).
      exists E1, E2. rewrite !lookup_insert_ne by done.
      rewrite !delete_insert_ne by done.
      repeat split; try done.
      constructor; [done|by rewrite lookup_delete_ne|by rewrite lookup_delete_ne].
  - destruct (decide (k' = k)) as [->|Hne].
    + exists D, ∅. rewrite !lookup_insert_eq, !delete_insert_eq.
      rewrite !delete_id by done.
      repeat split; [set_solver|set_solver|done|by constructor].
    + destruct IH as (E1 & E2 & Hd & Hsub & Hrest & Hentry).
      exists E1, E2. rewrite !lookup_insert_ne by done.
      rewrite !delete_insert_ne by done.
      repeat split; try done.
      constructor; [done|by rewrite lookup_delete_ne|by rewrite lookup_delete_ne|done|done].
  - destruct (decide (k' = k)) as [->|Hne].
    + exists D1, ({[l]} ∪ D2). rewrite !lookup_insert_eq, !delete_insert_eq.
      rewrite !delete_id by done.
      repeat split; [set_solver|set_solver|done|].
      constructor. by exists m', D2.
    + destruct IH1 as (E1 & E2 & Hd & Hsub & Hrest & Hentry).
      exists (E1 ∪ ({[l]} ∪ D2)), E2. rewrite !lookup_insert_ne by done.
      rewrite !delete_insert_ne by done.
      repeat split; [set_solver|set_solver| |done].
      apply owned_child with (m' := m'); try done;
        [by rewrite lookup_delete_ne|by rewrite lookup_delete_ne|set_solver].
Qed.

(** An owned map denotes its object. *)
Lemma owned_entries_rel (σ0 σ : store) (D : gset loc) (m : cells) (o : Object) :
  (∀ l, l ∈ dom σ0 → σ !! l = σ0 !! l) →
  owned_entries σ0 σ D m o → entries_rel (dom σ0 ∪ D) σ m o.
Proof.
  intros Hσ. induction 1 as
    [|D m o k Hown IH Hm Ho|D m o k h v Hown IH Hm Ho Hh Hr
     |D1 D2 m o k l m' o' Hown1 IH1 Hm Ho Hl Hfresh HlD Hown2 IH2 Hdisj].
  - apply entries_rel_empty.
  - apply entries_rel_insert; [done|constructor].
  - apply entries_rel_insert; [done|]. constructor.
    eapply repr_mono; [| |exact Hr]; [set_solver|done].
  - apply entries_rel_insert.
    + eapply entries_rel_mono; [| |exact IH1]; [set_solver|done].
    + constructor. apply repr_Object with (m := m'); [set_solver|done|].
      eapply entries_rel_mono; [| |exact IH2]; [set_solver|done].
Qed.

Lemma owned_repr (σ0 σ : store) (D : gset loc) (l : loc) (o : Object) :
  (∀ l, l ∈ dom σ0 → σ !! l = σ0 !! l) →
  owned σ0 σ D l o → repr (dom σ0 ∪ D) σ (HObject l) (VObject o).
Proof.
  intros Hσ (m & D' & Hl & Hfresh & HlD & Hown & ->).
  apply repr_Object with (m := m); [set_solver|done|].
  eapply entries_rel_mono; [| |by apply owned_entries_rel]; [set_solver|done].
Qed.

(** *** [Store.copy] *)

Lemma assign_lookup (σ : store) (l : loc) (k : string) (x : option HValue)
    (m : cells) :
  σ !! l = Some m → Store.assign σ l k x !! l = Some (<[k := x]> m).
Proof. intros Hl. unfold Store.assign. by rewrite lookup_alter_eq, Hl. Qed.

Lemma assign_lookup_ne (σ : store) (l l' : loc) (k : string)
    (x : option HValue) :
  l ≠ l' → Store.assign σ l k x !! l' = σ !! l'.
Proof. intros Hne. unfold Store.assign. by rewrite lookup_alter_ne. Qed.

Lemma assign_dom (σ : store) (l : loc) (k : string) (x : option HValue) :
  dom (Store.assign σ l k x) = dom σ.
Proof. unfold Store.assign. by rewrite dom_alter_L. Qed.

Lemma new_Object_fresh (σ : store) : Store.new_Object σ ∉ dom σ.
Proof. unfold Store.new_Object. apply (is_fresh (dom σ)). Qed.

Lemma store_dom_agree (σ0 σ : store) :
  (∀ l, l ∈ dom σ0 → σ !! l = σ0 !! l) → dom σ0 ⊆ dom σ.
Proof.
  intros Hσ l Hl. apply elem_of_dom. rewrite (Hσ l Hl). by apply elem_of_dom.
Qed.

Lemma copy_inv_step_plain (σ0 σ : store) (r : loc) (o : Object) (md : cells)
    (σc : store) (i : string) (x : option HValue) (y : option Value) :
  r ∉ dom σ →
  md !! i = None →
  o !! i = Some y →
  match x, y with
  | None, None => True
  | Some h, Some v => is_HObject h = false ∧ repr (dom σ0) σ0 h v
  | _, _ => False
  end →
  copy_inv σ0 σ r o md (Some σc) →
  copy_inv σ0 σ r o (<[i := x]> md) (Some (Store.assign σc r i x)).
Proof.
  intros Hr Hi Ho Hxy (σc' & D & mr & oc & Hst & Hmr & Hown & HrD & HD & Hdom
                       & Hframe & Hoc & Hnone).
  simplify_eq.
  exists (Store.assign σc' r i x), D, (<[i := x]> mr), (<[i := y]> oc).
  split; [done|]. split; [by apply assign_lookup|].
  assert (Hoci : oc !! i = None) by (by rewrite Hoc, Hi).
  split.
  { assert (Hown' : owned_entries σ0 (Store.assign σc' r i x) D mr oc).
    { eapply owned_entries_stable; [|exact Hown].
      intros l Hl. apply assign_lookup_ne. set_solver. }
    destruct x as [h|], y as [v|]; try done.
    - destruct Hxy. by constructor; auto.
    - by constructor; auto. }
  split; [done|]. split; [done|].
  split; [by rewrite assign_dom|].
  split.
  { intros l Hl. rewrite assign_lookup_ne by set_solver. by apply Hframe. }
  split.
  - intros k. destruct (decide (i = k)) as [->|Hne].
    + by rewrite !lookup_insert_eq.
    + rewrite !lookup_insert_ne by done. apply Hoc.
  - intros k Hk. destruct (decide (i = k)) as [->|Hne].
    + by rewrite lookup_insert_eq in Hk.
    + rewrite lookup_insert_ne in Hk by done.
      rewrite lookup_insert_ne by done. by apply Hnone.
Qed.

Lemma copy_inv_step_child (σ0 σ : store) (r : loc) (o : Object) (md : cells)
    (σc : store) (i : string) (sub : loc) (osub : Object)
    (res : option (store * loc)) :
  r ∉ dom σ →
  md !! i = None →
  o !! i = Some (Some (VObject osub)) →
  copy_inv σ0 σ r o md (Some σc) →
  copy_post σ0 σc osub res →
  ∃ σ' subCopy,
    res = Some (σ', subCopy)
    ∧ copy_inv σ0 σ r o (<[i := Some (HObject sub)]> md)
        (Some (Store.assign σ' r i (Some (HObject subCopy)))).
Proof.
  intros Hr Hi Ho (σc' & D & mr & oc & Hst & Hmr & Hown & HrD & HD & Hdom
                   & Hframe & Hoc & Hnone)
         (σ' & subCopy & D2 & -> & Hown2 & HD2 & Hdom' & Hframe').
  simplify_eq. exists σ', subCopy. split; [done|].
  destruct Hown2 as (m' & D2' & Hsub & Hsubfresh & HsubD & Hown2 & ->).
  assert (Hrc : r ∈ dom σc') by (rewrite Hdom; set_solver).
  exists (Store.assign σ' r i (Some (HObject subCopy))),
         (D ∪ ({[subCopy]} ∪ D2')),
         (<[i := Some (HObject subCopy)]> mr),
         (<[i := Some (VObject osub)]> oc).
  split; [done|].
  split; [apply assign_lookup; by rewrite Hframe'|].
  assert (Hoci : oc !! i = None) by (by rewrite Hoc, Hi).
  split.
  { apply owned_child with (m' := m'); auto.
    - eapply owned_entries_stable; [|exact Hown].
      intros l Hl. rewrite assign_lookup_ne by set_solver.
      apply Hframe'. rewrite Hdom. set_solver.
    - rewrite assign_lookup_ne by set_solver. done.
    - eapply owned_entries_stable; [|exact Hown2].
      intros l Hl. apply assign_lookup_ne. set_solver.
    - rewrite Hdom in HD2. set_solver. }
  split; [set_solver|].
  split; [rewrite Hdom in HD2; set_solver|].
  split; [rewrite assign_dom, Hdom', Hdom; set_solver|].
  split.
  { intros l Hl. rewrite assign_lookup_ne by set_solver.
    rewrite Hframe' by (rewrite Hdom; set_solver). by apply Hframe. }
  split.
  - intros k. destruct (decide (i = k)) as [->|Hne].
    + by rewrite !lookup_insert_eq.
    + rewrite !lookup_insert_ne by done. apply Hoc.
  - intros k Hk. destruct (decide (i = k)) as [->|Hne].
    + by rewrite lookup_insert_eq in Hk.
    + rewrite lookup_insert_ne in Hk by done.
      rewrite lookup_insert_ne by done. by apply Hnone.
Qed.

(** [Store.copy] of an object that denotes [o], with fuel for the size of
    [o], returns an owned map that denotes [o] and leaves every map that
    existed before as it was. *)
Lemma copy_spec (o : Object) (σ0 σ : store) (l : loc) (fuel : nat) :
  (∀ l, l ∈ dom σ0 → σ !! l = σ0 !! l) →
  repr (dom σ0) σ0 (HObject l) (VObject o) →
  (Value_size (VObject o) ≤ fuel)%nat →
  copy_post σ0 σ o (Store.copy fuel σ l).
Proof.
  revert σ0 σ l fuel.
  change ((λ v, match v with
                | VObject o => ∀ σ0 σ l fuel,
                    (∀ l, l ∈ dom σ0 → σ !! l = σ0 !! l) →
                    repr (dom σ0) σ0 (HObject l) (VObject o) →
                    (Value_size (VObject o) ≤ fuel)%nat →
                    copy_post σ0 σ o (Store.copy fuel σ l)
                | _ => True
                end) (VObject o)).
  apply Value_induction; try done. clear o.
  intros o IH σ0 σ l fuel Hext Hr Hfuel.
  destruct fuel as [|fuel]; [cbn in Hfuel; lia|].
  inversion Hr as [| |l' m o' Hl Hm Hrel| | | | | | | | |]; subst.
  cbn [Store.copy]. rewrite (Hext l Hl), Hm.
  pose proof (new_Object_fresh σ) as Hfresh.
  set (r := Store.new_Object σ) in *.
  match goal with |- context [map_fold ?f ?b m] =>
    assert (Hloop : ∀ md, md ⊆ m → copy_inv σ0 σ r o md (map_fold f b md))
  end.
  { intros md. apply (map_fold_weak_ind (λ st md, md ⊆ m → copy_inv σ0 σ r o md st)).
    - intros _. exists (<[r := ∅]> σ), ∅, ∅, ∅.
      split; [done|]. split; [by rewrite lookup_insert_eq|].
      split; [constructor|]. split; [set_solver|]. split; [set_solver|].
      split; [rewrite dom_insert_L; set_solver|].
      split; [intros l' Hl'; rewrite lookup_insert_ne by set_solver; done|].
      split; [intros k; by rewrite !lookup_empty|done].
    - clear md. intros i x md st Hi IHst Hsub.
      assert (Hmi : m !! i = Some x).
      { eapply lookup_weaken; [|exact Hsub]. by rewrite lookup_insert_eq. }
      assert (Hmd : md ⊆ m).
      { etrans; [|exact Hsub]. by apply insert_subseteq. }
      specialize (IHst Hmd).
      pose proof IHst as (σc & D & mr & oc & -> & _).
      pose proof (Hrel i) as Hreli. rewrite Hmi in Hreli.
      inversion Hreli as [x' y Hxy Hx' Hoi|]; subst. symmetry in Hoi.
      destruct Hxy as [h v Hhv|].
      + destruct (is_HObject h) eqn:Hobj.
        * destruct h; try done. inversion Hhv; subst.
          match goal with |- copy_inv _ _ _ _ _ (match ?c with _ => _ end) =>
            assert (Hpost : copy_post σ0 σc o0 c) end.
          { apply (IH i (VObject o0) Hoi).
            - destruct IHst as (? & ? & ? & ? & ? & ? & ? & ? & ? & ? & Hfr & _).
              simplify_eq. intros l' Hl'.
              rewrite Hfr by (by apply (store_dom_agree σ0 σ Hext)).
              by apply Hext.
            - done.
            - pose proof (Value_size_lookup o i (VObject o0) Hoi). lia. }
          destruct (copy_inv_step_child σ0 σ r o md σc i l0 o0 _
                      Hfresh Hi Hoi IHst Hpost) as (σ' & subCopy & -> & Hinv).
          exact Hinv.
        * assert (Hgoal : copy_inv σ0 σ r o (<[i := Some h]> md)
                            (Some (Store.assign σc r i (Some h)))).
          { apply (copy_inv_step_plain σ0 σ r o md σc i (Some h) (Some v));
              auto. }
          by destruct h.
      + apply (copy_inv_step_plain σ0 σ r o md σc i None None); auto. }
  specialize (Hloop m (reflexivity m)).
  destruct Hloop as (σc & D & mr & oc & -> & Hmr & Hown & HrD & HD & Hdom
                     & Hframe & Hoc & Hnone).
  exists σc, r, ({[r]} ∪ D). split; [done|].
  assert (oc = o) as ->.
  { apply map_eq. intros k. rewrite Hoc.
    pose proof (Hrel k) as Hk. destruct (m !! k); inversion Hk; done. }
  split.
  { exists mr, D. repeat split; try done.
    intros Hin. apply Hfresh. by apply (store_dom_agree σ0 σ Hext). }
  split; [set_solver|]. split; [set_solver|]. done.
Qed.

(** *** [Store.mergeObjects] *)

Lemma owned_entry_Object (σ0 σ : store) (D : gset loc)
    (a : option (option HValue)) (b : option (option Value)) :
  owned_entry σ0 σ D a b →
  from_option (from_option is_HObject false) false a
  = from_option (from_option is_Object false) false b.
Proof.
  destruct 1 as [| |h v Hh Hr|]; try done. cbn.
  by rewrite <- (repr_is_Object _ _ _ _ Hr).
Qed.

Lemma merge_inv_step_plain (σ0 σ : store) (D : gset loc) (e : loc)
    (te tn : Object) (md : cells) (σc : store) (mc : cells) (i : string)
    (x : option HValue) (y : option Value) :
  (∀ l, l ∈ dom σ0 → σ !! l = σ0 !! l) →
  e ∈ D → D ## dom σ0 →
  md !! i = None →
  tn !! i = Some y →
  option_Forall2 (repr (dom σ0) σ0) x y →
  σc !! e = Some mc →
  both_Objects (mc !! i) x = false →
  merge_inv σ0 σ D e te tn md (Some σc) →
  merge_inv σ0 σ D e te tn (<[i := x]> md) (Some (Store.assign σc e i x)).
Proof.
  intros Hext He HD Hi Hy Hxy Hmc Hboth
    (σc1 & mc1 & mU & oU & DU & DP & Hst & Hframe & Hdom & Hmc1 & Hown & HUP
     & Hsub & HeUP & Hun & Hdone).
  injection Hst as <-. rewrite Hmc in Hmc1. injection Hmc1 as <-.
  destruct (owned_entries_extract σ0 σc DU mU oU i Hown)
    as (D1 & D2 & HD12 & HD12sub & Hrest & Hentry).
  destruct (Hun i Hi) as [Hmci Htei].
  exists (Store.assign σc e i x), (<[i := x]> mc), (delete i mU),
         (delete i oU), D1, DP.
  assert (Hextc : ∀ l, l ∈ dom σ0 → Store.assign σc e i x !! l = σ0 !! l).
  { intros l Hl. rewrite assign_lookup_ne by set_solver.
    rewrite Hframe by set_solver. by apply Hext. }
  split; [done|].
  split; [intros l Hl; rewrite assign_lookup_ne by set_solver; by apply Hframe|].
  split; [by rewrite assign_dom|].
  split; [by apply assign_lookup|].
  split.
  { eapply owned_entries_stable; [|exact Hrest].
    intros l Hl. apply assign_lookup_ne. set_solver. }
  split; [set_solver|]. split; [set_solver|]. split; [set_solver|].
  split.
  - intros k Hk. destruct (decide (i = k)) as [->|Hne].
    + by rewrite lookup_insert_eq in Hk.
    + rewrite lookup_insert_ne in Hk by done.
      rewrite lookup_insert_ne, !lookup_delete_ne by done. by apply Hun.
  - intros k Hk. destruct (decide (i = k)) as [->|Hne].
    + rewrite lookup_insert_eq, mergeObjects_lookup, Hy.
      assert (Hmerged :
        match te !! k, y with
        | Some (Some (VObject existingObj)), Some (VObject newObj) =>
            Some (Some (VObject (mergeObjects existingObj newObj)))
        | _, _ => Some y
        end = Some y).
      { pose proof (owned_entry_Object _ _ _ _ _ Hentry) as Hshape.
        rewrite <- Hmci, <- Htei in Hshape.
        destruct (te !! k) as [[[]|]|]; try done.
        destruct y as [[]|]; try done.
        destruct (mc !! k) as [[[]|]|]; try done.
        inversion Hxy as [hx vy Hr|]; subst. inversion Hr; subst.
        cbn in Hboth. done. }
      rewrite Hmerged. constructor.
      destruct Hxy as [hx vy Hr|]; constructor.
      eapply repr_mono; [| |exact Hr]; [set_solver|].
      intros l Hl. by apply Hextc.
    + rewrite lookup_insert_ne in Hk by done.
      rewrite lookup_insert_ne by done.
      specialize (Hdone k Hk).
      destruct Hdone as [a b Hab|]; constructor.
      destruct Hab as [ha vb Hr|]; constructor.
      eapply repr_mono; [| |exact Hr]; [done|].
      intros l Hl. apply assign_lookup_ne. set_solver.
Qed.

Lemma merge_inv_child_owned (σ0 σ : store) (D : gset loc) (e : loc)
    (te tn : Object) (md : cells) (σc : store) (mc : cells) (i : string)
    (existingObj : loc) :
  md !! i = None →
  σc !! e = Some mc →
  mc !! i = Some (Some (HObject existingObj)) →
  merge_inv σ0 σ D e te tn md (Some σc) →
  ∃ (oe : Object) (D2 : gset loc),
    te !! i = Some (Some (VObject oe)) ∧ owned σ0 σc D2 existingObj oe.
Proof.
  intros Hi Hmc Hmci
    (σc1 & mc1 & mU & oU & DU & DP & Hst & Hframe & Hdom & Hmc1 & Hown & HUP
     & Hsub & HeUP & Hun & Hdone).
  injection Hst as <-. rewrite Hmc in Hmc1. injection Hmc1 as <-.
  destruct (owned_entries_extract σ0 σc DU mU oU i Hown)
    as (D1 & D2 & HD12 & HD12sub & Hrest & Hentry).
  destruct (Hun i Hi) as [Hmi Hti]. rewrite <- Hmi, <- Hti, Hmci in Hentry.
  inversion Hentry as [| |h v Hh Hr|l o D' Hchild]; subst; [done|].
  by exists o, D2.
Qed.

Lemma merge_inv_step_child (σ0 σ : store) (D : gset loc) (e : loc)
    (te tn : Object) (md : cells) (σc : store) (mc : cells) (i : string)
    (existingObj newObj : loc) (oe on : Object) (D2 : gset loc)
    (res : option store) :
  (∀ l, l ∈ dom σ0 → σ !! l = σ0 !! l) →
  e ∈ D → D ## dom σ0 →
  md !! i = None →
  tn !! i = Some (Some (VObject on)) →
  te !! i = Some (Some (VObject oe)) →
  σc !! e = Some mc →
  mc !! i = Some (Some (HObject existingObj)) →
  merge_inv σ0 σ D e te tn md (Some σc) →
  (∀ D2, owned σ0 σc D2 existingObj oe →
         merge_post σ0 σc D2 existingObj oe on res) →
  ∃ σ',
    res = Some σ'
    ∧ merge_inv σ0 σ D e te tn (<[i := Some (HObject newObj)]> md)
        (Some (Store.assign σ' e i (Some (HObject existingObj)))).
Proof.
  intros Hext He HD Hi Hn Ht Hmc Hmci
    (σc1 & mc1 & mU & oU & DU & DP & Hst & Hframe & Hdom & Hmc1 & Hown & HUP
     & Hsub & HeUP & Hun & Hdone) Hpost.
  injection Hst as <-. rewrite Hmc in Hmc1. injection Hmc1 as <-.
  destruct (owned_entries_extract σ0 σc DU mU oU i Hown)
    as (D1 & D2' & HD12 & HD12sub & Hrest & Hentry).
  destruct (Hun i Hi) as [Hmi Hti]. rewrite <- Hmi, <- Hti, Hmci in Hentry.
  inversion Hentry as [| |h v Hh Hr|l o D' Hchild Heq1 Heq2 Heq3]; subst;
    [done|].
  rewrite Ht in Heq3. injection Heq3 as <-.
  destruct (Hpost D2' Hchild) as (σ' & -> & Hframe' & Hdom' & Hrepr).
  exists σ'. split; [done|].
  pose proof (owned_fresh _ _ _ _ _ Hchild) as HD2fresh.
  assert (HeD2 : e ∉ D2') by set_solver.
  exists (Store.assign σ' e i (Some (HObject existingObj))),
         (<[i := Some (HObject existingObj)]> mc), (delete i mU),
         (delete i oU), D1, (DP ∪ D2').
  split; [done|].
  split.
  { intros l Hl. rewrite assign_lookup_ne by set_solver.
    rewrite Hframe' by set_solver. by apply Hframe. }
  split; [by rewrite assign_dom, Hdom'|].
  split; [apply assign_lookup; by rewrite Hframe'|].
  split.
  { eapply owned_entries_stable; [|exact Hrest].
    intros l Hl. rewrite assign_lookup_ne by set_solver.
    apply Hframe'. set_solver. }
  split; [set_solver|]. split; [set_solver|]. split; [set_solver|].
  split.
  - intros k Hk. destruct (decide (i = k)) as [->|Hne].
    + by rewrite lookup_insert_eq in Hk.
    + rewrite lookup_insert_ne in Hk by done.
      rewrite lookup_insert_ne, !lookup_delete_ne by done. by apply Hun.
  - intros k Hk. destruct (decide (i = k)) as [->|Hne].
    + rewrite lookup_insert_eq, mergeObjects_lookup, Hn, Ht.
      do 2 constructor.
      eapply repr_mono; [| |exact Hrepr]; [set_solver|].
      intros l Hl. apply assign_lookup_ne. set_solver.
    + rewrite lookup_insert_ne in Hk by done.
      rewrite lookup_insert_ne by done.
      specialize (Hdone k Hk).
      destruct Hdone as [a b Hab|]; constructor.
      destruct Hab as [ha vb Hr|]; constructor.
      eapply repr_mono; [| |exact Hr]; [set_solver|].
      intros l Hl. rewrite assign_lookup_ne by set_solver.
      apply Hframe'. set_solver.
Qed.

(** [Store.mergeObjects] into an owned map, from an object of [σ0] that
    denotes [tn] and with fuel for the size of [tn], writes inside the
    locations of the owned map only, and leaves in it the merge of the two
    trees. *)
Lemma merge_spec (tn : Object) (σ0 σ : store) (D : gset loc) (e n : loc)
    (te : Object) (fuel : nat) :
  (∀ l, l ∈ dom σ0 → σ !! l = σ0 !! l) →
  owned σ0 σ D e te →
  repr (dom σ0) σ0 (HObject n) (VObject tn) →
  (Value_size (VObject tn) ≤ fuel)%nat →
  merge_post σ0 σ D e te tn (Store.mergeObjects fuel σ e n).
Proof.
  revert σ0 σ D e n te fuel.
  change ((λ v, match v with
                | VObject tn => ∀ σ0 σ D e n te fuel,
                    (∀ l, l ∈ dom σ0 → σ !! l = σ0 !! l) →
                    owned σ0 σ D e te →
                    repr (dom σ0) σ0 (HObject n) (VObject tn) →
                    (Value_size (VObject tn) ≤ fuel)%nat →
                    merge_post σ0 σ D e te tn (Store.mergeObjects fuel σ e n)
                | _ => True
                end) (VObject tn)).
  apply Value_induction; try done. clear tn.
  intros tn IH σ0 σ D e n te fuel Hext Hown Hr Hfuel.
  destruct fuel as [|fuel]; [cbn in Hfuel; lia|].
  inversion Hr as [| |n' mn tn' Hn Hmn Hrel| | | | | | | | |]; subst.
  cbn [Store.mergeObjects]. rewrite (Hext n Hn), Hmn.
  pose proof (owned_fresh _ _ _ _ _ Hown) as HD.
  pose proof (owned_root _ _ _ _ _ Hown) as He.
  match goal with |- context [map_fold ?f ?b mn] =>
    assert (Hloop : ∀ md, md ⊆ mn →
              merge_inv σ0 σ D e te tn md (map_fold f b md))
  end.
  { intros md.
    apply (map_fold_weak_ind
             (λ st md, md ⊆ mn → merge_inv σ0 σ D e te tn md st)).
    - intros _. destruct Hown as (m & D' & Hm & Hfresh & HeD' & Hown & ->).
      exists σ, m, m, te, D', ∅.
      repeat split; try done; try set_solver.
      intros k [? Hk]. by rewrite lookup_empty in Hk.
    - clear md. intros i x md st Hi IHst Hsub.
      assert (Hmi : mn !! i = Some x).
      { eapply lookup_weaken; [|exact Hsub]. by rewrite lookup_insert_eq. }
      assert (Hmd : md ⊆ mn).
      { etrans; [|exact Hsub]. by apply insert_subseteq. }
      specialize (IHst Hmd).
      pose proof IHst as (σc & mc & _ & _ & _ & _ & -> & Hframe & _ & Hmc & _).
      rewrite Hmc.
      pose proof (Hrel i) as Hreli. rewrite Hmi in Hreli.
      inversion Hreli as [x' y Hxy Hx' Hti|]; subst. symmetry in Hti.
      destruct (both_Objects (mc !! i) x) eqn:Hboth.
      + destruct (mc !! i) as [[[]|]|] eqn:Hmci; try done.
        destruct x as [[]|]; try done.
        inversion Hxy as [hx vy Hrx|]; subst. inversion Hrx; subst.
        destruct (merge_inv_child_owned σ0 σ D e te tn md σc mc i l
                    Hi Hmc Hmci IHst) as (oe & D2 & Hte & Hchild).
        match goal with |- merge_inv _ _ _ _ _ _ _ (match ?c with _ => _ end) =>
          destruct (merge_inv_step_child σ0 σ D e te tn md σc mc i l l0 oe o
                      D2 c Hext He HD Hi Hti Hte Hmc Hmci IHst)
            as (σ' & -> & Hinv)
        end; [|exact Hinv].
        intros D2' Hchild'.
        apply (IH i (VObject o) Hti); try done.
        * intros l' Hl'. rewrite Hframe by set_solver. by apply Hext.
        * pose proof (Value_size_lookup tn i (VObject o) Hti). lia.
      + assert (Hgoal : merge_inv σ0 σ D e te tn (<[i := x]> md)
                          (Some (Store.assign σc e i x))).
        { by apply (merge_inv_step_plain σ0 σ D e te tn md σc mc i x y). }
        destruct (mc !! i) as [[[]|]|], x as [[]|]; try done. }
  specialize (Hloop mn (reflexivity mn)).
  destruct Hloop as (σc & mc & mU & oU & DU & DP & -> & Hframe & Hdom & Hmc
                     & HownU & HUP & Hsub & HeUP & Hun & Hdone).
  exists σc. repeat split; try done.
  assert (Hextc : ∀ l, l ∈ dom σ0 → σc !! l = σ0 !! l).
  { intros l Hl. rewrite Hframe by set_solver. by apply Hext. }
  apply repr_Object with (m := mc); [set_solver|done|].
  intros k. destruct (mn !! k) as [x|] eqn:Hk.
  - specialize (Hdone k (ltac:(by eexists))).
    destruct Hdone as [a b Hab|]; constructor.
    destruct Hab as [ha vb Hrb|]; constructor.
    eapply repr_mono; [| |exact Hrb]; [set_solver|done].
  - destruct (Hun k Hk) as [-> Htk].
    rewrite mergeObjects_lookup.
    pose proof (Hrel k) as Hrelk. rewrite Hk in Hrelk.
    inversion Hrelk as [|Hx Hy]. rewrite Htk.
    pose proof (owned_entries_rel σ0 σc DU mU oU Hextc HownU k) as Hent.
    destruct Hent as [a b Hab|]; constructor.
    destruct Hab as [ha vb Hrb|]; constructor.
    eapply repr_mono; [| |exact Hrb]; [set_solver|done].
Qed.

(** ** [WithFallback] *)

(** The tree that [WithFallback] builds, key by key. *)
Lemma WithFallback_lookup (O F : Object) (k : string) :
  mergeObjects (copy F) O !! k
  = match O !! k with
    | Some value =>
        match F !! k, value with
        | Some (Some (VObject f)), Some (VObject o) =>
            Some (Some (VObject (mergeObjects (copy f) o)))
        | _, _ => Some value
        end
    | None => F !! k
    end.
Proof.
  rewrite mergeObjects_lookup, !copy_id.
  destruct (O !! k) as [[[]|]|]; try done.
  destruct (F !! k) as [[[]|]|]; try done. by rewrite copy_id.
Qed.

Lemma WithFallback_dom (O F : Object) :
  dom (mergeObjects (copy F) O) = dom O ∪ dom F.
Proof.
  apply set_eq. intros k.
  rewrite elem_of_union, !elem_of_dom, WithFallback_lookup.
  destruct (O !! k) as [value|].
  - split; [intros _; left; by eexists|intros _].
    destruct (F !! k) as [[[]|]|], value as [[]|]; by eexists.
  - split; [by right|]. by intros [[? ?]|?].
Qed.

(** C3.  [WithFallback] of a Config whose root denotes the Object [O] with a
    fallback whose root denotes the Object [F], run on a store with fuel for
    the sizes of the two trees: it returns a Config whose root is a new map;
    that map comes from [copy], which builds it and every Object nested in
    it out of new maps that denote [F]; every map of the store from before
    the call holds what it held, so the two inputs denote [O] and [F] as
    before; and the new root denotes the tree [R] that [WithFallback]
    computes on trees.  The keys of [R] are those of [O] and those of [F];
    under a key where both hold an Object, [R] holds the result of
    [WithFallback] on the two; under any other key of [O], the value of [O];
    under a key of [F] only, the value of [F]. *)
Theorem WithFallback_merges (σ : store) (current fallbackObject : loc)
    (O F : Object) (fuel : nat) :
  repr (dom σ) σ (HObject current) (VObject O) →
  repr (dom σ) σ (HObject fallbackObject) (VObject F) →
  (Value_size (VObject O) + Value_size (VObject F) ≤ fuel)%nat →
  ∃ (σ' : store) (result : loc) (R : Object),
    Store.WithFallback fuel σ (mkHConfig (HObject current))
                              (mkHConfig (HObject fallbackObject))
    = Some (σ', mkHConfig (HObject result))
    ∧ WithFallback (mkConfig (VObject O)) (mkConfig (VObject F))
      = mkConfig (VObject R)
    ∧ (result ∉ dom σ)
    ∧ (∃ (σ1 : store) (D : gset loc),
         Store.copy fuel σ fallbackObject = Some (σ1, result)
         ∧ owned σ σ1 D result F ∧ D ## dom σ ∧ copy F = F)
    ∧ (∀ l, l ∈ dom σ → σ' !! l = σ !! l)
    ∧ repr (dom σ') σ' (HObject current) (VObject O)
    ∧ repr (dom σ') σ' (HObject fallbackObject) (VObject F)
    ∧ repr (dom σ') σ' (HObject result) (VObject R)
    ∧ dom R = dom O ∪ dom F
    ∧ (∀ k o f,
         O !! k = Some (Some (VObject o)) → F !! k = Some (Some (VObject f)) →
         R !! k
         = Some (Some (root (WithFallback (mkConfig (VObject o))
                                          (mkConfig (VObject f))))))
    ∧ (∀ k value,
         O !! k = Some value → is_Some (F !! k) →
         ¬ (from_option is_Object false value
            ∧ from_option (from_option is_Object false) false (F !! k)) →
         R !! k = Some value)
    ∧ (∀ k value, O !! k = Some value → F !! k = None → R !! k = Some value)
    ∧ (∀ k, O !! k = None → R !! k = F !! k).
Proof.
  intros HO HF Hfuel.
  assert (Hid : ∀ l, l ∈ dom σ → σ !! l = σ !! l) by done.
  destruct (copy_spec F σ σ fallbackObject fuel Hid HF ltac:(lia))
    as (σ1 & result & D & Hcopy & Hown & HD & Hdom1 & Hframe1).
  destruct (merge_spec O σ σ1 D result current F fuel Hframe1 Hown HO
              ltac:(lia))
    as (σ2 & Hmerge & Hframe2 & Hdom2 & Hrepr).
  pose proof (owned_root _ _ _ _ _ Hown) as Hroot.
  assert (Hframe : ∀ l, l ∈ dom σ → σ2 !! l = σ !! l).
  { intros l Hl. rewrite Hframe2 by set_solver. by apply Hframe1. }
  assert (Hsub : dom σ ⊆ dom σ2) by (rewrite Hdom2, Hdom1; set_solver).
  exists σ2, result, (mergeObjects (copy F) O).
  split. { unfold Store.WithFallback. cbn [hroot]. by rewrite Hcopy, Hmerge. }
  split; [reflexivity|].
  split; [set_solver|].
  split. { exists σ1, D. repeat split; try done. apply copy_id. }
  split; [exact Hframe|].
  split; [by eapply repr_mono; [| |exact HO]|].
  split; [by eapply repr_mono; [| |exact HF]|].
  split.
  { rewrite copy_id. eapply repr_mono; [| |exact Hrepr]; [|done].
    rewrite Hdom2, Hdom1. set_solver. }
  split; [apply WithFallback_dom|].
  split. { intros k o f Ho Hf. by rewrite WithFallback_lookup, Ho, Hf. }
  split.
  { intros k value Ho [vf Hf] Hnot. rewrite WithFallback_lookup, Ho, Hf.
    rewrite Hf in Hnot. destruct vf as [[]|]; try done.
    destruct value as [[]|]; try done. exfalso. by apply Hnot. }
  split. { intros k value Ho Hf. by rewrite WithFallback_lookup, Ho, Hf. }
  intros k Ho. by rewrite WithFallback_lookup, Ho.
Qed.

Lemma example_override_repr :
  repr (dom example_store) example_store (HObject 1%positive)
       (VObject example_override).
Proof.
  apply repr_Object with
    (m := <["a" := Some (HString "aa")]> (<["n" := Some (HObject 3%positive)]> ∅));
    [by vm_compute|reflexivity|].
  repeat (apply entries_rel_insert; [|constructor]);
    [apply entries_rel_empty| |constructor].
  apply repr_Object with (m := <["x" := Some (HInt 1)]> ∅);
    [by vm_compute|reflexivity|].
  apply entries_rel_insert; [apply entries_rel_empty|repeat constructor].
Qed.

Lemma example_fallback_repr :
  repr (dom example_store) example_store (HObject 2%positive)
       (VObject example_fallback).
Proof.
  apply repr_Object with
    (m := <["a" := Some (HString "aaa")]>
          (<["c" := Some (HString "cc")]>
          (<["n" := Some (HObject 4%positive)]> ∅)));
    [by vm_compute|reflexivity|].
  repeat (apply entries_rel_insert; [|constructor]);
    [apply entries_rel_empty| |constructor|constructor].
  apply repr_Object with (m := <["y" := Some (HInt 2)]> ∅);
    [by vm_compute|reflexivity|].
  apply entries_rel_insert; [apply entries_rel_empty|repeat constructor].
Qed.

(** The run of [Store.WithFallback] on the example: the result is the new
    map at location 5 with a new nested map at location 6, and the maps at
    locations 1 to 4 are as before. *)
Example example_WithFallback_run :
  Store.WithFallback 10 example_store (mkHConfig (HObject 1%positive))
                                      (mkHConfig (HObject 2%positive))
  = Some (<[5%positive := <["a" := Some (HString "aa")]>
                          (<["c" := Some (HString "cc")]>
                          (<["n" := Some (HObject 6%positive)]> ∅))]>
          (<[6%positive := <["x" := Some (HInt 1)]>
                           (<["y" := Some (HInt 2)]> ∅)]> example_store),
          mkHConfig (HObject 5%positive)).
Proof. vm_compute. reflexivity. Qed.

Lemma WithFallback_merges_witness :
  repr (dom example_store) example_store (HObject 1%positive)
       (VObject example_override)
  ∧ repr (dom example_store) example_store (HObject 2%positive)
         (VObject example_fallback)
  ∧ (Value_size (VObject example_override)
     + Value_size (VObject example_fallback) ≤ 10)%nat
  ∧ ∃ (σ' : store) (result : loc) (R : Object),
      Store.WithFallback 10 example_store (mkHConfig (HObject 1%positive))
                                          (mkHConfig (HObject 2%positive))
      = Some (σ', mkHConfig (HObject result))
      ∧ (result ∉ dom example_store)
      ∧ repr (dom σ') σ' (HObject result) (VObject R)
      ∧ dom R = dom example_override ∪ dom example_fallback.
Proof.
  assert (Hsize : (Value_size (VObject example_override)
                   + Value_size (VObject example_fallback) ≤ 10)%nat).
  { vm_compute. lia. }
  split; [exact example_override_repr|].
  split; [exact example_fallback_repr|].
  split; [exact Hsize|].
  destruct (WithFallback_merges example_store 1%positive 2%positive
              example_override example_fallback 10
              example_override_repr example_fallback_repr Hsize)
    as (σ' & result & R & Hrun & _ & Hnew & _ & _ & _ & _ & Hrepr & Hdom & _).
  exists σ', result, R. by repeat split.
Defined.

(** C4.  When the root of the receiver is not an Object, or the root of the
    fallback is not an Object, [WithFallback] returns the receiver; on a
    store it returns the receiver and the store as they were. *)
Theorem WithFallback_non_object (c fallback : Config) :
  is_Object (root c) = false ∨ is_Object (root fallback) = false →
  WithFallback c fallback = c
  ∧ ∀ (fuel : nat) (σ : store) (hc hf : HConfig),
      repr (dom σ) σ (hroot hc) (root c) →
      repr (dom σ) σ (hroot hf) (root fallback) →
      Store.WithFallback fuel σ hc hf = Some (σ, hc).
Proof.
  intros Hnot. split.
  - unfold WithFallback. destruct Hnot as [Hc | Hf].
    + by destruct (root c).
    + destruct (root c); try done. by destruct (root fallback).
  - intros fuel σ hc hf Hc Hf. unfold Store.WithFallback.
    apply repr_is_Object in Hc, Hf.
    destruct Hnot as [Hnot | Hnot]; rewrite Hnot in *.
    + by destruct (hroot hc).
    + destruct (hroot hc); try done. by destruct (hroot hf).
Qed.

Lemma WithFallback_non_object_witness :
  let c1 := mkConfig (VObject {[ "a" := Some (VString "aa") ]}) in
  let c3 := mkConfig (VArray [Some (VInt 1); Some (VInt 2)]) in
  WithFallback c1 c3 = c1 ∧ WithFallback c3 c1 = c3.
Proof.
  intros c1 c3. split.
  - apply (WithFallback_non_object c1 c3). by right.
  - apply (WithFallback_non_object c3 c1). by left.
Defined.

(** * Further properties of config.go

    ** Path lookup *)

Lemma Split_nonempty (s : string) (c : ascii) : strings_Split s c ≠ [].
Proof.
  destruct s as [|a s]; [done|]. cbn [strings_Split].
  destruct (decide (a = c)); [done|]. by destruct (strings_Split s c).
Qed.

(** No segment of a split path holds the separator. *)
Lemma Split_segments_no_sep (s : string) (c : ascii) (seg : string) :
  seg ∈ strings_Split s c → has_byte c seg = false.
Proof.
  revert seg. induction s as [|a s IH]; intros seg Hin.
  { cbn in Hin. apply list_elem_of_singleton in Hin. by subst. }
  cbn [strings_Split] in Hin. destruct (decide (a = c)) as [->|Hne].
  - apply elem_of_cons in Hin as [->|Hin]; [done|by apply IH].
  - destruct (strings_Split s c) as [|x xs] eqn:E.
    { by destruct (Split_nonempty s c). }
    apply elem_of_cons in Hin as [->|Hin].
    + cbn [has_byte]. destruct (decide (a = c)); [done|].
      apply IH. by left.
    + apply IH. by right.
Qed.

(** Splitting two paths joined by the separator gives the segments of the
    first, then those of the second. *)
Lemma Split_join (p q : string) (c : ascii) :
  strings_Split (p +:+ String c q) c = strings_Split p c ++ strings_Split q c.
Proof.
  induction p as [|a p IH].
  { rewrite string_app_nil_l. cbn [strings_Split].
    by destruct (decide (c = c)). }
  rewrite string_app_cons. cbn [strings_Split].
  destruct (decide (a = c)); [by rewrite IH|].
  rewrite IH. destruct (strings_Split p c) as [|x xs] eqn:E; [|done].
  by destruct (Split_nonempty p c).
Qed.

Lemma List_last_app {A : Type} (l1 l2 : list A) (d : A) :
  l2 ≠ [] → List.last (l1 ++ l2) d = List.last l2 d.
Proof.
  intros Hne. induction l1 as [|x l1 IH]; [done|].
  cbn [app List.last]. rewrite IH. destruct (l1 ++ l2) eqn:E; [|done].
  apply app_eq_nil in E as [_ ->]. done.
Qed.

Lemma walk_snoc (keys : list string) (key : string) (o obj sub : Object) :
  walk keys o = Some obj →
  obj !! key = Some (Some (VObject sub)) →
  walk (keys ++ [key]) o = Some sub.
Proof.
  revert o. induction keys as [|k keys IH]; intros o Hwalk Hkey.
  { cbn in Hwalk. simplify_eq. cbn. by rewrite Hkey. }
  cbn [walk app] in *. destruct (o !! k) as [[[]|]|]; try done. by apply IH.
Qed.

Lemma find_loop_app (keys1 keys2 : list string) (o obj : Object)
    (lastKey : string) :
  walk keys1 o = Some obj →
  find_loop (keys1 ++ keys2) o lastKey = find_loop keys2 obj lastKey.
Proof.
  revert o. induction keys1 as [|k keys1 IH]; intros o Hwalk.
  { cbn in Hwalk. by simplify_eq. }
  cbn [walk app find_loop] in *.
  destruct (o !! k) as [[[]|]|]; try done. by apply IH.
Qed.

Lemma find_loop_found (keys : list string) (o : Object) (lastKey : string)
    (v : Value) :
  find_loop keys o lastKey = Returns (Some v) →
  ∃ obj, walk keys o = Some obj ∧ obj !! lastKey = Some (Some v).
Proof.
  revert o. induction keys as [|k keys IH]; intros o Hfind.
  - cbn in Hfind. exists o. split; [done|].
    destruct (o !! lastKey) as [[]|]; cbn in Hfind; by simplify_eq.
  - cbn [find_loop walk] in *. destruct (o !! k) as [[[]|]|]; try done.
    by apply IH.
Qed.

(** Where a walk stops: at a missing key, or at a key bound to nil or to a
    value that is not an Object. *)
Lemma walk_None_split (keys : list string) (o : Object) :
  walk keys o = None →
  ∃ pre key rest obj,
    keys = pre ++ key :: rest ∧ walk pre o = Some obj
    ∧ (obj !! key = None
       ∨ ∃ x, obj !! key = Some x ∧ from_option is_Object false x = false).
Proof.
  revert o. induction keys as [|k keys IH]; intros o Hwalk; [done|].
  cbn [walk] in Hwalk.
  destruct (o !! k) as [[v|]|] eqn:Hk.
  - destruct (is_Object v) eqn:Hv.
    + destruct v; try done.
      destruct (IH _ Hwalk) as (pre & key & rest & obj & -> & Hpre & Hkey).
      exists (k :: pre), key, rest, obj. split; [done|]. split; [|done].
      cbn [walk]. by rewrite Hk.
    + exists [], k, keys, o. repeat split. right. by exists (Some v).
  - exists [], k, keys, o. repeat split. right. by exists None.
  - exists [], k, keys, o. repeat split. by left.
Qed.

(** X1.  What [find] does, for every Object and every path.  When every
    segment before the last is bound to an Object, it returns what the last
    segment is bound to in the innermost of them (nil for a missing key and
    for a key bound to nil).  When the walk first stops at a missing key, it
    returns nil.  When the walk first stops at a key bound to nil or to a
    value that is not an Object, it panics at the type assertion.  One of
    the three is always the case. *)
Theorem find_characterised (o : Object) (path : string) :
  (∀ obj, walk (path_init path) o = Some obj →
          find o path = Returns (mjoin (obj !! path_last path)))
  ∧ (∀ pre key rest obj,
       path_init path = pre ++ key :: rest → walk pre o = Some obj →
       obj !! key = None →
       find o path = Returns None)
  ∧ (∀ pre key rest obj x,
       path_init path = pre ++ key :: rest → walk pre o = Some obj →
       obj !! key = Some x → from_option is_Object false x = false →
       find o path = Panics InterfaceConversion)
  ∧ (is_Some (walk (path_init path) o)
     ∨ ∃ pre key rest obj,
         path_init path = pre ++ key :: rest ∧ walk pre o = Some obj
         ∧ (obj !! key = None
            ∨ ∃ x, obj !! key = Some x
                   ∧ from_option is_Object false x = false)).
Proof.
  rewrite find_unfold. repeat split.
  - intros obj Hwalk. by apply find_loop_walk.
  - intros pre key rest obj -> Hwalk Hkey. by eapply find_loop_missing.
  - intros pre key rest obj x -> Hwalk Hkey Hx. by eapply find_loop_panics.
  - destruct (walk (path_init path) o) as [obj|] eqn:Hwalk; [left; by eexists|].
    right. by apply walk_None_split.
Qed.

(** X2.  [find] indexes with segments that hold no dot.  A path without a
    dot is a plain index of the Object and never panics; a key that holds a
    dot is out of reach: no path finds it, and taking it out of the Object
    changes no lookup. *)
Theorem find_reaches_dot_free_keys (o : Object) :
  (∀ k, has_byte dotToken k = false → find o k = Returns (mjoin (o !! k)))
  ∧ (∀ k path, has_byte dotToken k = true →
       find o path = find (delete k o) path
       ∧ Get (mkConfig (VObject o)) path
         = Get (mkConfig (VObject (delete k o))) path).
Proof.
  split.
  - intros k Hk. unfold find. by rewrite (Split_no_sep k dotToken Hk).
  - intros k path Hk.
    assert (Hfind : find o path = find (delete k o) path); [|by rewrite !Get_Object].
    rewrite !find_unfold. unfold path_init, path_last.
    pose proof (Split_nonempty path dotToken) as Hne.
    pose proof (Split_segments_no_sep path dotToken) as Hseg.
    destruct (strings_Split path dotToken) as [|seg segs]; [done|].
    destruct segs as [|seg' segs].
    + cbn. rewrite lookup_delete_ne; [done|].
      intros ->. rewrite Hseg in Hk; [done|by left].
    + cbn [removelast find_loop].
      rewrite lookup_delete_ne; [done|].
      intros ->. rewrite Hseg in Hk; [done|by left].
Qed.

(** X3.  Lookup composes with [GetConfig]: when [GetConfig] succeeds for
    [p], [Get] of [q] on the Config it returns is [Get] of [p.q] on the
    receiver, panics included. *)
Theorem Get_through_GetConfig (c c' : Config) (p q : string) :
  GetConfig c p = Returns (Some c', nil_error) →
  Get c (p +:+ "." +:+ q) = Get c' q.
Proof.
  intros HGC. unfold GetConfig, GetObject in HGC.
  destruct (Get_cases c p) as [[Hroot HGet]|(o & Hroot & HGet)];
    rewrite HGet in HGC; [done|].
  destruct (find o p) as [[v|]|] eqn:Hfind; cbn in HGC; try done.
  destruct v; cbn in HGC; try done. injection HGC as <-.
  rewrite find_unfold in Hfind.
  apply find_loop_found in Hfind as (obj & Hwalk & Hlast).
  destruct c as [r]. cbn in Hroot. subst r.
  rewrite Get_Object. unfold ToConfig. rewrite Get_Object, !find_unfold.
  unfold path_init, path_last in *.
  change (p +:+ "." +:+ q) with (p +:+ String dotToken q).
  rewrite Split_join.
  pose proof (Split_nonempty q dotToken) as Hq.
  pose proof (Split_nonempty p dotToken) as Hp.
  rewrite removelast_app, List_last_app by done.
  rewrite (app_removelast_last EmptyString Hp) at 1.
  apply find_loop_app. by eapply walk_snoc.
Qed.

Section LookupExtras.
Context `{!GoLib}.

(** X4.  A Config whose root is not an Object: [Get] returns nil for every
    path and every typed getter returns the not-found error; none of them
    panics.  The tag test of [Get] holds exactly for an Object, so the type
    assertion after it cannot fail. *)
Theorem non_Object_root_finds_nothing (c : Config) (path : string) :
  is_Object (root c) = false →
  Value_Type (root c) ≠ ObjectType
  ∧ Get c path = Returns None
  ∧ GetObject c path = Returns (None, not_found path)
  ∧ GetConfig c path = Returns (None, not_found path)
  ∧ GetStringMap c path = Returns (None, not_found path)
  ∧ GetStringMapString c path = Returns (None, not_found path)
  ∧ GetArray c path = Returns (None, not_found path)
  ∧ GetIntSlice c path = Returns (None, not_found path)
  ∧ GetStringSlice c path = Returns (None, not_found path)
  ∧ GetString c path = Returns (EmptyString, not_found path)
  ∧ GetInt c path = Returns (0, not_found path)
  ∧ GetFloat32 c path = Returns (0, not_found path)
  ∧ GetFloat64 c path = Returns (0, not_found path)
  ∧ GetBoolean c path = Returns (false, not_found path)
  ∧ GetDuration c path = Returns (0, not_found path).
Proof.
  intros Hroot. split; [by destruct (root c)|].
  pose proof (Get_non_Object c path Hroot) as HGet.
  split; [done|]. by apply getters_not_found.
Qed.

End LookupExtras.

Lemma Get_through_GetConfig_witness :
  let inner : Object := {[ "b" := Some (VInt 1) ]} in
  let c := mkConfig (VObject {[ "a" := Some (VObject inner) ]}) in
  GetConfig c "a" = Returns (Some (ToConfig inner), nil_error)
  ∧ Get c "a.b" = Get (ToConfig inner) "b".
Proof.
  intros inner c.
  assert (HGC : GetConfig c "a" = Returns (Some (ToConfig inner), nil_error))
    by reflexivity.
  split; [exact HGC|].
  exact (Get_through_GetConfig c (ToConfig inner) "a" "b" HGC).
Defined.

Lemma non_Object_root_finds_nothing_witness :
  let c := mkConfig (VArray [Some (VInt 1)]) in
  is_Object (root c) = false
  ∧ @GetString exampleLib c "a"
    = Returns (EmptyString, Some "config value not found at path: a").
Proof.
  intros c. split; [reflexivity|].
  pose proof (@non_Object_root_finds_nothing exampleLib c "a" eq_refl)
    as (_ & _ & _ & _ & _ & _ & _ & _ & _ & HS & _).
  exact HS.
Defined.

(** ** The slice and map getters *)

Lemma IntSlice_loop_Ints (ints slice : list Z) :
  IntSlice_loop (map (λ i, Some (VInt i)) ints) slice = Some (slice ++ ints).
Proof.
  revert slice. induction ints as [|i ints IH]; intros slice.
  { cbn. by rewrite app_nil_r. }
  cbn [map IntSlice_loop]. rewrite IH. by rewrite <- app_assoc.
Qed.

Lemma IntSlice_loop_Some (arr : Array) (slice out : list Z) :
  IntSlice_loop arr slice = Some out →
  ∃ ints, arr = map (λ i, Some (VInt i)) ints ∧ out = slice ++ ints.
Proof.
  revert slice. induction arr as [|v arr IH]; intros slice Hloop.
  { cbn in Hloop. simplify_eq. exists []. by rewrite app_nil_r. }
  destruct v as [[]|]; cbn in Hloop; try done.
  destruct (IH _ Hloop) as (ints & -> & ->).
  exists (i :: ints). by rewrite <- app_assoc.
Qed.

(** X5.  [GetIntSlice] on a path bound to an Array: it returns the integers
    of the elements, in order, exactly when every element is an Int; when
    one element is nil or of another kind (a String of digits included) it
    returns a nil slice and [config value at path: <path> is not an array of
    integers]. *)
Theorem GetIntSlice_spec (c : Config) (path : string) (arr : Array) :
  Get c path = Returns (Some (VArray arr)) →
  (∀ ints, arr = map (λ i, Some (VInt i)) ints
           ↔ GetIntSlice c path = Returns (Some ints, nil_error))
  ∧ ((∀ ints, arr ≠ map (λ i, Some (VInt i)) ints) ↔
       GetIntSlice c path
       = Returns (None, Some ("config value at path: " +:+ path
                              +:+ " is not an array of integers"))).
Proof.
  intros HGet. unfold GetIntSlice. rewrite HGet. cbn [obind]. split.
  - intros ints. split.
    + intros ->. by rewrite IntSlice_loop_Ints.
    + destruct (IntSlice_loop arr []) as [out|] eqn:Hloop; [|done].
      intros Heq. injection Heq as ->.
      by destruct (IntSlice_loop_Some _ _ _ Hloop) as (ints' & -> & ->).
  - split.
    + intros Hnot. destruct (IntSlice_loop arr []) as [out|] eqn:Hloop; [|done].
      destruct (IntSlice_loop_Some _ _ _ Hloop) as (ints' & -> & _).
      by destruct (Hnot ints').
    + intros Herr ints ->. by rewrite IntSlice_loop_Ints in Herr.
Qed.

Lemma GetIntSlice_spec_witness :
  let c := mkConfig (VObject
             {[ "a" := Some (VArray [Some (VInt 1); Some (VInt 2)]) ]}) in
  Get c "a" = Returns (Some (VArray [Some (VInt 1); Some (VInt 2)]))
  ∧ GetIntSlice c "a" = Returns (Some [1; 2], nil_error).
Proof.
  intros c. split; [reflexivity|].
  pose proof (GetIntSlice_spec c "a" [Some (VInt 1); Some (VInt 2)] eq_refl)
    as [Hs _].
  by apply (Hs [1; 2]).
Defined.

Section SliceExtras.
Context `{!GoLib}.

(** X6.  [GetStringSlice] on a path bound to an Array calls [String()] on
    every element, in order.  When no element is nil and the rendering of
    no element meets a nil element of an Array, it returns the String()
    forms of the elements, one for each element and in the order of the
    Array, whatever their kinds.  Otherwise, and so for an Array that holds
    a nil element, the call panics with a nil dereference. *)
Theorem GetStringSlice_spec (c : Config) (path : string) (arr : Array) :
  Get c path = Returns (Some (VArray arr)) →
  GetStringSlice c path
  = (texts ←! outcome_mapM (method_call Value_String) arr;;
     Returns (Some texts, nil_error))
  ∧ (hits_nil (VArray arr) = false →
     ∃ texts,
       GetStringSlice c path = Returns (Some texts, nil_error)
       ∧ Forall2 (λ x text, ∃ v, x = Some v ∧ Value_String v = Returns text)
           arr texts)
  ∧ (hits_nil (VArray arr) = true →
     GetStringSlice c path = Panics NilDereference)
  ∧ (None ∈ arr → GetStringSlice c path = Panics NilDereference).
Proof.
  intros HGet. rewrite (GetStringSlice_Array c path arr HGet).
  pose proof (StringSlice_texts arr) as Ht.
  split; [done|]. split; [|split].
  - intros Hnil. rewrite Hnil in Ht. destruct Ht as (texts & -> & Hall).
    by exists texts.
  - intros Hnil. rewrite Hnil in Ht. by rewrite Ht.
  - intros Hin.
    assert (Hnil : hits_nil (VArray arr) = true)
      by (apply hits_nil_Array; by left).
    rewrite Hnil in Ht. by rewrite Ht.
Qed.

(** X7.  [GetStringMapString] on a path bound to an Object.  When no value
    of the Object is nil and every value renders, it returns a map with the
    keys of the Object, each bound to the String() form of its value (for a
    nested Object, its JSON text: nothing is flattened).  When a value is
    nil, the call panics with a nil dereference, where the renderers of the
    same Object write [null]; it panics too when the rendering of a value
    meets a nil element of an Array. *)
Theorem GetStringMapString_spec (c : Config) (path : string) (object : Object) :
  Get c path = Returns (Some (VObject object)) →
  ((∀ k x, object !! k = Some x → from_option hits_nil true x = false) →
     ∃ m : gmap string string,
       GetStringMapString c path = Returns (Some m, nil_error)
       ∧ dom m = dom object
       ∧ ∀ k v, object !! k = Some (Some v) →
                ∃ text, Value_String v = Returns text ∧ m !! k = Some text)
  ∧ ((∃ k, object !! k = Some None) →
       GetStringMapString c path = Panics NilDereference)
  ∧ ((∃ k v, object !! k = Some (Some v) ∧ hits_nil v = true) →
       GetStringMapString c path = Panics NilDereference).
Proof.
  intros HGet. unfold GetStringMapString. rewrite HGet. cbn [obind].
  destruct (StringMapString_loop object)
    as [[-> (k0 & x0 & Hk0 & Hx0)]|(m & -> & Hok & Hdom & Hm)];
    (split; [|split]).
  - intros Hall. by rewrite (Hall k0 x0 Hk0) in Hx0.
  - done.
  - done.
  - intros _. cbn [obind]. by exists m.
  - intros [k Hk]. by specialize (Hok k None Hk).
  - intros (k & v & Hk & Hv). specialize (Hok k (Some v) Hk). cbn in Hok.
    congruence.
Qed.

End SliceExtras.

Lemma GetStringSlice_spec_witness :
  let arr : Array := [Some (VInt 1); Some (VString "c")] in
  let bad : Array := [Some (VInt 1); None] in
  let c := mkConfig (VObject {[ "b" := Some (VArray arr) ]}) in
  let c' := mkConfig (VObject {[ "b" := Some (VArray bad) ]}) in
  Get c "b" = Returns (Some (VArray arr))
  ∧ @GetStringSlice exampleLib c "b" = Returns (Some ["1"; "c"], nil_error)
  ∧ Get c' "b" = Returns (Some (VArray bad))
  ∧ @GetStringSlice exampleLib c' "b" = Panics NilDereference.
Proof.
  intros arr bad c c'. split; [reflexivity|]. split.
  - exact (proj1 (@GetStringSlice_spec exampleLib c "b" arr eq_refl)).
  - split; [reflexivity|].
    pose proof (@GetStringSlice_spec exampleLib c' "b" bad eq_refl)
      as (_ & _ & Hp & _).
    by apply Hp.
Defined.

Lemma GetStringMapString_spec_witness :
  let object : Object := {[ "b" := None ]} in
  let c := mkConfig (VObject {[ "a" := Some (VObject object) ]}) in
  Get c "a" = Returns (Some (VObject object))
  ∧ @GetStringMapString exampleLib c "a" = Panics NilDereference.
Proof.
  intros object c. split; [reflexivity|].
  pose proof (@GetStringMapString_spec exampleLib c "a" object eq_refl)
    as (_ & Hp & _).
  apply Hp. exists "b". reflexivity.
Defined.

(** ** Booleans and integers as text *)

(** X8.  [newBooleanFromString] and the String branch of [GetBoolean]
    accept the same words with the same meaning: on a path bound to a
    String, [GetBoolean] returns a boolean without error exactly when
    [newBooleanFromString] does for that String, and fails exactly when it
    fails. *)
Theorem GetBoolean_agrees_with_newBooleanFromString (c : Config)
    (path s : string) :
  Get c path = Returns (Some (VString s)) →
  (∀ b, newBooleanFromString s = (b, nil_error)
        ↔ GetBoolean c path = Returns (b, nil_error))
  ∧ (newBooleanFromString s
       = (false, Some ("cannot parse value: " +:+ s +:+ " to Boolean"))
     ↔ GetBoolean c path
       = Returns (false, Some ("cannot parse value: " +:+ path +:+ " to boolean"))).
Proof.
  intros HGet. unfold GetBoolean, newBooleanFromString. rewrite HGet.
  cbn [obind]. unfold fmt_Errorf, nil_error.
  repeat case_bool_decide; split; try intros b; split; intros Heq;
    by simplify_eq.
Qed.

Lemma GetBoolean_agrees_with_newBooleanFromString_witness :
  let c := mkConfig (VObject {[ "h" := Some (VString "off") ]}) in
  Get c "h" = Returns (Some (VString "off"))
  ∧ newBooleanFromString "off" = (false, nil_error)
  ∧ GetBoolean c "h" = Returns (false, nil_error).
Proof.
  intros c. split; [reflexivity|]. split; [reflexivity|].
  pose proof (GetBoolean_agrees_with_newBooleanFromString c "h" "off" eq_refl)
    as [Hb _].
  by apply (Hb false).
Defined.

Section TextExtras.
Context `{!GoLib}.

(** X9.  An Int read as a string and read back: when a path is bound to
    an Int that fits in 64 bits, [GetString] returns its decimal text, and
    [GetInt] on any path bound to a String with that text returns the same
    integer. *)
Theorem GetInt_reads_back_GetString (c c' : Config) (path path' : string)
    (i : Z) :
  Get c path = Returns (Some (VInt i)) →
  int_min <= i <= int_max →
  ∃ s, GetString c path = Returns (s, nil_error)
       ∧ (Get c' path' = Returns (Some (VString s)) →
          GetInt c' path' = Returns (i, nil_error)).
Proof.
  intros HGet Hrange. exists (strconv_Itoa i). split.
  - unfold GetString. by rewrite HGet.
  - intros HGet'. unfold GetInt. rewrite HGet'. cbn [obind].
    by rewrite Atoi_Itoa.
Qed.

End TextExtras.

Lemma GetInt_reads_back_GetString_witness :
  let c := mkConfig (VObject {[ "c" := Some (VInt (-42)) ]}) in
  let c' := mkConfig (VObject {[ "s" := Some (VString "-42") ]}) in
  Get c "c" = Returns (Some (VInt (-42)))
  ∧ int_min <= -42 <= int_max
  ∧ ∃ s, @GetString exampleLib c "c" = Returns (s, nil_error)
         ∧ GetInt c' "s" = Returns (-42, nil_error).
Proof.
  intros c c'.
  assert (Hrange : int_min <= -42 <= int_max) by (unfold int_min, int_max; lia).
  split; [reflexivity|]. split; [exact Hrange|].
  destruct (@GetInt_reads_back_GetString exampleLib c c' "c" "s" (-42)
              eq_refl Hrange) as (s & HS & HI).
  exists s. split; [exact HS|]. apply HI.
  unfold GetString in HS. cbn in HS. injection HS as <-. reflexivity.
Defined.

(** ** [copy] *)

(** X10.  On trees, [copy] rebuilds the Object it is given: the copy has
    the keys of the original, under every key the value of the original
    (a nested Object copied in turn), and is equal to the original. *)
Theorem copy_rebuilds_the_Object (o : Object) :
  copy o = o
  ∧ dom (copy o) = dom o
  ∧ ∀ k, copy o !! k
         = match o !! k with
           | Some (Some (VObject subObject)) =>
               Some (Some (VObject (copy subObject)))
           | x => x
           end.
Proof.
  split; [apply copy_id|]. split; [by rewrite copy_id|]. apply copy_lookup.
Qed.

Lemma copy_share_step_plain (σ : store) (r : loc) (md : cells) (σc : store)
    (i : string) (x : option HValue) :
  r ∉ dom σ →
  md !! i = None →
  from_option is_HObject false x = false →
  copy_share_inv σ r md (Some σc) →
  copy_share_inv σ r (<[i := x]> md) (Some (Store.assign σc r i x)).
Proof.
  intros Hr Hi Hx (σc' & mr & Hst & Hmr & Hframe & Hnone & Hplain & Hobj).
  injection Hst as <-.
  exists (Store.assign σc r i x), (<[i := x]> mr).
  split; [done|]. split; [by apply assign_lookup|].
  split.
  { intros l Hl. rewrite assign_lookup_ne by set_solver. by apply Hframe. }
  split.
  { intros k Hk. destruct (decide (i = k)) as [->|Hne].
    - by rewrite lookup_insert_eq in Hk.
    - rewrite lookup_insert_ne in Hk by done.
      rewrite lookup_insert_ne by done. by apply Hnone. }
  split.
  - intros k y Hk Hy. destruct (decide (i = k)) as [->|Hne].
    + rewrite lookup_insert_eq in Hk. injection Hk as <-.
      by rewrite lookup_insert_eq.
    + rewrite lookup_insert_ne in Hk by done.
      rewrite lookup_insert_ne by done. by apply Hplain.
  - intros k sub Hk. destruct (decide (i = k)) as [->|Hne].
    + rewrite lookup_insert_eq in Hk. injection Hk as ->. done.
    + rewrite lookup_insert_ne in Hk by done.
      rewrite lookup_insert_ne by done. by apply (Hobj k sub).
Qed.

Lemma copy_share_step_child (σ : store) (r : loc) (md : cells) (σc : store)
    (i : string) (sub : loc) (osub : Object) (res : option (store * loc)) :
  r ∉ dom σ →
  md !! i = None →
  copy_share_inv σ r md (Some σc) →
  copy_post σ σc osub res →
  ∃ σ' subCopy,
    res = Some (σ', subCopy)
    ∧ copy_share_inv σ r (<[i := Some (HObject sub)]> md)
        (Some (Store.assign σ' r i (Some (HObject subCopy)))).
Proof.
  intros Hr Hi (σc' & mr & Hst & Hmr & Hframe & Hnone & Hplain & Hobj)
         (σ' & subCopy & D & -> & Hown & HD & Hdom' & Hframe').
  injection Hst as <-. exists σ', subCopy. split; [done|].
  pose proof (owned_root _ _ _ _ _ Hown) as Hsub.
  assert (Hrc : r ∈ dom σc) by (apply elem_of_dom; by eexists).
  assert (Hσc : dom σ ⊆ dom σc) by (by apply store_dom_agree).
  exists (Store.assign σ' r i (Some (HObject subCopy))),
         (<[i := Some (HObject subCopy)]> mr).
  split; [done|].
  split; [apply assign_lookup; by rewrite Hframe'|].
  split.
  { intros l Hl. rewrite assign_lookup_ne by set_solver.
    rewrite Hframe' by set_solver. by apply Hframe. }
  split.
  { intros k Hk. destruct (decide (i = k)) as [->|Hne].
    - by rewrite lookup_insert_eq in Hk.
    - rewrite lookup_insert_ne in Hk by done.
      rewrite lookup_insert_ne by done. by apply Hnone. }
  split.
  - intros k y Hk Hy. destruct (decide (i = k)) as [->|Hne].
    + rewrite lookup_insert_eq in Hk. injection Hk as <-. done.
    + rewrite lookup_insert_ne in Hk by done.
      rewrite lookup_insert_ne by done. by apply Hplain.
  - intros k sub0 Hk. destruct (decide (i = k)) as [->|Hne].
    + rewrite lookup_insert_eq. exists subCopy. split; [done|]. set_solver.
    + rewrite lookup_insert_ne in Hk by done.
      rewrite lookup_insert_ne by done. by apply (Hobj k sub0).
Qed.

(** X11.  [copy] on the store, for an Object that denotes a tree and with
    fuel for its size: the result is a map that did not exist; every map
    that existed holds what it held; the result has the keys of the
    original; a value that is not an Object (an Array and what it holds
    included) is stored in the copy as it is, without being copied in turn;
    an Object is stored as another map that did not exist; the copy and the
    original denote the same tree; and an assignment to a key of the copy
    leaves the tree of the original as it was. *)
Theorem copy_is_deep_for_Objects_only (σ : store) (l : loc) (o : Object)
    (fuel : nat) :
  repr (dom σ) σ (HObject l) (VObject o) →
  (Value_size (VObject o) ≤ fuel)%nat →
  ∃ (σ' : store) (r : loc) (m mr : cells),
    Store.copy fuel σ l = Some (σ', r)
    ∧ σ !! l = Some m
    ∧ σ' !! r = Some mr
    ∧ (r ∉ dom σ)
    ∧ (∀ l', l' ∈ dom σ → σ' !! l' = σ !! l')
    ∧ dom mr = dom m
    ∧ (∀ k x, m !! k = Some x → from_option is_HObject false x = false →
              mr !! k = Some x)
    ∧ (∀ k sub, m !! k = Some (Some (HObject sub)) →
                ∃ sub', mr !! k = Some (Some (HObject sub'))
                        ∧ (sub' ∉ dom σ) ∧ sub' ≠ r)
    ∧ repr (dom σ') σ' (HObject r) (VObject o)
    ∧ repr (dom σ') σ' (HObject l) (VObject o)
    ∧ (∀ k x, repr (dom σ') (Store.assign σ' r k x) (HObject l) (VObject o)).
Proof.
  intros Hr Hfuel.
  assert (Hid : ∀ l, l ∈ dom σ → σ !! l = σ !! l) by done.
  destruct (copy_spec o σ σ l fuel Hid Hr Hfuel)
    as (σ' & r & D & Hcopy & Hown & HD & Hdom & Hframe).
  destruct fuel as [|fuel]; [done|].
  inversion Hr as [| |l' m o' Hl Hm Hrel| | | | | | | | |]; subst.
  pose proof Hcopy as Hrun.
  cbn [Store.copy] in Hcopy. rewrite Hm in Hcopy.
  pose proof (new_Object_fresh σ) as Hfresh.
  set (r0 := Store.new_Object σ) in *.
  match type of Hcopy with context [map_fold ?f ?b m] =>
    assert (Hloop : ∀ md, md ⊆ m → copy_share_inv σ r0 md (map_fold f b md))
  end.
  { intros md.
    apply (map_fold_weak_ind (λ st md, md ⊆ m → copy_share_inv σ r0 md st)).
    - intros _. exists (<[r0 := ∅]> σ), ∅.
      split; [done|]. split; [by rewrite lookup_insert_eq|].
      split; [intros l' Hl'; rewrite lookup_insert_ne by set_solver; done|].
      split; [done|]. split; intros k ? Hk; by rewrite lookup_empty in Hk.
    - clear md. intros i x md st Hi IHst Hsub.
      assert (Hmi : m !! i = Some x).
      { eapply lookup_weaken; [|exact Hsub]. by rewrite lookup_insert_eq. }
      assert (Hmd : md ⊆ m).
      { etrans; [|exact Hsub]. by apply insert_subseteq. }
      specialize (IHst Hmd).
      pose proof IHst as (σc & mr & -> & _ & Hframec & _).
      destruct (from_option is_HObject false x) eqn:Hx.
      + destruct x as [[]|]; try done.
        pose proof (Hrel i) as Hreli. rewrite Hmi in Hreli.
        inversion Hreli as [x' y Hxy Hx' Hoi|]; subst. symmetry in Hoi.
        inversion Hxy as [h v Hhv|]; subst. inversion Hhv; subst.
        match goal with
        | |- copy_share_inv _ _ _ (match ?c with _ => _ end) =>
            assert (Hpost : copy_post σ σc o0 c)
        end.
        { apply copy_spec; [done|done|].
          pose proof (Value_size_lookup o i (VObject o0) Hoi).
          lia. }
        destruct (copy_share_step_child σ r0 md σc i l0 o0 _
                    Hfresh Hi IHst Hpost) as (σ1 & subCopy & -> & Hinv).
        exact Hinv.
      + assert (Hgoal : copy_share_inv σ r0 (<[i := x]> md)
                          (Some (Store.assign σc r0 i x)))
          by (by apply copy_share_step_plain).
        by destruct x as [[]|]. }
  specialize (Hloop m (reflexivity m)).
  destruct Hloop as (σc & mr & Hst & Hmr & Hframec & Hnone & Hplain & Hobj).
  rewrite Hst in Hcopy. injection Hcopy as <- <-.
  exists σc, r0, m, mr.
  split; [exact Hrun|].
  repeat split; try done.
  - apply set_eq. intros k. rewrite !elem_of_dom. split.
    + intros [y Hy]. destruct (m !! k) eqn:Hk; [by eexists|].
      by rewrite (Hnone k Hk) in Hy.
    + intros [x Hx]. destruct (from_option is_HObject false x) eqn:Hobjx.
      * destruct x as [[]|]; try done.
        destruct (Hobj k _ Hx) as (sub' & -> & _). by eexists.
      * rewrite (Hplain k x Hx Hobjx). by eexists.
  - pose proof (owned_repr σ σc D r0 o Hframe Hown) as Hrepr.
    by rewrite Hdom.
  - eapply repr_mono; [| |exact Hr]; [rewrite Hdom; set_solver|done].
  - intros k x. eapply repr_mono; [| |exact Hr]; [rewrite Hdom; set_solver|].
    intros l' Hl'. rewrite assign_lookup_ne by set_solver. by apply Hframe.
Qed.

Lemma copy_is_deep_for_Objects_only_witness :
  repr (dom example_store) example_store (HObject 2%positive)
       (VObject example_fallback)
  ∧ (Value_size (VObject example_fallback) ≤ 10)%nat
  ∧ ∃ (σ' : store) (r : loc),
      Store.copy 10 example_store 2%positive = Some (σ', r)
      ∧ (r ∉ dom example_store)
      ∧ repr (dom σ') σ' (HObject r) (VObject example_fallback).
Proof.
  assert (Hsize : (Value_size (VObject example_fallback) ≤ 10)%nat).
  { vm_compute. lia. }
  split; [exact example_fallback_repr|]. split; [exact Hsize|].
  destruct (copy_is_deep_for_Objects_only example_store 2%positive
              example_fallback 10 example_fallback_repr Hsize)
    as (σ' & r & m & mr & Hcopy & _ & _ & Hnew & _ & _ & _ & _ & Hrepr & _ & _).
  by exists σ', r.
Defined.

(** ** Renderings and kinds *)

(** X12.  [containsObject] tells whether a fragment of the concatenation is
    an Object: nil fragments are skipped, and an Object inside a fragment (in
    an Array or in a nested concatenation) does not count.  It distributes
    over appending fragments. *)
Theorem containsObject_spec (c : concatenation) :
  (containsObject c = true ↔ ∃ o : Object, Some (VObject o) ∈ c)
  ∧ (∀ c', containsObject (c ++ c') = containsObject c || containsObject c')
  ∧ (∀ a c', containsObject [Some (VArray a); None; Some (Vconcatenation c')]
             = false).
Proof.
  split; [|split].
  - induction c as [|[v|] c IH]; cbn [containsObject].
    + split; [done|]. intros [o Ho]. by apply elem_of_nil in Ho.
    + destruct (decide (Value_Type v = ObjectType)) as [Hv|Hv].
      * split; [|done]. intros _. destruct v; try done.
        eexists. by left.
      * rewrite IH. split.
        -- intros [o Ho]. exists o. by right.
        -- intros [o Ho]. apply elem_of_cons in Ho as [Ho|Ho]; [|by exists o].
           injection Ho as <-. done.
    + rewrite IH. split.
      * intros [o Ho]. exists o. by right.
      * intros [o Ho]. apply elem_of_cons in Ho as [Ho|Ho]; [done|by exists o].
  - intros c'. induction c as [|[v|] c IH]; cbn [containsObject app]; try done.
    by destruct (decide (Value_Type v = ObjectType)).
  - done.
Qed.

Lemma string_app_inv_brace (a b : string) : a +:+ "}" = b +:+ "}" → a = b.
Proof.
  revert b. induction a as [|x a IH]; intros [|y b];
    rewrite ?string_app_cons, ?string_app_nil_l; intros Heq.
  - done.
  - injection Heq as _ Heq. destruct b; by rewrite ?string_app_cons in Heq.
  - injection Heq as _ Heq. destruct a; by rewrite ?string_app_cons in Heq.
  - injection Heq as -> Heq. by rewrite (IH b Heq).
Qed.

Lemma Substitution_String_unfold (s : Substitution) :
  Substitution_String s
  = "${" +:+ ((if optional s then "?" +:+ path s else path s) +:+ "}").
Proof.
  unfold Substitution_String. destruct (optional s);
    by rewrite ?string_app_assoc.
Qed.

(** X13.  The text of a Substitution tells the Substitution, but for one
    case: an optional Substitution and the required Substitution whose path
    is the same with a question mark in front are written alike.  Two
    Substitutions whose paths do not start with a question mark are written
    alike only when they are equal. *)
Theorem Substitution_String_collisions (s1 s2 : Substitution) :
  (Substitution_String s1 = Substitution_String s2
   ↔ (if optional s1 then "?" +:+ path s1 else path s1)
     = (if optional s2 then "?" +:+ path s2 else path s2))
  ∧ (∀ p, Substitution_String (mkSubstitution p true)
          = Substitution_String (mkSubstitution ("?" +:+ p) false))
  ∧ (first_byte (path s1) ≠ Some "?"%char →
     first_byte (path s2) ≠ Some "?"%char →
     Substitution_String s1 = Substitution_String s2 → s1 = s2).
Proof.
  assert (Hiff : Substitution_String s1 = Substitution_String s2
                 ↔ (if optional s1 then "?" +:+ path s1 else path s1)
                   = (if optional s2 then "?" +:+ path s2 else path s2)).
  { rewrite !Substitution_String_unfold. split.
    - intros Heq. apply String.app_inj in Heq. by apply string_app_inv_brace.
    - by intros ->. }
  split; [exact Hiff|]. split.
  - intros p. by rewrite !Substitution_String_unfold.
  - intros H1 H2 Heq. apply Hiff in Heq.
    destruct s1 as [p1 [|]], s2 as [p2 [|]]; cbn in *.
    + rewrite !string_app_cons, !string_app_nil_l in Heq. by injection Heq as ->.
    + rewrite string_app_cons, string_app_nil_l in Heq. subst p2. done.
    + rewrite string_app_cons, string_app_nil_l in Heq. subst p1. done.
    + by subst.
Qed.

Lemma Substitution_String_collisions_witness :
  first_byte (path (mkSubstitution "a.b" true)) ≠ Some "?"%char
  ∧ Substitution_String (mkSubstitution "a.b" true) = "${?a.b}"
  ∧ (Substitution_String (mkSubstitution "a.b" true)
     = Substitution_String (mkSubstitution "a.b" true) →
     mkSubstitution "a.b" true = mkSubstitution "a.b" true).
Proof.
  assert (H : first_byte (path (mkSubstitution "a.b" true)) ≠ Some "?"%char)
    by done.
  split; [exact H|]. split; [reflexivity|].
  pose proof (Substitution_String_collisions (mkSubstitution "a.b" true)
                (mkSubstitution "a.b" true)) as (_ & _ & Hinj).
  exact (Hinj H H).
Defined.

(** [strconv.Itoa] writes different integers differently. *)
Lemma strconv_Itoa_inj (i j : Z) : strconv_Itoa i = strconv_Itoa j → i = j.
Proof.
  assert (Hread : ∀ k, NilZero.int_of_string (strconv_Itoa k)
                       = Some (Z.to_int k)).
  { intros k. unfold strconv_Itoa. apply NilZero.isi.
    - destruct k as [|p|p]; cbn; try done.
      intros Heq. injection Heq as Heq.
      by apply DecimalPos.Unsigned.to_uint_nonnil in Heq.
    - destruct k as [|p|p]; cbn; try done.
      intros Heq. injection Heq as Heq.
      by apply DecimalPos.Unsigned.to_uint_nonnil in Heq. }
  intros Heq. pose proof (Hread i) as Hi. rewrite Heq, Hread in Hi.
  injection Hi as Hi. by apply DecimalZ.to_int_inj.
Qed.

Section RenderExtras.
Context `{!GoLib}.

(** X14.  The Json() form of a Duration is its count of whole milliseconds,
    in decimal and without quotes: the nanoseconds divided by a million and
    rounded toward zero, for a negative Duration too.  A Duration under one
    millisecond is written [0], whatever its sign; and [strconv.Atoi] reads
    the count back from the text. *)
Theorem Duration_Json_whole_milliseconds (d : Z) :
  let ms := Z.quot d 1000000 in
  Value_Json (VDuration d) = Returns (strconv_Itoa ms)
  ∧ Z.abs (ms * 1000000) <= Z.abs d < Z.abs (ms * 1000000) + 1000000
  ∧ (0 <= d → 0 <= ms)
  ∧ (d <= 0 → ms <= 0)
  ∧ (Z.abs d < 1000000 ↔ Value_Json (VDuration d) = Returns "0")
  ∧ (int_min <= d <= int_max →
     ∃ text, Value_Json (VDuration d) = Returns text
             ∧ strconv_Atoi text = Some ms).
Proof.
  intros ms. cbn [Value_Json]. fold ms.
  assert (Hms : Z.abs (ms * 1000000) <= Z.abs d < Z.abs (ms * 1000000) + 1000000
                ∧ (0 <= d → 0 <= ms) ∧ (d <= 0 → ms <= 0)).
  { subst ms. Z.quot_rem_to_equations. lia. }
  destruct Hms as (Hb & Hpos & Hneg).
  split; [done|]. split; [done|]. split; [done|]. split; [done|]. split.
  - rewrite <- (Z.quot_small_iff d 1000000) by done. fold ms. split.
    + by intros ->.
    + intros [= Heq]. by apply strconv_Itoa_inj.
  - intros Hr. exists (strconv_Itoa ms). split; [done|].
    apply Atoi_Itoa. unfold int_min, int_max in *. lia.
Qed.

End RenderExtras.

(** ** Panics and kinds of the getters *)

Section GetterExtras.
Context `{!GoLib}.

(** X15.  The getters add no panic but the nil dereference of a [String()]
    call.  The ten getters that do not render panic exactly when [Get] does,
    with the panic of [Get] (the type assertion of [find]).  [GetString],
    [GetStringSlice] and [GetStringMapString] panic then too, and besides
    only with a nil dereference: [GetString] on a value whose rendering
    meets a nil element of an Array, [GetStringSlice] on an Array that holds
    a nil element or an element with such a rendering, and
    [GetStringMapString] on an Object that holds a nil value or a value with
    such a rendering. *)
Theorem getters_panic_only_with_Get (c : Config) (path : string) (p : panic) :
  (GetObject c path = Panics p ↔ Get c path = Panics p)
  ∧ (GetConfig c path = Panics p ↔ Get c path = Panics p)
  ∧ (GetStringMap c path = Panics p ↔ Get c path = Panics p)
  ∧ (GetArray c path = Panics p ↔ Get c path = Panics p)
  ∧ (GetIntSlice c path = Panics p ↔ Get c path = Panics p)
  ∧ (GetInt c path = Panics p ↔ Get c path = Panics p)
  ∧ (GetFloat32 c path = Panics p ↔ Get c path = Panics p)
  ∧ (GetFloat64 c path = Panics p ↔ Get c path = Panics p)
  ∧ (GetBoolean c path = Panics p ↔ Get c path = Panics p)
  ∧ (GetDuration c path = Panics p ↔ Get c path = Panics p)
  ∧ (GetString c path = Panics p
     ↔ Get c path = Panics p
       ∨ (p = NilDereference
          ∧ ∃ v, Get c path = Returns (Some v) ∧ hits_nil v = true))
  ∧ (GetStringSlice c path = Panics p
     ↔ Get c path = Panics p
       ∨ (p = NilDereference
          ∧ ∃ arr, Get c path = Returns (Some (VArray arr))
                   ∧ hits_nil (VArray arr) = true))
  ∧ (GetStringMapString c path = Panics p
     ↔ Get c path = Panics p
       ∨ (p = NilDereference
          ∧ ∃ (object : Object) (k : string) (x : option Value),
              Get c path = Returns (Some (VObject object))
              ∧ object !! k = Some x
              ∧ from_option hits_nil true x = true)).
Proof.
  unfold GetConfig, GetStringMap, GetObject, GetStringMapString, GetArray,
    GetIntSlice, GetStringSlice, GetString, GetInt, GetFloat32, GetFloat64,
    GetBoolean, GetDuration.
  destruct (Get c path) as [value|p'] eqn:HGet; cbn [obind].
  - repeat match goal with |- _ ∧ _ => split end.
    1-10: split; [|done]; destruct value as [[]|]; cbn [obind]; try done.
    + by destruct (IntSlice_loop a []).
    + by destruct (strconv_Atoi s).
    + by destruct (strconv_ParseFloat s 32).
    + by destruct (strconv_ParseFloat s 64).
    + by repeat case_bool_decide.
    + split.
      * destruct value as [v|]; [|done].
        destruct (Value_String v) as [text|p0] eqn:Hv; cbn [obind]; [done|].
        intros [= <-]. apply Value_String_panic_is_nil in Hv as [-> Hv].
        right. split; [done|]. by exists v.
      * intros [Heq|(-> & v & [= ->] & Hv)]; [done|].
        by rewrite Value_String_panics.
    + split.
      * destruct value as [[]|]; cbn [obind]; try done.
        rewrite StringSlice_loop. pose proof (StringSlice_texts a) as Ht.
        destruct (hits_nil (VArray a)) eqn:Hnil.
        -- rewrite Ht. cbn [obind]. intros [= <-]. right. split; [done|].
           by exists a.
        -- by destruct Ht as (texts & -> & _).
      * intros [Heq|(-> & arr & [= ->] & Hnil)]; [done|].
        rewrite StringSlice_loop. pose proof (StringSlice_texts arr) as Ht.
        rewrite Hnil in Ht. by rewrite Ht.
    + split.
      * destruct value as [[]|]; cbn [obind]; try done.
        destruct (StringMapString_loop o)
          as [[-> (k & x & Hk & Hx)]|(m & -> & _)]; cbn [obind]; [|done].
        intros [= <-]. right. split; [done|]. by exists o, k, x.
      * intros [Heq|(-> & object & k & x & [= ->] & Hk & Hx)]; [done|].
        destruct (StringMapString_loop object)
          as [[-> _]|(m & _ & Hok & _)]; [done|].
        by rewrite (Hok k x Hk) in Hx.
  - repeat match goal with |- _ ∧ _ => split end;
      try (split; intros Heq; by injection Heq as ->).
    all: split; [intros Heq; left; by injection Heq as ->|];
      intros [Heq|(_ & Hex)]; [by injection Heq as ->|];
      decompose [ex and] Hex; discriminate.
Qed.

(** X16.  For Objects and Arrays the kind tag decides: on a value found at
    the path, [GetObject], [GetStringMap] and [GetConfig] succeed exactly
    when its tag is [ObjectType] and return that Object ([GetConfig] wraps
    it, so that its root is the Object found), and [GetArray] succeeds
    exactly when its tag is [ArrayType]; otherwise they return nil with the
    error that names the path.  No value is taken by both. *)
Theorem Object_and_Array_getters (c : Config) (path : string) (v : Value) :
  Get c path = Returns (Some v) →
  GetStringMap c path = GetObject c path
  ∧ (Value_Type v = ObjectType
     ↔ ∃ o, GetObject c path = Returns (Some o, nil_error))
  ∧ (∀ o, GetObject c path = Returns (Some o, nil_error)
          ↔ v = VObject o)
  ∧ (∀ c', GetConfig c path = Returns (Some c', nil_error)
           ↔ GetRoot c' = v ∧ Value_Type v = ObjectType)
  ∧ (Value_Type v ≠ ObjectType →
       GetObject c path
       = Returns (None, Some ("config value at path: " +:+ path
                              +:+ " is not an object"))
       ∧ GetConfig c path
         = Returns (None, Some ("config value at path: " +:+ path
                                +:+ " is not an object")))
  ∧ (Value_Type v = ArrayType
     ↔ ∃ a, GetArray c path = Returns (Some a, nil_error))
  ∧ (∀ a, GetArray c path = Returns (Some a, nil_error) ↔ v = VArray a)
  ∧ (Value_Type v ≠ ArrayType →
       GetArray c path
       = Returns (None, Some ("config value at path: " +:+ path
                              +:+ " is not an array")))
  ∧ ¬ ((∃ o, GetObject c path = Returns (Some o, nil_error))
       ∧ ∃ a, GetArray c path = Returns (Some a, nil_error)).
Proof.
  intros HGet.
  unfold GetConfig, GetStringMap, GetObject, GetArray. rewrite HGet.
  cbn [obind]. unfold fmt_Errorf, nil_error, GetRoot, ToConfig.
  split; [done|].
  destruct v; cbn.
  all: repeat match goal with |- _ ∧ _ => split end; try done.
  all: try (split; [done|by intros [? ?]]).
  all: try (split; [by eexists|done]).
  all: try (intros x; split; intros Heq; by simplify_eq).
  all: try (intros [? ?]; split; [|intros [? ?]]; intros; by simplify_eq).
  all: try (by intros [[? ?] [? ?]]).
  intros [r]. cbn. split.
  - intros Heq. by simplify_eq.
  - by intros [-> _].
Qed.

End GetterExtras.

Lemma getters_panic_only_with_Get_witness :
  let c := mkConfig (VObject {[ "a" := Some (VArray [None]) ]}) in
  Get c "a" = Returns (Some (VArray [None]))
  ∧ @GetString exampleLib c "a" = Panics NilDereference
  ∧ @GetStringSlice exampleLib c "a" = Panics NilDereference
  ∧ GetArray c "a" = Returns (Some [None], nil_error).
Proof.
  intros c.
  assert (HGet : Get c "a" = Returns (Some (VArray [None]))) by reflexivity.
  pose proof (@getters_panic_only_with_Get exampleLib c "a" NilDereference)
    as (_ & _ & _ & _ & _ & _ & _ & _ & _ & _ & HS & HSS & _).
  split; [exact HGet|]. split; [|split; [|reflexivity]].
  - apply HS. right. split; [done|]. by exists (VArray [None]).
  - apply HSS. right. split; [done|]. by exists [None].
Defined.

Lemma Object_and_Array_getters_witness :
  let c := mkConfig (VObject {[ "a" := Some (VArray [Some (VInt 1)]) ]}) in
  Get c "a" = Returns (Some (VArray [Some (VInt 1)]))
  ∧ GetArray c "a" = Returns (Some [Some (VInt 1)], nil_error)
  ∧ GetObject c "a"
    = Returns (None, Some "config value at path: a is not an object").
Proof.
  intros c.
  assert (HGet : Get c "a" = Returns (Some (VArray [Some (VInt 1)]))) by reflexivity.
  split; [exact HGet|].
  pose proof (Object_and_Array_getters c "a" (VArray [Some (VInt 1)]) HGet)
    as (_ & _ & _ & _ & Hobj & _ & Harr & _).
  split; [by apply (Harr [Some (VInt 1)])|]. by apply Hobj.
Defined.

(** ** Which operations return *)

Section NoAbort.
Context `{!GoLib}.


End NoAbort.


